(** * Adsorption workflow of matmethods: a shallow embedding

    The development follows [matmethods/vasp/workflows/base/adsorption.py].
    Python code is embedded as state-passing functions in an exception
    monad.  Three things of the source are kept explicit, because the
    properties below depend on them:

    - name resolution: a name that is neither a parameter, a local, a
      builtin nor an import of the module is looked up in the module's
      global namespace when the line is executed, and raises [NameError]
      when it is not bound there;
    - evaluation order: callee first, then the arguments left to right;
    - the calling convention of a method: the number of positional
      arguments is checked against the [def] line before the body runs.

    The semantics is that of Python 3 ([list.copy], the wording of the
    messages).  A string is a sequence of characters with code points
    below 256, Python's [str] restricted to these.  The constructors the
    module imports
    ([MVLSlabSet], [OptimizeFW], [TransmuterFW], [Workflow], [FWAction],
    [VaspDrone]) are taken to succeed.  [SurfaceFW] and [WriteSlabIOSet],
    the last of which breaks off in the middle of a statement, are not
    modelled: every function is modelled as it is written, whether or not
    the file as a whole can be loaded. *)

From Stdlib Require Import ZArith QArith String Ascii List Lia.
From stdpp Require Import gmap strings list fin_maps pretty.
Import ListNotations.

Local Open Scope string_scope.
Local Open Scope Z_scope.

(** ** Exceptions and results *)

Inductive exn : Type :=
| NameError (name : string)
| ValueError (msg : string)
| TypeError (msg : string)
| AttributeError (attr : string)
| KeyError (key : string)
| IndexError
| ExternalError (msg : string).

Inductive result (A : Type) : Type :=
| Ok (a : A)
| Raise (e : exn).
Arguments Ok {A} a.
Arguments Raise {A} e.

Definition is_ok {A} (r : result A) : bool :=
  match r with Ok _ => true | Raise _ => false end.

(** ** Data of the collaborators

    Values of pymatgen and FireWorks are records holding what the module
    reads from them.  Python floats are only forwarded, never computed
    with; they are carried as rationals. *)

Inductive pylit : Type :=
| LNone
| LBool (b : bool)
| LInt (z : Z)
| LFloat (q : Q)
| LStr (s : string).

(** A Python [dict] with string keys, in iteration order. *)
Definition pydict (V : Type) : Type := list (string * V).

Fixpoint dict_get {V} (d : pydict V) (k : string) : option V :=
  match d with
  | [] => None
  | (k', v) :: d' => if String.eqb k k' then Some v else dict_get d' k
  end.

Definition keys {V} (d : pydict V) : list string := map fst d.

Record Site : Type := {
  species_string : string;
  frac_coords : list Q;
  site_properties : pydict string
}.

Record Structure : Type := {
  reduced_formula : string;
  sites : list Site
}.

(** A [Slab] is a [Structure] with a miller index and a shift. *)
Record Slab : Type := {
  slab_structure : Structure;
  miller_index : list Z;
  slab_shift : Q
}.

Record Molecule : Type := { mol_formula : string; mol_coords : list (list Q) }.

(** [adsorption_config]: miller-index string to the molecules to adsorb. *)
Definition Config : Type := pydict (list Molecule).

Inductive Transformation : Type :=
| SlabTrans (mi : list Z) (min_slab min_vac shift : Q) (kwargs : pydict pylit)
| InsertSitesTrans (species : list string) (coords : list (list Q)).

Inductive VaspInputSet : Type :=
| MVLSlabSet (s : Structure) (bulk : bool)
    (user_incar_settings : option (pydict pylit))
| CustomInputSet (name : string).

(** Fireworks.  [OptimizeFW] and [TransmuterFW] are classes of
    [matmethods.vasp.fireworks.core], which is not among the sources at
    hand; they are taken as free constructors that keep the arguments
    they are given.  [parents] is the list of fireworks the new one waits
    for ([None] is the empty list, a single firework a one-element
    list).  The identifier FireWorks numbers a firework with is not an
    argument of the constructors; it is modelled apart, by the order in
    which the fireworks are built (see the identifiers of the fireworks
    below). *)
#[warnings="-register-all"]
Inductive Firework : Type :=
| OptimizeFW (structure : Structure) (vasp_input_set : VaspInputSet)
    (vasp_cmd : string) (db_file : option string) (parents : list Firework)
| TransmuterFW (name : string) (structure : Structure)
    (transformations : list Transformation) (copy_vasp_outputs : bool)
    (db_file : option string) (vasp_cmd : string) (parents : list Firework)
    (vasp_input_set : string) (vasp_input_params : pydict pylit).

Definition fw_parents (fw : Firework) : list Firework :=
  match fw with
  | OptimizeFW _ _ _ _ ps => ps
  | TransmuterFW _ _ _ _ _ _ ps _ _ => ps
  end.

Definition is_optimize (fw : Firework) : bool :=
  match fw with OptimizeFW _ _ _ _ _ => true | _ => false end.

Record Workflow : Type := { wf_fws : list Firework; wf_name : string }.

Record FWAction : Type := { additions : list Firework }.

(** ** State

    [fws] is the local list both [get_wf_adsorption] and
    [AddAdsorptionTasks.run_task] build with [fws.append]; it is kept in
    the state so that it can be inspected where an exception leaves the
    function.  [ext] is the hidden state of the external libraries, [log]
    what was given to [logger.info], [files] and [db] the file system and
    the collections of the results database. *)

Definition Doc : Type := pydict string.

Record State : Type := {
  fws : list Firework;
  ext : nat;
  log : list string;
  files : gmap string string;
  db : gmap string (list Doc)
}.

Definition set_fws (l : list Firework) (s : State) : State :=
  {| fws := l; ext := ext s; log := log s; files := files s; db := db s |}.

Definition set_ext (n : nat) (s : State) : State :=
  {| fws := fws s; ext := n; log := log s; files := files s; db := db s |}.

Definition add_log (m : string) (s : State) : State :=
  {| fws := fws s; ext := ext s; log := log s ++ [m];
     files := files s; db := db s |}.

(** ** The monad *)

Definition M (A : Type) : Type := State -> result A * State.

Definition ret {A} (a : A) : M A := fun s => (Ok a, s).

Definition raise {A} (e : exn) : M A := fun s => (Raise e, s).

Definition bind {A B} (m : M A) (k : A -> M B) : M B :=
  fun s => match m s with
           | (Ok a, s') => k a s'
           | (Raise e, s') => (Raise e, s')
           end.

Declare Scope py_scope.
Delimit Scope py_scope with py.
Notation "x <- m ;; k" := (bind m (fun x => k))
  (at level 100, m at next level, right associativity) : py_scope.
Notation "m ;; k" := (bind m (fun _ => k))
  (at level 100, right associativity) : py_scope.
Local Open Scope py_scope.

Definition lift {A} (r : result A) : M A := fun s => (r, s).

(** [for x in l: body]. *)
Fixpoint for_each {A} (l : list A) (body : A -> M unit) : M unit :=
  match l with
  | [] => ret tt
  | x :: l' => body x ;; for_each l' body
  end.

(** [fws.append(fw)] and [fws[0]]. *)
Definition fws_append (fw : Firework) : M unit :=
  fun s => (Ok tt, set_fws (fws s ++ [fw]) s).

Definition fws_first : M Firework :=
  fun s => match fws s with
           | fw :: _ => (Ok fw, s)
           | [] => (Raise IndexError, s)
           end.

Definition get_fws : M (list Firework) := fun s => (Ok (fws s), s).

(** A call into an external library: it may read and advance the hidden
    state of the library and may raise. *)
Definition ExtCall (A : Type) : Type := nat -> result A * nat.

Definition ext_call {A} (c : ExtCall A) : M A :=
  fun s => let (r, n) := c (ext s) in (r, set_ext n s).

Definition logger_info (m : string) : M unit :=
  fun s => (Ok tt, add_log m s).

(** A reference to a global name. *)
Definition global {A} (name : string) (binding : option A) : M A :=
  match binding with
  | Some a => ret a
  | None => raise (NameError name)
  end.

(** ** Builtins *)

(** [repr] of a one-character string, as CPython prints it: between
    single quotes, or between double quotes when the character is a
    single quote; a backslash doubled; tab, newline and carriage return
    as [\t], [\n] and [\r]; any other character that is not printable
    as [\xhh].  Below 256 the printable characters are 32 to 126 and 161
    to 255 without 173. *)
Definition hex_digit (n : nat) : ascii :=
  nth n (list_ascii_of_string "0123456789abcdef") "0"%char.

Definition printable (c : ascii) : bool :=
  let n := nat_of_ascii c in
  ((32 <=? n) && (n <=? 126) || (161 <=? n) && negb (n =? 173))%nat.

Definition double_quote : ascii := ascii_of_nat 34.

Definition repr_char (c : ascii) : string :=
  let n := nat_of_ascii c in
  if (n =? 39)%nat then String double_quote (String c (String double_quote ""))
  else
    "'" ++
    (if (n =? 92)%nat then "\\"
     else if (n =? 9)%nat then "\t"
     else if (n =? 10)%nat then "\n"
     else if (n =? 13)%nat then "\r"
     else if printable c then String c ""
     else "\x" ++ String (hex_digit (n / 16)%nat)
                     (String (hex_digit (n mod 16)%nat) ""))
    ++ "'".

(** [int(c)] for a one-character string [c]: the value of a decimal
    digit, else [ValueError] with the [repr] of [c]. *)
Definition int_of_char (c : ascii) : result Z :=
  let n := Z.of_nat (nat_of_ascii c) in
  if (48 <=? n) && (n <=? 57) then Ok (n - 48)
  else Raise (ValueError ("invalid literal for int() with base 10: "
                          ++ repr_char c)).

Fixpoint map_result {A B} (f : A -> result B) (l : list A) : result (list B) :=
  match l with
  | [] => Ok []
  | x :: l' =>
      match f x with
      | Raise e => Raise e
      | Ok y => match map_result f l' with
                | Raise e => Raise e
                | Ok ys => Ok (y :: ys)
                end
      end
  end.

(** [max(l)] of a list of integers. *)
Definition py_max (l : list Z) : result Z :=
  match l with
  | [] => Raise (ValueError "max() arg is an empty sequence")
  | x :: l' => Ok (fold_left Z.max l' x)
  end.

(** [''.join(l)]. *)
Definition join (l : list string) : string := String.concat "" l.

(** [''.join([str(i) for i in slab.miller_index])]. *)
Definition mi_string (slab : Slab) : string :=
  join (map (fun i : Z => pretty i) (miller_index slab)).

(** [repr] of a list of strings, as ["{}".format] prints it. *)
Definition repr_str_list (l : list string) : string :=
  "[" ++ String.concat ", " (map (fun s => "'" ++ s ++ "'") l) ++ "]".

Definition in_list (k : string) (l : list string) : bool :=
  existsb (String.eqb k) l.

(** [[site for site in slab
      if site.site_properties["surface_properties"] == "adsorbate"]]. *)
Definition is_adsorbate (site : Site) : result bool :=
  match dict_get (site_properties site) "surface_properties" with
  | Some v => Ok (String.eqb v "adsorbate")
  | None => Raise (KeyError "surface_properties")
  end.

Fixpoint filter_result {A} (p : A -> result bool) (l : list A)
  : result (list A) :=
  match l with
  | [] => Ok []
  | x :: l' =>
      match p x with
      | Raise e => Raise e
      | Ok b => match filter_result p l' with
                | Raise e => Raise e
                | Ok ys => Ok (if b then x :: ys else ys)
                end
      end
  end.

(** ** The global namespace of the module

    The names below are used by the functions of the module without being
    parameters, locals, builtins or imports.  What they denote is decided
    by the module's global namespace at the time of the call, so the
    functions take the namespace as an argument; [None] is an unbound
    name. *)

(** What a call of [generate_decorated_slabs] passes after the
    structure; [None] where the call leaves the default. *)
Record SlabGenArgs : Type := {
  arg_max_index : option Z;
  arg_min_slab_size : option Q;
  arg_min_vacuum_size : option Q;
  arg_max_normal_search : option Z;
  arg_center_slab : option bool
}.

(** An [AdsorbateSiteFinder] object. *)
Record SiteFinder : Type := {
  generate_adsorption_structures : Molecule -> ExtCall (list Structure)
}.

Record Namespace : Type := {
  g_generate_decorated_slabs :
    option (Structure -> SlabGenArgs -> ExtCall (list Slab));
  g_opt_struct : option Structure;
  g_adsorbate_config : option Config;
  g_SlabTransformation :
    option (list Z -> Q -> Q -> Q -> pydict pylit -> result Transformation);
  g_shift : option Q;
  g_slag_gen_config : option (pydict pylit);
  g_slab_input_params : option (pydict pylit);
  g_AdsorbateSiteFinder : option (Slab -> bool -> ExtCall SiteFinder);
  g_InsertSitesTransformation :
    option (list string -> list (list Q) -> result Transformation);
  g_ads_input_params : option (pydict pylit);
  g_user_incar_settings : option (pydict pylit);
  g_vasp_cmd : option string;
  g_db_file : option (option string);
  g_incar_update : option (pydict pylit);
  g_add_modify_incar :
    option (list Firework -> pydict pylit -> result (list Firework))
}.

(** The namespace the module has once its top-level statements have run
    ([import]s, [logger], the classes and [get_wf_adsorption]): none of
    the names above is bound by them. *)
Definition module_namespace : Namespace := {|
  g_generate_decorated_slabs := None;
  g_opt_struct := None;
  g_adsorbate_config := None;
  g_SlabTransformation := None;
  g_shift := None;
  g_slag_gen_config := None;
  g_slab_input_params := None;
  g_AdsorbateSiteFinder := None;
  g_InsertSitesTransformation := None;
  g_ads_input_params := None;
  g_user_incar_settings := None;
  g_vasp_cmd := None;
  g_db_file := None;
  g_incar_update := None;
  g_add_modify_incar := None
|}.

(** ** [get_wf_adsorption] *)

Section GetWfAdsorption.

Variable G : Namespace.
Variables (structure : Structure) (adsorption_config : Config).
Variable vasp_input_set : option VaspInputSet.
Variables min_slab_size min_vacuum_size : Q.
Variable max_normal_search : Z.
Variable center_slab : bool.
Variable vasp_cmd : string.
Variable db_file : option string.

(** Lines 152-168: the body of [for struct in structures]. *)
Definition adsorbate_fw_body (slab : Slab) (trans : list Transformation)
    (struct : Structure) : M unit :=
  ads_sites <- lift (filter_result is_adsorbate (sites (slab_structure slab))) ;;
  ist <- global "InsertSitesTransformation" (g_InsertSitesTransformation G) ;;
  add_adsorbate_trans <-
    lift (ist (map species_string ads_sites) (map frac_coords ads_sites)) ;;
  let ads_trans := (trans ++ [add_adsorbate_trans])%list in
  parent <- fws_first ;;
  ads_input_params <- global "ads_input_params" (g_ads_input_params G) ;;
  fws_append (TransmuterFW "slab calculation" structure trans true db_file
                vasp_cmd [parent] "MVLSlabSet" ads_input_params).

(** Lines 132-168: the body of [for slab in slabs]. *)
Definition slab_body (slab : Slab) : M unit :=
  let mi := mi_string slab in
  adsorbate_config <- global "adsorbate_config" (g_adsorbate_config G) ;;
  if in_list mi (keys adsorbate_config) then
    SlabTransformation <- global "SlabTransformation" (g_SlabTransformation G) ;;
    shift <- global "shift" (g_shift G) ;;
    slag_gen_config <- global "slag_gen_config" (g_slag_gen_config G) ;;
    t <- lift (SlabTransformation (miller_index slab) min_slab_size
                 min_vacuum_size shift slag_gen_config) ;;
    let trans := [t] in
    parent <- fws_first ;;
    slab_input_params <- global "slab_input_params" (g_slab_input_params G) ;;
    fws_append (TransmuterFW "slab calculation" structure trans true db_file
                  vasp_cmd [parent] "MVLSlabSet" slab_input_params) ;;
    AdsorbateSiteFinder <- global "AdsorbateSiteFinder" (g_AdsorbateSiteFinder G) ;;
    asf <- ext_call (AdsorbateSiteFinder slab true) ;;
    adsorbate_config' <- global "adsorbate_config" (g_adsorbate_config G) ;;
    molecules <- lift (match dict_get adsorbate_config' mi with
                       | Some ms => Ok ms
                       | None => Raise (KeyError mi)
                       end) ;;
    for_each molecules (fun molecule =>
      structures <- ext_call (generate_adsorption_structures asf molecule) ;;
      for_each structures (adsorbate_fw_body slab trans))
  else ret tt.

(** Lines 126-129. *)
Definition check_key (mi_strings : list string) (key : string) : M unit :=
  if in_list key mi_strings then ret tt
  else raise (ValueError ("Miller index not in generated slab list. "
                          ++ "Unique slabs are " ++ repr_str_list mi_strings)).

(** Lines 115-171. *)
Definition get_wf_adsorption : M Workflow :=
  let v := match vasp_input_set with
           | Some v => v
           | None => MVLSlabSet structure true None
           end in
  (fun s => (Ok tt, set_fws [] s)) ;;
  fws_append (OptimizeFW structure v vasp_cmd db_file []) ;;
  digits <- lift (map_result int_of_char
                    (list_ascii_of_string (join (keys adsorption_config)))) ;;
  max_index <- lift (py_max digits) ;;
  generate_decorated_slabs <-
    global "generate_decorated_slabs" (g_generate_decorated_slabs G) ;;
  opt_struct <- global "opt_struct" (g_opt_struct G) ;;
  slabs <- ext_call (generate_decorated_slabs opt_struct
             {| arg_max_index := Some max_index;
                arg_min_slab_size := Some min_slab_size;
                arg_min_vacuum_size := Some min_vacuum_size;
                arg_max_normal_search := Some max_normal_search;
                arg_center_slab := Some center_slab |}) ;;
  let mi_strings := map mi_string slabs in
  adsorbate_config <- global "adsorbate_config" (g_adsorbate_config G) ;;
  for_each (keys adsorbate_config) (check_key mi_strings) ;;
  for_each slabs slab_body ;;
  let wfname := reduced_formula structure ++ ":" ++ "elastic constants" in
  l <- get_fws ;;
  ret {| wf_fws := l; wf_name := wfname |}.

End GetWfAdsorption.

(** ** Firetasks

    A firetask is a dictionary of its parameters (FireTaskBase is a
    [dict]; the entries are the ones the classes declare in
    [required_params] and [optional_params]) with the attributes set on
    the instance.  FireWorks runs a task as [t.run_task(my_spec)]: one
    positional argument besides [self]. *)

Record Spec : Type := {
  calc_locs : option (list (pydict string));
  fw_env : pydict string
}.

Record Task : Type := {
  param_adsorption_config : option Config;
  param_structure : option Structure;
  param_db_file : option string;
  task_attrs : pydict Spec
}.

Record Method : Type := {
  positional : list string;
  body : Task -> list Spec -> M (option FWAction)
}.

(** A bound-method call [t.m(args)]: [self] and the arguments must fill
    the positional parameters of the [def] line. *)
Definition call_method (m : Method) (self : Task) (args : list Spec)
  : M (option FWAction) :=
  let given := S (length args) in
  let expected := length (positional m) in
  if Nat.eqb given expected then body m self args
  else if Nat.ltb expected given then
    raise (TypeError ("run_task() takes " ++ pretty expected
                      ++ " positional argument but " ++ pretty given
                      ++ " were given"))
  else raise (TypeError "run_task() missing required positional argument").

(** How FireWorks invokes a task. *)
Definition launch (m : Method) (t : Task) (my_spec : Spec)
  : M (option FWAction) :=
  call_method m t [my_spec].

(** [self.spec]. *)
Definition getattr_spec (self : Task) : result Spec :=
  match dict_get (task_attrs self) "spec" with
  | Some sp => Ok sp
  | None => Raise (AttributeError "spec")
  end.

(** [pass]. *)
Definition pass : M unit := ret tt.

(** A statement that is only an expression: it is evaluated and its value
    dropped. *)
Definition expr_stmt {A} (v : A) : M unit := ret tt.

(** Lines 42-44. *)
Definition PassSlabEnergy_run_task : Method := {|
  positional := ["self"; "fw_spec"];
  body := fun self args =>
    pass ;;
    ret (Some {| additions := [] |})
|}.

(** Lines 56-82: [pass], then a string literal that holds the statements
    of lines 59-81.  The function ends without [return], which gives
    [None]. *)
Definition AnalyzeAdsorption_run_task : Method := {|
  positional := ["self"; "fw_spec"];
  body := fun self args =>
    pass ;;
    expr_stmt "# Get optimized structure ... return FWAction()" ;;
    ret None
|}.

(** What the module imports from the drone and from pymatgen and calls in
    [AddAdsorptionTasks.run_task]. *)
Record Calc : Type := { output_structure : option Doc }.
Record TaskDoc : Type := { calcs_reversed : option (list Calc) }.

Record Imports : Type := {
  VaspDrone_assimilate : string -> ExtCall TaskDoc;
  Structure_from_dict : Doc -> result Structure
}.

Definition last_opt {A} (l : list A) : option A := List.last (map Some l) None.

Definition truthy {V} (d : pydict V) : bool :=
  match d with [] => false | _ => true end.

Section AddAdsorptionTasks.

Variable I : Imports.
Variable G : Namespace.

(** Lines 194-206: the body of [for slab in slabs]. *)
Definition add_slab_body (slab : Slab) : M unit :=
  let mi := mi_string slab in
  adsorbate_config <- global "adsorbate_config" (g_adsorbate_config G) ;;
  if in_list mi (keys adsorbate_config) then
    user_incar_settings <-
      global "user_incar_settings" (g_user_incar_settings G) ;;
    let vis := MVLSlabSet (slab_structure slab) false (Some user_incar_settings) in
    fws_append (OptimizeFW (slab_structure slab) vis "vasp" None []) ;;
    AdsorbateSiteFinder <- global "AdsorbateSiteFinder" (g_AdsorbateSiteFinder G) ;;
    asf <- ext_call (AdsorbateSiteFinder slab true) ;;
    adsorbate_config' <- global "adsorbate_config" (g_adsorbate_config G) ;;
    molecules <- lift (match dict_get adsorbate_config' mi with
                       | Some ms => Ok ms
                       | None => Raise (KeyError mi)
                       end) ;;
    for_each molecules (fun molecule =>
      structures <- ext_call (generate_adsorption_structures asf molecule) ;;
      for_each structures (fun struct =>
        vasp_cmd <- global "vasp_cmd" (g_vasp_cmd G) ;;
        db_file <- global "db_file" (g_db_file G) ;;
        fws_append (OptimizeFW struct vis vasp_cmd db_file [])))
  else ret tt.

(** Lines 184-212. *)
Definition AddAdsorptionTasks_body (self : Task) : M (option FWAction) :=
  spec <- lift (getattr_spec self) ;;
  locs <- lift (match calc_locs spec with
                | Some l => Ok l
                | None => Raise (KeyError "calc_locs")
                end) ;;
  loc <- lift (match last_opt locs with
               | Some d => Ok d
               | None => Raise IndexError
               end) ;;
  optimize_loc <- lift (match dict_get loc "path" with
                        | Some p => Ok p
                        | None => Raise (KeyError "path")
                        end) ;;
  logger_info ("PARSING INITIAL OPTIMIZATION DIRECTORY: " ++ optimize_loc) ;;
  optimize_doc <- ext_call (VaspDrone_assimilate I optimize_loc) ;;
  calcs <- lift (match calcs_reversed optimize_doc with
                 | Some l => Ok l
                 | None => Raise (KeyError "calcs_reversed")
                 end) ;;
  calc <- lift (match calcs with
                | c :: _ => Ok c
                | [] => Raise IndexError
                end) ;;
  sd <- lift (match output_structure calc with
              | Some d => Ok d
              | None => Raise (KeyError "structure")
              end) ;;
  opt_struct <- lift (Structure_from_dict I sd) ;;
  generate_decorated_slabs <-
    global "generate_decorated_slabs" (g_generate_decorated_slabs G) ;;
  slabs <- ext_call (generate_decorated_slabs opt_struct
             {| arg_max_index := None; arg_min_slab_size := None;
                arg_min_vacuum_size := None; arg_max_normal_search := None;
                arg_center_slab := None |}) ;;
  (fun s => (Ok tt, set_fws [] s)) ;;
  for_each slabs add_slab_body ;;
  incar_update <- global "incar_update" (g_incar_update G) ;;
  (if truthy incar_update then
     add_modify_incar <- global "add_modify_incar" (g_add_modify_incar G) ;;
     l <- get_fws ;;
     l' <- lift (add_modify_incar l incar_update) ;;
     (fun s => (Ok tt, set_fws l' s))
   else ret tt) ;;
  l <- get_fws ;;
  ret (Some {| additions := l |}).

(** [def run_task(self):] *)
Definition AddAdsorptionTasks_run_task : Method := {|
  positional := ["self"];
  body := fun self args => AddAdsorptionTasks_body self
|}.

End AddAdsorptionTasks.

(** * Definitions used by the properties *)

(** ** Concrete inputs

    The inputs of the module's [__main__] block: silicon and a CO
    molecule. *)

Definition Si : Structure := {| reduced_formula := "Si"; sites := [] |}.

Definition CO : Molecule :=
  {| mol_formula := "CO";
     mol_coords := [[0; 0; 0]; [0; 0; 19 # 10]]%Q |}.

Definition s0 : State :=
  {| fws := []; ext := 0%nat; log := []; files := ∅; db := ∅ |}.

(** ** The slab-generation step of [get_wf_adsorption] *)

(** [c] is one of the characters [int] accepts. *)
Definition is_digit (c : ascii) : bool :=
  let n := Z.of_nat (nat_of_ascii c) in (48 <=? n) && (n <=? 57).

(** A non-empty string of decimal digits. *)
Definition digit_string (s : string) : bool :=
  match list_ascii_of_string s with
  | [] => false
  | l => forallb is_digit l
  end.

Definition raises_NameError {A} (r : result A) : Prop :=
  exists name, r = Raise (NameError name).

(** C8 as the claim is worded: every non-empty configuration leads to a
    [NameError]. *)
Definition C8_as_stated (cfg : Config) : Prop :=
  cfg <> [] ->
  raises_NameError
    (fst (get_wf_adsorption module_namespace Si cfg None 7 12 1 true
            "vasp" None s0)).

(** ** A namespace in which every free name is bound

    It serves to run the functions past the slab-generation step: the
    generator yields the (1,1,1) and (1,0,0) slabs of silicon, the site
    finder two placements per molecule.  Both advance the hidden state of
    the library and return the same value whatever that state is. *)

Definition surface_site : Site :=
  {| species_string := "Si"; frac_coords := [0; 0; 1 # 2]%Q;
     site_properties := [("surface_properties", "surface")] |}.

Definition adsorbate_site : Site :=
  {| species_string := "C"; frac_coords := [0; 0; 3 # 4]%Q;
     site_properties := [("surface_properties", "adsorbate")] |}.

Definition slab_111 : Slab :=
  {| slab_structure := {| reduced_formula := "Si";
                          sites := [surface_site; adsorbate_site] |};
     miller_index := [1; 1; 1]; slab_shift := 0 |}.

Definition slab_100 : Slab :=
  {| slab_structure := {| reduced_formula := "Si"; sites := [surface_site] |};
     miller_index := [1; 0; 0]; slab_shift := 0 |}.

Definition placement (tag : string) : Structure :=
  {| reduced_formula := "Si" ++ tag; sites := [surface_site; adsorbate_site] |}.

Definition bound_namespace : Namespace := {|
  g_generate_decorated_slabs :=
    Some (fun _ _ n => (Ok [slab_111; slab_100], S n));
  g_opt_struct := Some Si;
  g_adsorbate_config := Some [("111", [CO])];
  g_SlabTransformation :=
    Some (fun mi a b sh kw => Ok (SlabTrans mi a b sh kw));
  g_shift := Some 0%Q;
  g_slag_gen_config := Some [];
  g_slab_input_params := Some [];
  g_AdsorbateSiteFinder :=
    Some (fun _ _ n =>
            (Ok {| generate_adsorption_structures :=
                     fun _ m => (Ok [placement "CO-top"; placement "CO-bridge"],
                                 S m) |},
             S n));
  g_InsertSitesTransformation :=
    Some (fun sp co => Ok (InsertSitesTrans sp co));
  g_ads_input_params := Some [("selective_dynamics", LBool true)];
  g_user_incar_settings := Some [];
  g_vasp_cmd := Some "vasp";
  g_db_file := Some None;
  g_incar_update := Some [];
  g_add_modify_incar := Some (fun l _ => Ok l)
|}.

Definition root_fw : Firework :=
  OptimizeFW Si (MVLSlabSet Si true None) "vasp" None [].

Definition slab_fw : Firework :=
  TransmuterFW "slab calculation" Si [SlabTrans [1; 1; 1] 7 12 0 []] true None
    "vasp" [root_fw] "MVLSlabSet" [].

Definition ads_fw : Firework :=
  TransmuterFW "slab calculation" Si [SlabTrans [1; 1; 1] 7 12 0 []] true None
    "vasp" [root_fw] "MVLSlabSet" [("selective_dynamics", LBool true)].

(** What the call of the [__main__] block returns in that namespace, and
    the state it leaves. *)
Definition bound_final : State :=
  {| fws := [root_fw; slab_fw; ads_fw; ads_fw]; ext := 3%nat; log := [];
     files := ∅; db := ∅ |}.

Definition bound_wf : Workflow :=
  {| wf_fws := [root_fw; slab_fw; ads_fw; ads_fw];
     wf_name := "Si:elastic constants" |}.

(** ** Invariants of the list [fws] *)

(** [keeps P m]: when [m] returns, it has kept the property [P] of [fws]. *)
Definition keeps {A} (P : list Firework -> Prop) (m : M A) : Prop :=
  forall s a s', P (fws s) -> m s = (Ok a, s') -> P (fws s').

(** A firework derived from [root]: a transmuter firework whose only
    parent is [root]. *)
Definition derived_from (root fw : Firework) : Prop :=
  fw_parents fw = [root] /\ is_optimize fw = false.

(** [fws] starts with [root], all the rest is derived from it. *)
Definition rooted (root : Firework) (l : list Firework) : Prop :=
  exists rest, l = root :: rest /\ Forall (derived_from root) rest.

(** A firework can start once all its parents are completed. *)
Definition can_start (completed : Firework -> Prop) (fw : Firework) : Prop :=
  forall p, In p (fw_parents fw) -> completed p.

(** ** Running the firetasks *)

(** An [AddAdsorptionTasks] as a workflow would hold it, and the spec the
    root optimization leaves behind. *)
Definition add_task : Task :=
  {| param_adsorption_config := Some [("111", [CO])];
     param_structure := None; param_db_file := None; task_attrs := [] |}.

Definition root_spec : Spec :=
  {| calc_locs := Some [[("name", "structure optimization");
                         ("path", "/scratch/launcher_opt")]];
     fw_env := [] |}.

(** The same task with the spec attached as an attribute, as the body of
    [run_task] expects it. *)
Definition add_task_with_spec : Task :=
  {| param_adsorption_config := Some [("111", [CO])];
     param_structure := None; param_db_file := None;
     task_attrs := [("spec", root_spec)] |}.

(** A drone that finds the optimized silicon structure. *)
Definition si_imports : Imports :=
  {| VaspDrone_assimilate := fun _ n =>
       (Ok {| calcs_reversed :=
                Some [{| output_structure := Some [("formula", "Si")] |}] |},
        S n);
     Structure_from_dict := fun _ => Ok Si |}.

Definition analyze_task : Task :=
  {| param_adsorption_config := None; param_structure := Some Si;
     param_db_file := None; task_attrs := [] |}.

(** The same task with a [db_file]. *)
Definition analyze_task_db : Task :=
  {| param_adsorption_config := None; param_structure := Some Si;
     param_db_file := Some "db.json"; task_attrs := [] |}.

(** C3 as the claim is worded: the run returns an [FWAction]; without a
    [db_file] the file adsorption.json exists afterwards, with one the
    collection "adsorption" has one more document. *)
Definition C3_as_stated (t : Task) (fw_spec : Spec) (s : State) : Prop :=
  let r := launch AnalyzeAdsorption_run_task t fw_spec s in
  (exists act, fst r = Ok (Some act)) /\
  (param_db_file t = None -> is_Some (files (snd r) !! "adsorption.json")) /\
  (forall f, param_db_file t = Some f ->
     length (default [] (db (snd r) !! "adsorption"))
     = S (length (default [] (db s !! "adsorption")))).

(** ** Namespaces between the module's and the fully bound one *)

(** Only the slab generator and [opt_struct] are supplied. *)
Definition generator_namespace : Namespace := {|
  g_generate_decorated_slabs :=
    Some (fun _ _ n => (Ok [slab_111; slab_100], S n));
  g_opt_struct := Some Si;
  g_adsorbate_config := None;
  g_SlabTransformation := None;
  g_shift := None;
  g_slag_gen_config := None;
  g_slab_input_params := None;
  g_AdsorbateSiteFinder := None;
  g_InsertSitesTransformation := None;
  g_ads_input_params := None;
  g_user_incar_settings := None;
  g_vasp_cmd := None;
  g_db_file := None;
  g_incar_update := None;
  g_add_modify_incar := None
|}.

(** The message of line 128 for the slab list [mi_strings]. *)
Definition miller_index_error (mi_strings : list string) : exn :=
  ValueError ("Miller index not in generated slab list. "
              ++ "Unique slabs are " ++ repr_str_list mi_strings).

(** ** Determinism *)

(** The value an external call returns does not depend on the hidden
    state of the library. *)
Definition state_independent {A} (c : ExtCall A) : Prop :=
  forall n m, fst (c n) = fst (c m).

(** The slab generator and the adsorption-structure generator a namespace
    binds are deterministic for a fixed input. *)
Definition deterministic_generators (G : Namespace) : Prop :=
  (forall gen, g_generate_decorated_slabs G = Some gen ->
     forall os args, state_independent (gen os args)) /\
  (forall ASF, g_AdsorbateSiteFinder G = Some ASF ->
     forall slab sel,
       state_independent (ASF slab sel) /\
       forall n asf, fst (ASF slab sel n) = Ok asf ->
         forall mol, state_independent (generate_adsorption_structures asf mol)).

(** [stable m]: run from two states with the same [fws], [m] gives the
    same result and the same [fws]. *)
Definition stable {A} (m : M A) : Prop :=
  forall s1 s2, fws s1 = fws s2 ->
    fst (m s1) = fst (m s2) /\ fws (snd (m s1)) = fws (snd (m s2)).

(** A state some earlier work has left behind. *)
Definition s_later : State :=
  {| fws := [ads_fw]; ext := 41%nat; log := ["earlier run"];
     files := ∅; db := ∅ |}.

(** ** The identifiers of the fireworks

    FireWorks gives every firework that is built without an explicit
    [fw_id] the next value of a counter of its own, which counts down
    and is not reset between calls.  The constructors above keep the
    arguments only.  [get_wf_adsorption] empties [fws] on line 116 and
    appends every firework where it builds it (lines 117, 137 and 160),
    so the k-th element of [fws] is the k-th firework the call has built
    and carries the k-th identifier handed out during the call; the
    parent of a derived firework is the first element, with the first
    identifier. *)

(** The identifiers of [n] fireworks built while the counter stands at
    [ctr]. *)
Definition fw_ids (ctr : Z) (n : nat) : list Z :=
  map (fun k => ctr - 1 - Z.of_nat k) (seq 0 n).

Record NumberedWorkflow : Type := {
  nwf_fws : list (Z * Firework);
  nwf_name : string
}.

Definition number (ctr : Z) (wf : Workflow) : NumberedWorkflow :=
  {| nwf_fws := combine (fw_ids ctr (length (wf_fws wf))) (wf_fws wf);
     nwf_name := wf_name wf |}.

(** A call of [get_wf_adsorption] while the counter stands at [ctr]:
    the result with its identifiers, and the counter and the state the
    call leaves. *)
Definition call_get_wf_adsorption (G : Namespace) (structure : Structure)
    (cfg : Config) (vis : option VaspInputSet) (min_slab min_vac : Q)
    (mns : Z) (center : bool) (cmd : string) (dbf : option string)
    (ctr : Z) (s : State) : result NumberedWorkflow * (Z * State) :=
  let (r, s') := get_wf_adsorption G structure cfg vis min_slab min_vac mns
                   center cmd dbf s in
  (match r with
   | Ok wf => Ok (number ctr wf)
   | Raise e => Raise e
   end,
   (ctr - Z.of_nat (length (fws s')), s')).

(** The same outcome with every identifier moved by [d]. *)
Definition shift_ids (d : Z) (r : result NumberedWorkflow)
  : result NumberedWorkflow :=
  match r with
  | Ok w => Ok {| nwf_fws := map (fun p => (fst p + d, snd p)) (nwf_fws w);
                  nwf_name := nwf_name w |}
  | Raise e => Raise e
  end.

(** C7 as the claim is worded: a call and the next call on the same
    arguments give identical workflows. *)
Definition C7_as_stated (G : Namespace) (cfg : Config) (ctr : Z) (s : State)
  : Prop :=
  let first :=
    call_get_wf_adsorption G Si cfg None 7 12 1 true "vasp" None ctr s in
  let second :=
    call_get_wf_adsorption G Si cfg None 7 12 1 true "vasp" None
      (fst (snd first)) (snd (snd first)) in
  deterministic_generators G -> fst first = fst second.

(** ** The size of the expansion *)

(** [adds n m]: when [m] returns, [fws] is [n] fireworks longer. *)
Definition adds {A} (n : nat) (m : M A) : Prop :=
  forall s a s', m s = (Ok a, s') ->
    length (fws s') = (length (fws s) + n)%nat.

(** The adsorbate placements of a slab: one per adsorption structure
    [structs slab mol] of each molecule configured for its key. *)
Definition placements (cfg : Config) (structs : Slab -> Molecule -> list Structure)
    (slab : Slab) : nat :=
  list_sum (map (fun mol => length (structs slab mol))
              (default [] (dict_get cfg (mi_string slab)))).

Definition matching (cfg : Config) (slab : Slab) : bool :=
  in_list (mi_string slab) (keys cfg).

(** What one slab contributes. *)
Definition tasks_of (cfg : Config) (structs : Slab -> Molecule -> list Structure)
    (slab : Slab) : nat :=
  if matching cfg slab then S (placements cfg structs slab) else 0%nat.

Definition expansion_size (cfg : Config)
    (structs : Slab -> Molecule -> list Structure) (slabs : list Slab) : nat :=
  list_sum (map (tasks_of cfg structs) slabs).

(** The namespace binds a site finder whose adsorption structures for a
    slab and a molecule are [structs slab mol]. *)
Definition generates (G : Namespace)
    (structs : Slab -> Molecule -> list Structure) : Prop :=
  forall ASF slab asf mol n n' k k' l,
    g_AdsorbateSiteFinder G = Some ASF ->
    ASF slab true n = (Ok asf, n') ->
    generate_adsorption_structures asf mol k = (Ok l, k') ->
    l = structs slab mol.

(** * Definitions used by the further properties *)

(** ** Line 120: the largest index of the configuration *)

(** What [int] raises on the character [c]. *)
Definition int_error (c : ascii) : exn :=
  ValueError ("invalid literal for int() with base 10: " ++ repr_char c).

(** [c] is an ASCII character. *)
Definition is_ascii (c : ascii) : bool := (nat_of_ascii c <? 128)%nat.

(** What [max] raises on an empty list. *)
Definition max_error : exn := ValueError "max() arg is an empty sequence".

(** The value of [max([int(i) for i in ''.join(adsorption_config.keys())])]. *)
Definition max_index_of (cfg : Config) : result Z :=
  match map_result int_of_char (list_ascii_of_string (join (keys cfg))) with
  | Ok digits => py_max digits
  | Raise e => Raise e
  end.

(** The firework of lines 117-118. *)
Definition root_of (structure : Structure) (vis : option VaspInputSet)
    (cmd : string) (dbf : option string) : Firework :=
  OptimizeFW structure
    (match vis with
     | Some v => v
     | None => MVLSlabSet structure true None
     end) cmd dbf [].

(** All miller indices of the slab are single decimal digits. *)
Definition single_digits (slab : Slab) : Prop :=
  Forall (fun i => 0 <= i <= 9) (miller_index slab).

Definition slab_of (mi : list Z) : Slab :=
  {| slab_structure := Si; miller_index := mi; slab_shift := 0 |}.

(** ** The fireworks of the expansion *)

(** [emits H Q m]: when [m] returns from a state whose [fws] satisfies
    [H], it has appended to [fws] a list that satisfies [Q], and has left
    alone what was there. *)
Definition emits {A} (H Q : list Firework -> Prop) (m : M A) : Prop :=
  forall s a s', H (fws s) -> m s = (Ok a, s') ->
    exists new, fws s' = (fws s ++ new)%list /\ Q new.

Definition starts_with (root : Firework) (l : list Firework) : Prop :=
  exists rest, l = root :: rest.

(** The firework of lines 137-145 and of lines 160-168, for the slab
    transformation [t] and the input parameters [params]. *)
Definition transmuter (structure : Structure) (cmd : string)
    (dbf : option string) (root : Firework) (t : Transformation)
    (params : pydict pylit) : Firework :=
  TransmuterFW "slab calculation" structure [t] true dbf cmd [root]
    "MVLSlabSet" params.

(** [t] is what line 135 builds for the slab. *)
Definition slab_transformation (G : Namespace) (min_slab min_vac : Q)
    (slab : Slab) (t : Transformation) : Prop :=
  exists ST sh kw,
    g_SlabTransformation G = Some ST /\ g_shift G = Some sh
    /\ g_slag_gen_config G = Some kw
    /\ ST (miller_index slab) min_slab min_vac sh kw = Ok t.

(** [l] is a list of adsorption structures the site finder of the
    namespace returns for the slab and the molecule. *)
Definition may_generate (G : Namespace) (slab : Slab) (mol : Molecule)
    (l : list Structure) : Prop :=
  exists ASF asf n n' k k',
    g_AdsorbateSiteFinder G = Some ASF
    /\ ASF slab true n = (Ok asf, n')
    /\ generate_adsorption_structures asf mol k = (Ok l, k').

(** The molecules configured for the key of the slab. *)
Definition molecules_of (cfg : Config) (slab : Slab) : list Molecule :=
  default [] (dict_get cfg (mi_string slab)).

(** The adsorption structures of a slab: those of each molecule
    configured for its key, in order. *)
Definition adsorption_structures (cfg : Config)
    (structs : Slab -> Molecule -> list Structure) (slab : Slab)
  : list Structure :=
  flat_map (structs slab) (molecules_of cfg slab).

(** The firework of lines 160-168 for an adsorption structure: the
    structure itself does not occur in it. *)
Definition adsorbate_firework (G : Namespace) (structure : Structure)
    (cmd : string) (dbf : option string) (root : Firework)
    (t : Transformation) (struct : Structure) (fw : Firework) : Prop :=
  exists aip, g_ads_input_params G = Some aip
              /\ fw = transmuter structure cmd dbf root t aip.

(** What lines 132-168 append for a slab, [structures] being the
    adsorption structures generated for its molecules, in order: the
    firework of the slab, then one firework per adsorption structure. *)
Definition slab_block_of (G : Namespace) (structure : Structure)
    (min_slab min_vac : Q) (cmd : string) (dbf : option string)
    (root : Firework) (acfg : Config) (slab : Slab)
    (structures : list Structure) (new : list Firework) : Prop :=
  if matching acfg slab then
    exists t sip ads,
      new = transmuter structure cmd dbf root t sip :: ads
      /\ slab_transformation G min_slab min_vac slab t
      /\ g_slab_input_params G = Some sip
      /\ Forall2 (adsorbate_firework G structure cmd dbf root t)
           structures ads
  else new = [].

Definition slab_block_gen (G : Namespace) (structure : Structure)
    (min_slab min_vac : Q) (cmd : string) (dbf : option string)
    (root : Firework) (acfg : Config) (slab : Slab)
    (new : list Firework) : Prop :=
  exists lists,
    (matching acfg slab = true ->
     Forall2 (may_generate G slab) (molecules_of acfg slab) lists)
    /\ slab_block_of G structure min_slab min_vac cmd dbf root acfg slab
         (concat lists) new.

(** The same where the adsorption structures of a slab and a molecule
    are [structs slab mol]. *)
Definition slab_block (G : Namespace) (structure : Structure)
    (min_slab min_vac : Q) (cmd : string) (dbf : option string)
    (root : Firework) (acfg : Config)
    (structs : Slab -> Molecule -> list Structure) (slab : Slab)
    (new : list Firework) : Prop :=
  slab_block_of G structure min_slab min_vac cmd dbf root acfg slab
    (adsorption_structures acfg structs slab) new.

(** The slabs line 121 obtains in a call from the state [s]. *)
Definition generated_slabs (G : Namespace) (cfg : Config)
    (min_slab min_vac : Q) (mns : Z) (center : bool) (s : State)
    (slabs : list Slab) : Prop :=
  exists gen os m n,
    g_generate_decorated_slabs G = Some gen /\ g_opt_struct G = Some os
    /\ max_index_of cfg = Ok m
    /\ gen os {| arg_max_index := Some m;
                 arg_min_slab_size := Some min_slab;
                 arg_min_vacuum_size := Some min_vac;
                 arg_max_normal_search := Some mns;
                 arg_center_slab := Some center |} (ext s) = (Ok slabs, n).

(** The firework of lines 205-206 for an adsorption structure. *)
Definition adsorbate_optimization (G : Namespace) (vis : VaspInputSet)
    (struct : Structure) (fw : Firework) : Prop :=
  exists cmd dbf, g_vasp_cmd G = Some cmd /\ g_db_file G = Some dbf
                  /\ fw = OptimizeFW struct vis cmd dbf [].

(** What lines 194-206 append for a slab: the optimization of the slab,
    then one optimization per adsorption structure. *)
Definition add_block_of (G : Namespace) (acfg : Config) (slab : Slab)
    (structures : list Structure) (new : list Firework) : Prop :=
  if matching acfg slab then
    exists uis ads,
      g_user_incar_settings G = Some uis
      /\ new = OptimizeFW (slab_structure slab)
                 (MVLSlabSet (slab_structure slab) false (Some uis))
                 "vasp" None [] :: ads
      /\ Forall2 (adsorbate_optimization G
                    (MVLSlabSet (slab_structure slab) false (Some uis)))
           structures ads
  else new = [].

Definition add_block_gen (G : Namespace) (acfg : Config) (slab : Slab)
    (new : list Firework) : Prop :=
  exists lists,
    (matching acfg slab = true ->
     Forall2 (may_generate G slab) (molecules_of acfg slab) lists)
    /\ add_block_of G acfg slab (concat lists) new.

Definition add_block (G : Namespace) (acfg : Config)
    (structs : Slab -> Molecule -> list Structure) (slab : Slab)
    (new : list Firework) : Prop :=
  add_block_of G acfg slab (adsorption_structures acfg structs slab) new.

(** ** What is logged *)

(** [quiet m]: [m] gives nothing to the logger. *)
Definition quiet {A} (m : M A) : Prop := forall s, log (snd (m s)) = log s.

(** The slabs line 191 obtains: the generator is called with the
    structure alone. *)
Definition default_slabs (G : Namespace) (slabs : list Slab) : Prop :=
  exists gen os n n',
    g_generate_decorated_slabs G = Some gen
    /\ gen os {| arg_max_index := None; arg_min_slab_size := None;
                 arg_min_vacuum_size := None; arg_max_normal_search := None;
                 arg_center_slab := None |} n = (Ok slabs, n').

(** Lines 210-212: what is returned for the list [l] the loop has
    built. *)
Definition returned_additions (G : Namespace) (l : list Firework)
    (act : FWAction) : Prop :=
  exists iu, g_incar_update G = Some iu
    /\ if truthy iu then
         exists ami, g_add_modify_incar G = Some ami
                     /\ ami l iu = Ok (additions act)
       else additions act = l.

(** A task that carries the spec [sp] as its attribute [spec]. *)
Definition task_with_spec (sp : Spec) : Task :=
  {| param_adsorption_config := None; param_structure := None;
     param_db_file := None; task_attrs := [("spec", sp)] |}.

(** A site of the slab carries no [surface_properties]. *)
Definition undecorated (slab : Slab) : Prop :=
  exists site, In site (sites (slab_structure slab))
               /\ dict_get (site_properties site) "surface_properties" = None.

(** What the body of [AddAdsorptionTasks.run_task] adds in
    [bound_namespace]. *)
Definition bound_additions : list Firework :=
  let vis := MVLSlabSet (slab_structure slab_111) false (Some []) in
  [OptimizeFW (slab_structure slab_111) vis "vasp" None [];
   OptimizeFW (placement "CO-top") vis "vasp" None [];
   OptimizeFW (placement "CO-bridge") vis "vasp" None []].

(** A configuration with a key for either slab of [bound_namespace], the
    adsorption structures its site finder returns, and a task that
    carries the configuration, with the spec of the root attached. *)
Definition both_slabs_config : Config := [("111", [CO]); ("100", [CO])].

Definition two_placements (slab : Slab) (mol : Molecule) : list Structure :=
  [placement "CO-top"; placement "CO-bridge"].

Definition add_task_both_slabs : Task :=
  {| param_adsorption_config := Some both_slabs_config;
     param_structure := None; param_db_file := None;
     task_attrs := [("spec", root_spec)] |}.

(** The line of the log for the directory [path]. *)
Definition parsing_message (path : string) : string :=
  "PARSING INITIAL OPTIMIZATION DIRECTORY: " ++ path.

(** A slab one site of which was not decorated. *)
Definition bare_slab : Slab :=
  {| slab_structure :=
       {| reduced_formula := "Si";
          sites := [surface_site;
                    {| species_string := "Si"; frac_coords := [0; 0; 0]%Q;
                       site_properties := [] |}] |};
     miller_index := [1; 1; 1]; slab_shift := 0 |}.

(** A namespace that supplies the slab generator and [opt_struct] and
    configures no adsorbate. *)
Definition no_adsorbate_namespace : Namespace := {|
  g_generate_decorated_slabs :=
    Some (fun _ _ n => (Ok [slab_111; slab_100], S n));
  g_opt_struct := Some Si;
  g_adsorbate_config := Some [];
  g_SlabTransformation := None;
  g_shift := None;
  g_slag_gen_config := None;
  g_slab_input_params := None;
  g_AdsorbateSiteFinder := None;
  g_InsertSitesTransformation := None;
  g_ads_input_params := None;
  g_user_incar_settings := None;
  g_vasp_cmd := None;
  g_db_file := None;
  g_incar_update := None;
  g_add_modify_incar := None
|}.

(** * The scheduler of the specification

    The module builds workflows; the scheduler that runs them, and with
    it the aggregation task, is described by the specification only.
    The model keeps to sections 3, 4 and 7 of the specification.  Nodes
    may be dispatched in any order, which covers every concurrency
    limit; cancellation is not modelled.

    The specification words the readiness of the aggregation task in
    section 4.3 (the root and all known descendants are Completed) and
    leaves open, in section 9, whether a failed branch blocks the
    aggregation or a partially failed aggregate is allowed, adopting the
    latter (the status PartiallyFailed of section 7).  The model takes the
    choice as a parameter, [allow_partial], and the properties are
    proved for either value. *)

Module Scheduler.

(** Modelled from the spec: the lifecycle states of a TaskNode (section
    3) of the scheduler, which is missing from the sources. *)
Inductive status : Type := Pending | Ready | Running | Completed | Failed.

(** Modelled from the spec: the two outcome shapes of a TaskAction
    (section 4.2). *)
Inductive kind : Type := Terminal | Expanding.

(** Modelled from the spec: the TaskNode of section 3; the scheduler is
    missing from the sources.  The key of the node in the graph is its
    [id]; [action] keeps the shape of the outcome of the TaskAction. *)
Record TaskNode : Type := {
  action : kind;
  dependencies : list nat;
  state : status;
  spawned_by : option nat
}.

(** Modelled from the spec: a node of a delta, with its id, its action
    and its dependency edges. *)
Record NewNode : Type := {
  new_id : nat;
  new_action : kind;
  new_deps : list nat
}.

(** Modelled from the spec: the WorkflowGraph, a mapping from ids to
    TaskNodes, and the write-once ResultStore of one run. *)
Record Run : Type := {
  graph : gmap nat TaskNode;
  store : gmap nat nat
}.

(** Modelled from the spec: the errors of section 7 a step can end in;
    [NotSchedulable] is an event the lifecycle does not allow. *)
Inductive error : Type :=
| CycleDetected
| UnknownDependency
| NodeIdCollision
| DuplicateWrite
| NotFound
| NotSchedulable.

Inductive outcome (A : Type) : Type :=
| Done (a : A)
| Err (e : error).
Arguments Done {A} a.
Arguments Err {A} e.

(** Modelled from the spec: what the scheduler reacts to (section 4.2):
    a ready node gets an execution slot; a running node returns its
    payload, with a delta when it is expanding; a running node fails. *)
Inductive event : Type :=
| Dispatch (x : nat)
| CompleteTerminal (x : nat) (payload : nat)
| CompleteExpanding (x : nat) (payload : nat) (delta : list NewNode)
| Fail (x : nat).

Definition with_state (st : status) (n : TaskNode) : TaskNode :=
  {| action := action n; dependencies := dependencies n; state := st;
     spawned_by := spawned_by n |}.

Definition status_eqb (a b : status) : bool :=
  match a, b with
  | Pending, Pending | Ready, Ready | Running, Running
  | Completed, Completed | Failed, Failed => true
  | _, _ => false
  end.

Definition has_state (st : status) (g : gmap nat TaskNode) (x : nat) : bool :=
  match g !! x with
  | Some n => status_eqb (state n) st
  | None => false
  end.

Definition deps_completed (g : gmap nat TaskNode) (n : TaskNode) : bool :=
  forallb (has_state Completed g) (dependencies n).

Definition mem (x : nat) (l : list nat) : bool := existsb (Nat.eqb x) l.

Section Ids.

(** Modelled from the spec: the open question of section 9.  With
    [false] a failed branch blocks the aggregation, as section 4.3 words
    the predicate; with [true] the aggregation runs once every branch
    has completed or failed, the PartiallyFailed outcome of section 7,
    which section 9 adopts. *)
Variable allow_partial : bool.

(** The designated root and the aggregation task. *)
Variables root agg : nat.

(** Modelled from the spec: the re-evaluation of readiness of section
    4.1.  A selected [Pending] node all of whose dependencies are
    [Completed] becomes [Ready]; the aggregation task is left to its own
    predicate (section 4.3). *)
Definition promote (sel : nat -> TaskNode -> bool) (g : gmap nat TaskNode)
  : gmap nat TaskNode :=
  map_imap (fun x n =>
    Some (if sel x n && negb (Nat.eqb x agg)
             && status_eqb (state n) Pending && deps_completed g n
          then with_state Ready n else n)) g.

(** Modelled from the spec: [x] declares itself spawned, transitively,
    by the root (section 4.3, condition (b)). *)
Fixpoint spawned_under (fuel : nat) (g : gmap nat TaskNode) (x : nat) : bool :=
  Nat.eqb x root ||
  match fuel with
  | O => false
  | S f =>
      match g !! x with
      | Some n => match spawned_by n with
                  | Some p => spawned_under f g p
                  | None => false
                  end
      | None => false
      end
  end.

(** Modelled from the spec: [descendants_of], the transitive closure
    over [spawned_by] and the dependency edges (section 4.1). *)
Fixpoint is_descendant (fuel : nat) (g : gmap nat TaskNode) (x : nat) : bool :=
  Nat.eqb x root ||
  match fuel with
  | O => false
  | S f =>
      match g !! x with
      | Some n =>
          match spawned_by n with
          | Some p => is_descendant f g p
          | None => false
          end
          || existsb (is_descendant f g) (dependencies n)
      | None => false
      end
  end.

Definition descendants_of (g : gmap nat TaskNode) : list nat :=
  List.filter (is_descendant (size g) g) (map fst (map_to_list g)).

(** Modelled from the spec: a node the aggregation need not wait for
    any longer: it is [Completed], or it has [Failed] and a partially
    failed aggregate is allowed (sections 7 and 9). *)
Definition settled (st : status) : bool :=
  status_eqb st Completed || (allow_partial && status_eqb st Failed).

Definition settled_at (g : gmap nat TaskNode) (x : nat) : bool :=
  match g !! x with
  | Some n => settled (state n)
  | None => false
  end.

(** Modelled from the spec: the frontier-closed predicate of section
    4.3.  (a) the root, on which the aggregation task depends, is
    [Completed], and every node known to be a descendant of the root,
    the waiting aggregation task apart, is [Completed] (or has failed,
    where a partially failed aggregate is allowed); (b) no [Pending] or
    [Running] node is spawned, transitively, by the root. *)
Definition frontier_closed (g : gmap nat TaskNode) : bool :=
  has_state Completed g root
  && forallb (fun x => Nat.eqb x agg || settled_at g x) (descendants_of g)
  && forallb (fun xn =>
       negb ((status_eqb (state (snd xn)) Pending
              || status_eqb (state (snd xn)) Running)
             && spawned_under (size g) g (fst xn)))
       (map_to_list g).

(** Modelled from the spec: the aggregation task becomes [Ready] when
    it is [Pending] and the frontier is closed (section 4.3). *)
Definition agg_check (g : gmap nat TaskNode) : gmap nat TaskNode :=
  match g !! agg with
  | Some n =>
      if status_eqb (state n) Pending && frontier_closed g
      then <[agg := with_state Ready n]> g
      else g
  | None => g
  end.

(** Modelled from the spec: the cycle check of [insert_delta].  Edges
    go from new nodes only, so a cycle lies within the delta; a round of
    Kahn's algorithm removes the nodes none of whose dependencies is
    still waiting. *)
Fixpoint acyclic (fuel : nat) (waiting : list NewNode) : bool :=
  match waiting with
  | [] => true
  | _ =>
      match fuel with
      | O => false
      | S f =>
          let blocked :=
            List.filter (fun b => existsb (fun d => mem d (map new_id waiting))
                                    (new_deps b)) waiting in
          if Nat.eqb (length blocked) (length waiting) then false
          else acyclic f blocked
      end
  end.

Fixpoint distinct (l : list nat) : bool :=
  match l with
  | [] => true
  | x :: l' => negb (mem x l') && distinct l'
  end.

Definition add_node (origin : nat) (b : NewNode) (g : gmap nat TaskNode)
  : gmap nat TaskNode :=
  <[new_id b := {| action := new_action b; dependencies := new_deps b;
                   state := Pending; spawned_by := Some origin |}]> g.

(** Modelled from the spec: [insert_delta] of section 4.1. *)
Definition insert_delta (origin : nat) (delta : list NewNode)
    (g : gmap nat TaskNode) : outcome (gmap nat TaskNode) :=
  let ids := map new_id delta in
  if existsb (fun x => bool_decide (is_Some (g !! x))) ids || negb (distinct ids)
  then Err NodeIdCollision
  else if existsb (fun b =>
            existsb (fun d => negb (bool_decide (is_Some (g !! d)) || mem d ids))
              (new_deps b)) delta
  then Err UnknownDependency
  else if negb (acyclic (length delta) delta) then Err CycleDetected
  else Done (promote (fun x _ => mem x ids) (foldr (add_node origin) g delta)).

(** Modelled from the spec: [mark_completed] of section 4.1 with the
    write-once [put] of section 4.4. *)
Definition mark_completed (x payload : nat) (r : Run) : outcome Run :=
  match store r !! x with
  | Some _ => Err DuplicateWrite
  | None =>
      match graph r !! x with
      | Some n =>
          if status_eqb (state n) Running then
            Done {| graph := promote (fun _ m => mem x (dependencies m))
                               (<[x := with_state Completed n]> (graph r));
                    store := <[x := payload]> (store r) |}
          else Err NotSchedulable
      | None => Err NotFound
      end
  end.

(** Modelled from the spec: the propagation of a failure to the direct
    and transitive dependents (section 7), which never run. *)
Definition fail_round (g : gmap nat TaskNode) : gmap nat TaskNode :=
  map_imap (fun _ n =>
    Some (if (status_eqb (state n) Pending || status_eqb (state n) Ready)
             && existsb (has_state Failed g) (dependencies n)
          then with_state Failed n else n)) g.

Definition propagate_failure (g : gmap nat TaskNode) : gmap nat TaskNode :=
  Nat.iter (size g) fail_round g.

Definition with_graph (g : gmap nat TaskNode) (r : Run) : Run :=
  {| graph := g; store := store r |}.

(** Modelled from the spec: a step of the scheduler of section 4.2.  An
    expanding node has its delta inserted before it is marked completed,
    and the readiness of the aggregation task is re-evaluated whenever a
    node has completed or failed. *)
Definition step (r : Run) (e : event) : outcome Run :=
  match e with
  | Dispatch x =>
      match graph r !! x with
      | Some n =>
          if status_eqb (state n) Ready
          then Done (with_graph (<[x := with_state Running n]> (graph r)) r)
          else Err NotSchedulable
      | None => Err NotFound
      end
  | CompleteTerminal x payload =>
      match graph r !! x with
      | Some n =>
          match action n with
          | Terminal =>
              match mark_completed x payload r with
              | Done r' => Done (with_graph (agg_check (graph r')) r')
              | Err e => Err e
              end
          | Expanding => Err NotSchedulable
          end
      | None => Err NotFound
      end
  | CompleteExpanding x payload delta =>
      match graph r !! x with
      | Some n =>
          match action n, state n with
          | Expanding, Running =>
              match insert_delta x delta (graph r) with
              | Done g1 =>
                  match mark_completed x payload (with_graph g1 r) with
                  | Done r' => Done (with_graph (agg_check (graph r')) r')
                  | Err e => Err e
                  end
              | Err e => Err e
              end
          | _, _ => Err NotSchedulable
          end
      | None => Err NotFound
      end
  | Fail x =>
      match graph r !! x with
      | Some n =>
          if status_eqb (state n) Running
          then Done (with_graph
                       (agg_check
                          (propagate_failure
                             (<[x := with_state Failed n]> (graph r))))
                       r)
          else Err NotSchedulable
      | None => Err NotFound
      end
  end.

Fixpoint run (r : Run) (events : list event) : outcome Run :=
  match events with
  | [] => Done r
  | e :: es =>
      match step r e with
      | Done r' => run r' es
      | Err err => Err err
      end
  end.

(** The number of steps of a run after which the aggregation task is
    [Ready] and before which it was not. *)
Fixpoint ready_transitions (r : Run) (events : list event) : nat :=
  match events with
  | [] => O
  | e :: es =>
      match step r e with
      | Done r' =>
          ((if negb (has_state Ready (graph r) agg)
               && has_state Ready (graph r') agg then 1 else 0)
           + ready_transitions r' es)%nat
      | Err _ => O
      end
  end.

(** Modelled from the spec: the graph at submission, one root and the
    aggregation task that depends on it. *)
Definition init (root_action : kind) : Run :=
  {| graph := <[agg := {| action := Terminal; dependencies := [root];
                          state := Pending; spawned_by := None |}]>
              (<[root := {| action := root_action; dependencies := [];
                            state := Ready; spawned_by := None |}]> ∅);
     store := ∅ |}.

(** Every node but the aggregation task is [Completed]. *)
Definition all_others_completed (g : gmap nat TaskNode) : Prop :=
  forall x n, g !! x = Some n -> x <> agg -> state n = Completed.

(** Every node but the aggregation task is settled. *)
Definition all_others_settled (g : gmap nat TaskNode) : Prop :=
  forall x n, g !! x = Some n -> x <> agg -> settled (state n) = true.

(** The run has nothing left to do but the aggregation: the root is
    [Completed] and every other node but the aggregation task is
    settled. *)
Definition finished (g : gmap nat TaskNode) : bool :=
  has_state Completed g root
  && forallb (fun xn => Nat.eqb (fst xn) agg || settled (state (snd xn)))
       (map_to_list g).

(** No node has failed. *)
Definition none_failed (g : gmap nat TaskNode) : bool :=
  forallb (fun xn => negb (status_eqb (state (snd xn)) Failed))
    (map_to_list g).

(** The aggregation task is [Ready] or has been. *)
Definition agg_released (g : gmap nat TaskNode) : bool :=
  has_state Ready g agg || has_state Running g agg
  || has_state Completed g agg.

(** ** Invariants of the scheduler *)

(** Every node but the aggregation task hangs under the root by a chain
    of [spawned_by] shorter than the graph. *)
Definition chained (g : gmap nat TaskNode) : Prop :=
  forall x n, g !! x = Some n -> x <> agg ->
    exists k, (k + 2 <= size g)%nat /\ spawned_under k g x = true.

Definition shaped (g : gmap nat TaskNode) : Prop :=
  is_Some (g !! root)
  /\ (exists na, g !! agg = Some na /\ action na = Terminal
                 /\ spawned_by na = None /\ dependencies na = [root])
  /\ chained g.

Definition wf (g : gmap nat TaskNode) : Prop :=
  shaped g
  /\ (agg_released g = true -> finished g = true)
  /\ (finished g = true -> has_state Pending g agg = false).

(** Nothing is left to do but the aggregation itself. *)
Definition frozen (g : gmap nat TaskNode) : Prop :=
  all_others_settled g /\ has_state Pending g agg = false.

(** The moves of the state of the aggregation task in one step. *)
Definition agg_moves (a a' : status) : Prop :=
  a' = a
  \/ (a = Pending /\ a' = Ready)
  \/ (a = Ready /\ a' = Running)
  \/ (a = Running /\ a' = Completed)
  \/ ((a = Pending \/ a = Ready \/ a = Running) /\ a' = Failed).

(** A node that has completed or failed stays as it is. *)
Definition lasting (g g' : gmap nat TaskNode) : Prop :=
  forall x n, g !! x = Some n ->
    state n = Completed \/ state n = Failed -> g' !! x = Some n.

(** What a step does to the aggregation task: when it becomes [Ready]
    the run is finished, and when it fails without having been [Ready]
    the root has failed. *)
Definition agg_step (g g' : gmap nat TaskNode) : Prop :=
  exists na na', g !! agg = Some na /\ g' !! agg = Some na'
    /\ agg_moves (state na) (state na')
    /\ (state na = Pending -> state na' = Ready -> finished g' = true)
    /\ (state na = Pending -> state na' = Failed ->
        has_state Failed g' root = true).

(** What one step of the scheduler does to the graph. *)
Definition summary (g g' : gmap nat TaskNode) : Prop :=
  shaped g'
  /\ agg_step g g'
  /\ (frozen g -> frozen g' /\ dom g' = dom g)
  /\ (finished g' = true -> has_state Pending g' agg = false)
  /\ lasting g g'.

End Ids.

(** [g'] has the nodes of [g], in states of its own. *)
Definition restated (g g' : gmap nat TaskNode) : Prop :=
  forall x, match g !! x with
            | Some n => exists st, g' !! x = Some (with_state st n)
            | None => g' !! x = None
            end.

(** None of [ids] is a node of [g]. *)
Definition fresh (g : gmap nat TaskNode) (ids : list nat) : Prop :=
  forall i, In i ids -> g !! i = None.

(** ** The end-to-end scenario of the specification

    The root, node 0, expands into three slab nodes; each slab node
    expands into two adsorbate nodes; node 1 is the aggregation task. *)

Definition node (i : nat) (k : kind) (deps : list nat) : NewNode :=
  {| new_id := i; new_action := k; new_deps := deps |}.

Definition scenario : list event :=
  [Dispatch 0;
   CompleteExpanding 0 100
     [node 2 Expanding [0%nat]; node 3 Expanding [0%nat];
      node 4 Expanding [0%nat]];
   Dispatch 2; Dispatch 3; Dispatch 4;
   CompleteExpanding 3 103 [node 7 Terminal [3%nat]; node 8 Terminal [3%nat]];
   CompleteExpanding 2 102 [node 5 Terminal [2%nat]; node 6 Terminal [2%nat]];
   Dispatch 5; Dispatch 8; CompleteTerminal 8 108;
   CompleteExpanding 4 104 [node 9 Terminal [4%nat]; node 10 Terminal [4%nat]];
   Dispatch 6; Dispatch 7; Dispatch 9; Dispatch 10;
   CompleteTerminal 5 105; CompleteTerminal 10 110; CompleteTerminal 6 106;
   CompleteTerminal 7 107; CompleteTerminal 9 109;
   Dispatch 1; CompleteTerminal 1 1000].

(** The run of the scenario, and the same run up to the completion of
    the last adsorbate node. *)
Definition scenario_final : Run :=
  match run false 0 1 (init 0 1 Expanding) scenario with
  | Done r => r
  | Err _ => init 0 1 Expanding
  end.

Definition scenario_released : Run :=
  match run false 0 1 (init 0 1 Expanding) (firstn 20 scenario) with
  | Done r => r
  | Err _ => init 0 1 Expanding
  end.

(** A run with a branch that fails: the root expands into the nodes 2
    and 3, node 2 fails and node 3 completes. *)
Definition failing_scenario : list event :=
  [Dispatch 0;
   CompleteExpanding 0 100 [node 2 Terminal [0%nat]; node 3 Terminal [0%nat]];
   Dispatch 2; Dispatch 3; Fail 2; CompleteTerminal 3 103].

End Scheduler.

(** * Properties *)

(** ** Reasoning about the monad *)

Lemma bind_Ok_inv {A B} (m : M A) (k : A -> M B) s b s' :
  bind m k s = (Ok b, s') ->
  exists a s1, m s = (Ok a, s1) /\ k a s1 = (Ok b, s').
Proof.
  unfold bind. destruct (m s) as [[a|e] s1]; intros H.
  - exists a, s1. split; [reflexivity | exact H].
  - discriminate H.
Qed.

Lemma global_Ok_inv {A} name (b : option A) s a s' :
  global name b s = (Ok a, s') -> b = Some a /\ s' = s.
Proof.
  destruct b as [x|]; cbn; intros H; inversion H; subst; auto.
Qed.

Lemma lift_Ok_inv {A} (r : result A) s a s' :
  lift r s = (Ok a, s') -> r = Ok a /\ s' = s.
Proof. unfold lift. intros H. inversion H; subst; auto. Qed.

Lemma ext_call_Ok_inv {A} (c : ExtCall A) s a s' :
  ext_call c s = (Ok a, s') ->
  exists n, c (ext s) = (Ok a, n) /\ s' = set_ext n s.
Proof.
  unfold ext_call. destruct (c (ext s)) as [r n]. intros H.
  inversion H; subst. eauto.
Qed.

(** Takes a hypothesis [bind m k s = (Ok _, _)] apart, one step. *)
Ltac inv_bind H :=
  let a := fresh "a" in
  let s1 := fresh "s" in
  let H1 := fresh "Hstep" in
  apply bind_Ok_inv in H; destruct H as (a & s1 & H1 & H).

(** ** The slab-generation step of [get_wf_adsorption] *)

Lemma map_result_digits (l : list ascii) :
  forallb is_digit l = true ->
  exists ds, map_result int_of_char l = Ok ds /\ length ds = length l.
Proof.
  induction l as [|c l IH]; intros H.
  - exists []. split; reflexivity.
  - cbn [forallb] in H. apply andb_prop in H as [Hc Hl].
    destruct (IH Hl) as (ds & Hds & Hlen).
    change (map_result int_of_char (c :: l))
      with (match int_of_char c with
            | Raise e => Raise e
            | Ok y => match map_result int_of_char l with
                      | Raise e => Raise e
                      | Ok ys => Ok (y :: ys)
                      end
            end).
    rewrite Hds. unfold int_of_char. unfold is_digit in Hc.
    cbv zeta in Hc |- *. rewrite Hc.
    eexists. split; [reflexivity | cbn; now rewrite Hlen].
Qed.

Lemma py_max_cons (x : Z) (l : list Z) : exists m, py_max (x :: l) = Ok m.
Proof. eexists. reflexivity. Qed.

(** Lines 115-120 succeed on keys that spell a number. *)
Lemma max_index_ok (cfg : Config) :
  digit_string (join (keys cfg)) = true ->
  exists ds m,
    map_result int_of_char (list_ascii_of_string (join (keys cfg))) = Ok ds
    /\ py_max ds = Ok m.
Proof.
  unfold digit_string. intros H.
  destruct (list_ascii_of_string (join (keys cfg))) as [|c l] eqn:E;
    [discriminate H|].
  destruct (map_result_digits (c :: l) H) as (ds & Hds & Hlen).
  destruct ds as [|d ds]; [discriminate Hlen|].
  destruct (py_max_cons d ds) as (m & Hm).
  exists (d :: ds), m. split; assumption.
Qed.

(** C8, counterexample: the key of the orientation (1,-1,0), "1-10",
    makes [int] raise [ValueError] on line 120, one line before the slab
    generation is reached. *)
Lemma C8_counterexample_negative_index :
  ~ C8_as_stated [("1-10", [CO])].
Proof.
  unfold C8_as_stated, raises_NameError. intros H.
  destruct H as (name & Hn); [discriminate|].
  vm_compute in Hn. discriminate Hn.
Qed.

(** C8 (amended): [get_wf_adsorption] never binds [opt_struct], so in a
    namespace that does not bind it either, every call whose
    configuration keys spell a number raises [NameError] at the
    slab-generation step: for the callee [generate_decorated_slabs] when
    that is unbound, as in the module, and for [opt_struct] otherwise.
    No workflow is returned and [fws] holds the root optimization
    firework alone. *)
Theorem C8_slab_generation_raises_NameError
    (G : Namespace) (structure : Structure) (cfg : Config)
    (vis : option VaspInputSet) (min_slab min_vac : Q) (mns : Z)
    (center : bool) (cmd : string) (dbf : option string) (s : State) :
  g_opt_struct G = None ->
  digit_string (join (keys cfg)) = true ->
  get_wf_adsorption G structure cfg vis min_slab min_vac mns center cmd dbf s
  = (Raise (NameError (match g_generate_decorated_slabs G with
                       | None => "generate_decorated_slabs"
                       | Some _ => "opt_struct"
                       end)),
     set_fws [OptimizeFW structure
                (match vis with
                 | Some v => v
                 | None => MVLSlabSet structure true None
                 end) cmd dbf []] s).
Proof.
  intros Hopt Hdig.
  destruct (max_index_ok cfg Hdig) as (ds & m & Hds & Hm).
  unfold get_wf_adsorption.
  cbv beta iota delta [bind fws_append lift].
  rewrite Hds, Hm. unfold set_fws at 1 2; cbn [fws ext log files db app].
  destruct (g_generate_decorated_slabs G) as [gen|].
  - rewrite Hopt. reflexivity.
  - reflexivity.
Qed.

(** The call of the [__main__] block, with the key "111". *)
Lemma C8_witness_main_block :
  get_wf_adsorption module_namespace Si [("111", [CO])] None 7 12 1 true
    "vasp" None s0
  = (Raise (NameError "generate_decorated_slabs"),
     set_fws [OptimizeFW Si (MVLSlabSet Si true None) "vasp" None []] s0).
Proof.
  apply (C8_slab_generation_raises_NameError module_namespace Si
           [("111", [CO])] None 7 12 1 true "vasp" None s0);
    reflexivity.
Defined.

(** ** Invariants of the list [fws] *)

Section Keeps.

Variable P : list Firework -> Prop.

Lemma keeps_ret {A} (a : A) : keeps P (ret a).
Proof. intros s x s' HP H. inversion H; subst. exact HP. Qed.

Lemma keeps_raise {A} (e : exn) : keeps P (@raise A e).
Proof. intros s x s' HP H. discriminate H. Qed.

Lemma keeps_lift {A} (r : result A) : keeps P (lift r).
Proof. intros s x s' HP H. apply lift_Ok_inv in H as [_ ->]. exact HP. Qed.

Lemma keeps_global {A} name (b : option A) : keeps P (global name b).
Proof. intros s x s' HP H. apply global_Ok_inv in H as [_ ->]. exact HP. Qed.

Lemma keeps_ext_call {A} (c : ExtCall A) : keeps P (ext_call c).
Proof.
  intros s x s' HP H. apply ext_call_Ok_inv in H as (n & _ & ->). exact HP.
Qed.

Lemma keeps_bind {A B} (m : M A) (k : A -> M B) :
  keeps P m -> (forall a, keeps P (k a)) -> keeps P (bind m k).
Proof.
  intros Hm Hk s b s' HP H. inv_bind H.
  eapply Hk; [|exact H]. eapply Hm; [exact HP | exact Hstep].
Qed.

Lemma keeps_for_each {A} (l : list A) (body : A -> M unit) :
  (forall x, keeps P (body x)) -> keeps P (for_each l body).
Proof.
  intros Hbody. induction l as [|x l IH]; cbn [for_each].
  - apply keeps_ret.
  - apply keeps_bind; [apply Hbody | intros _; exact IH].
Qed.

End Keeps.

Lemma keeps_rooted_first {A} root (k : Firework -> M A) :
  keeps (rooted root) (k root) ->
  keeps (rooted root) (bind fws_first k).
Proof.
  intros Hk s a s' HP H. inv_bind H.
  unfold fws_first in Hstep. destruct HP as (rest & E & HF).
  rewrite E in Hstep. inversion Hstep; subst.
  eapply Hk; [|exact H]. exists rest. split; assumption.
Qed.

Lemma keeps_rooted_append root fw :
  derived_from root fw -> keeps (rooted root) (fws_append fw).
Proof.
  intros Hfw s a s' (rest & E & HF) H.
  unfold fws_append in H. inversion H; subst. cbn [fws set_fws].
  exists (rest ++ [fw])%list. split.
  - rewrite E. reflexivity.
  - apply Forall_app. split; [exact HF | constructor; [exact Hfw | constructor]].
Qed.

Section RootedLoops.

Variable G : Namespace.
Variables (structure : Structure) (min_slab_size min_vacuum_size : Q).
Variables (vasp_cmd : string) (db_file : option string).
Variable root : Firework.

Lemma adsorbate_fw_body_rooted slab trans struct :
  keeps (rooted root)
    (adsorbate_fw_body G structure vasp_cmd db_file slab trans struct).
Proof.
  unfold adsorbate_fw_body.
  apply keeps_bind; [apply keeps_lift | intros ads_sites].
  apply keeps_bind; [apply keeps_global | intros ist].
  apply keeps_bind; [apply keeps_lift | intros t].
  apply keeps_rooted_first.
  apply keeps_bind; [apply keeps_global | intros params].
  apply keeps_rooted_append. split; reflexivity.
Qed.

Lemma slab_body_rooted slab :
  keeps (rooted root)
    (slab_body G structure min_slab_size min_vacuum_size vasp_cmd db_file slab).
Proof.
  unfold slab_body.
  apply keeps_bind; [apply keeps_global | intros cfg].
  destruct (in_list (mi_string slab) (keys cfg)); [|apply keeps_ret].
  apply keeps_bind; [apply keeps_global | intros st].
  apply keeps_bind; [apply keeps_global | intros sh].
  apply keeps_bind; [apply keeps_global | intros kw].
  apply keeps_bind; [apply keeps_lift | intros t].
  apply keeps_rooted_first.
  apply keeps_bind; [apply keeps_global | intros params].
  apply keeps_bind;
    [apply keeps_rooted_append; split; reflexivity | intros _].
  apply keeps_bind; [apply keeps_global | intros asfc].
  apply keeps_bind; [apply keeps_ext_call | intros asf].
  apply keeps_bind; [apply keeps_global | intros cfg'].
  apply keeps_bind; [apply keeps_lift | intros molecules].
  apply keeps_for_each. intros molecule.
  apply keeps_bind; [apply keeps_ext_call | intros structures].
  apply keeps_for_each. intros struct.
  apply adsorbate_fw_body_rooted.
Qed.

Lemma check_key_keeps P mi_strings key :
  keeps P (check_key mi_strings key).
Proof.
  unfold check_key. destruct (in_list key mi_strings);
    [apply keeps_ret | apply keeps_raise].
Qed.

End RootedLoops.

(** What a returned workflow looks like, in any namespace. *)
Lemma get_wf_adsorption_Ok_inv
    (G : Namespace) (structure : Structure) (cfg : Config)
    (vis : option VaspInputSet) (min_slab min_vac : Q) (mns : Z)
    (center : bool) (cmd : string) (dbf : option string)
    (s s' : State) (wf : Workflow) :
  get_wf_adsorption G structure cfg vis min_slab min_vac mns center cmd dbf s
  = (Ok wf, s') ->
  rooted (OptimizeFW structure
            (match vis with
             | Some v => v
             | None => MVLSlabSet structure true None
             end) cmd dbf []) (wf_fws wf)
  /\ wf_name wf = reduced_formula structure ++ ":" ++ "elastic constants".
Proof.
  intros H. unfold get_wf_adsorption in H.
  set (root := OptimizeFW structure _ cmd dbf []) in *.
  apply bind_Ok_inv in H as (u1 & t1 & E1 & H). inversion E1; subst u1 t1.
  apply bind_Ok_inv in H as (u2 & t2 & E2 & H).
  unfold fws_append in E2. inversion E2; subst u2 t2. clear E1 E2.
  match type of H with
  | _ ?t = _ => assert (HR : rooted root (fws t))
  end.
  { exists []. split; [reflexivity | constructor]. }
  apply bind_Ok_inv in H as (digits & t3 & E & H).
  apply lift_Ok_inv in E as [_ ->].
  apply bind_Ok_inv in H as (max_index & t4 & E & H).
  apply lift_Ok_inv in E as [_ ->].
  apply bind_Ok_inv in H as (gen & t5 & E & H).
  apply global_Ok_inv in E as [_ ->].
  apply bind_Ok_inv in H as (os & t6 & E & H).
  apply global_Ok_inv in E as [_ ->].
  apply bind_Ok_inv in H as (slabs & t7 & E & H).
  apply (keeps_ext_call (rooted root)) in E; [|exact HR].
  clear HR. rename E into HR.
  apply bind_Ok_inv in H as (acfg & t8 & E & H).
  apply global_Ok_inv in E as [_ ->].
  apply bind_Ok_inv in H as (u9 & t9 & E & H).
  apply (keeps_for_each (rooted root)) in E;
    [|intros key; apply check_key_keeps | exact HR].
  clear HR. rename E into HR.
  apply bind_Ok_inv in H as (u10 & t10 & E & H).
  apply (keeps_for_each (rooted root)) in E;
    [|intros slab; apply slab_body_rooted | exact HR].
  clear HR. rename E into HR.
  apply bind_Ok_inv in H as (l & t11 & E & H).
  unfold get_fws in E. inversion E; subst l t11.
  unfold ret in H. inversion H; subst. cbn [wf_fws wf_name].
  split; [exact HR | reflexivity].
Qed.

Lemma get_wf_adsorption_bound_run :
  get_wf_adsorption bound_namespace Si [("111", [CO])] None 7 12 1 true
    "vasp" None s0
  = (Ok bound_wf, bound_final).
Proof. vm_compute. reflexivity. Qed.

(** C6: a workflow returned by [get_wf_adsorption] starts with the bulk
    optimization firework, which has no parent; every other firework has
    that root as its parent, so it is the only firework without parents
    and none of the others can start before the root is completed. *)
Theorem C6_single_root_parent_of_all
    (G : Namespace) (structure : Structure) (cfg : Config)
    (vis : option VaspInputSet) (min_slab min_vac : Q) (mns : Z)
    (center : bool) (cmd : string) (dbf : option string)
    (s s' : State) (wf : Workflow) :
  get_wf_adsorption G structure cfg vis min_slab min_vac mns center cmd dbf s
  = (Ok wf, s') ->
  exists root rest,
    wf_fws wf = root :: rest /\
    is_optimize root = true /\
    fw_parents root = [] /\
    forall fw, In fw rest ->
      In root (fw_parents fw) /\
      fw_parents fw <> [] /\
      is_optimize fw = false /\
      forall completed, can_start completed fw -> completed root.
Proof.
  intros H. apply get_wf_adsorption_Ok_inv in H as [(rest & E & HF) _].
  eexists. exists rest. split; [exact E|].
  split; [reflexivity|]. split; [reflexivity|].
  intros fw Hin. rewrite List.Forall_forall in HF.
  destruct (HF fw Hin) as [Hp Ho]. rewrite Hp.
  split; [now left|]. split; [discriminate|]. split; [exact Ho|].
  intros completed Hc. apply Hc. rewrite Hp. now left.
Qed.

Lemma C6_witness_bound_namespace :
  exists root rest,
    wf_fws bound_wf = root :: rest /\
    is_optimize root = true /\
    fw_parents root = [] /\
    forall fw, In fw rest ->
      In root (fw_parents fw) /\
      fw_parents fw <> [] /\
      is_optimize fw = false /\
      forall completed, can_start completed fw -> completed root.
Proof.
  apply (C6_single_root_parent_of_all bound_namespace Si [("111", [CO])] None
           7 12 1 true "vasp" None s0 bound_final bound_wf).
  vm_compute. reflexivity.
Defined.

(** C10: whenever [get_wf_adsorption] returns, the workflow is named
    after the reduced formula of the input structure, a colon and the
    words "elastic constants". *)
Theorem C10_workflow_named_elastic_constants
    (G : Namespace) (structure : Structure) (cfg : Config)
    (vis : option VaspInputSet) (min_slab min_vac : Q) (mns : Z)
    (center : bool) (cmd : string) (dbf : option string)
    (s s' : State) (wf : Workflow) :
  get_wf_adsorption G structure cfg vis min_slab min_vac mns center cmd dbf s
  = (Ok wf, s') ->
  wf_name wf = reduced_formula structure ++ ":elastic constants".
Proof.
  intros H. apply get_wf_adsorption_Ok_inv in H as [_ Hname].
  rewrite Hname. reflexivity.
Qed.

Lemma C10_witness_bound_namespace :
  wf_name bound_wf = reduced_formula Si ++ ":elastic constants".
Proof.
  apply (C10_workflow_named_elastic_constants bound_namespace Si
           [("111", [CO])] None 7 12 1 true "vasp" None s0 bound_final
           bound_wf).
  vm_compute. reflexivity.
Defined.


(** ** The firetasks *)

(** [AnalyzeAdsorption.run_task] runs [pass] and a string literal: for
    every task, spec and state it returns [None] and leaves the file
    system, the database and the log as they were. *)
Lemma AnalyzeAdsorption_returns_None (t : Task) (fw_spec : Spec) (s : State) :
  launch AnalyzeAdsorption_run_task t fw_spec s = (Ok None, s).
Proof. reflexivity. Qed.

(** C3, the code at a run after the workflow: launched without a
    [db_file] on a file system without adsorption.json, the task returns
    [None] and leaves no file; launched with a [db_file], it returns
    [None] and the collection has no document; neither run does what
    the claim says.  The sibling placeholder [PassSlabEnergy], launched
    in the same way, does return an [FWAction]. *)
Theorem C3_analysis_persists_nothing :
  launch AnalyzeAdsorption_run_task analyze_task root_spec s0 = (Ok None, s0)
  /\ files s0 !! "adsorption.json" = None
  /\ launch AnalyzeAdsorption_run_task analyze_task_db root_spec s0
     = (Ok None, s0)
  /\ db s0 !! "adsorption" = None
  /\ ~ C3_as_stated analyze_task root_spec s0
  /\ ~ C3_as_stated analyze_task_db root_spec s0
  /\ launch PassSlabEnergy_run_task analyze_task root_spec s0
     = (Ok (Some {| additions := [] |}), s0).
Proof.
  split; [reflexivity|]. split; [reflexivity|].
  split; [reflexivity|]. split; [reflexivity|].
  split; [|split; [|reflexivity]].
  - unfold C3_as_stated. intros (_ & Hfile & _).
    specialize (Hfile eq_refl). vm_compute in Hfile.
    destruct Hfile as [x Hx]. discriminate Hx.
  - unfold C3_as_stated. intros ((act & Hact) & _).
    vm_compute in Hact. discriminate Hact.
Qed.

(** The sibling placeholder does return an action. *)
Lemma PassSlabEnergy_returns_action (t : Task) (fw_spec : Spec) (s : State) :
  launch PassSlabEnergy_run_task t fw_spec s
  = (Ok (Some {| additions := [] |}), s).
Proof. reflexivity. Qed.

(** In the namespace of the module the body of
    [AddAdsorptionTasks.run_task] cannot get past line 191: whatever the
    task, the drone and the state, it raises, and [fws] is untouched. *)
Lemma AddAdsorptionTasks_body_raises (I : Imports) (t : Task) (s : State) :
  is_ok (fst (AddAdsorptionTasks_body I module_namespace t s)) = false
  /\ fws (snd (AddAdsorptionTasks_body I module_namespace t s)) = fws s.
Proof.
  unfold AddAdsorptionTasks_body, bind, lift, logger_info, ext_call, global.
  cbn [g_generate_decorated_slabs module_namespace].
  destruct (getattr_spec t) as [spec|e]; [|split; reflexivity].
  destruct (calc_locs spec) as [locs|]; [|split; reflexivity].
  destruct (last_opt locs) as [loc|]; [|split; reflexivity].
  destruct (dict_get loc "path") as [optimize_loc|]; [|split; reflexivity].
  cbn [ext add_log].
  destruct (VaspDrone_assimilate I optimize_loc (ext s)) as [[doc|e] n];
    [|split; reflexivity].
  destruct (calcs_reversed doc) as [calcs|]; [|split; reflexivity].
  destruct calcs as [|calc calcs]; [split; reflexivity|].
  destruct (output_structure calc) as [sd|]; [|split; reflexivity].
  destruct (Structure_from_dict I sd) as [opt_struct|e]; split; reflexivity.
Qed.

(** C9: however FireWorks launches [AddAdsorptionTasks], the call fails
    before a task is added.  [run_task] is declared with [self] alone,
    so [t.run_task(my_spec)] is a [TypeError] in every namespace and for
    every spec; and the body, were it entered, raises in the namespace of
    the module without touching [fws], so no additions are returned. *)
Theorem C9_expansion_task_fails_before_adding
    (I : Imports) (G : Namespace) (t : Task) (fw_spec : Spec) (s : State) :
  launch (AddAdsorptionTasks_run_task I G) t fw_spec s
  = (Raise (TypeError
            "run_task() takes 1 positional argument but 2 were given"), s)
  /\ is_ok (fst (AddAdsorptionTasks_body I module_namespace t s)) = false
  /\ fws (snd (AddAdsorptionTasks_body I module_namespace t s)) = fws s.
Proof.
  split; [reflexivity | apply AddAdsorptionTasks_body_raises].
Qed.

(** The first name the body misses is the attribute [spec]: a firetask
    has none unless somebody sets it. *)
Lemma AddAdsorptionTasks_body_no_spec (I : Imports) (G : Namespace)
    (t : Task) (s : State) :
  dict_get (task_attrs t) "spec" = None ->
  AddAdsorptionTasks_body I G t s = (Raise (AttributeError "spec"), s).
Proof.
  intros H. unfold AddAdsorptionTasks_body, bind, lift, getattr_spec.
  rewrite H. reflexivity.
Qed.

(** C5, the code at a run after the root optimization: launched with the
    spec of the root, the task raises [TypeError] and returns no
    [FWAction]; its body, called without arguments, misses [self.spec];
    and with the spec attached and a drone that finds the optimized
    structure it stops at the unbound [generate_decorated_slabs], with no
    firework added. *)
Theorem C5_expansion_returns_no_action (G : Namespace) :
  launch (AddAdsorptionTasks_run_task si_imports G) add_task root_spec s0
  = (Raise (TypeError
            "run_task() takes 1 positional argument but 2 were given"), s0)
  /\ AddAdsorptionTasks_body si_imports G add_task s0
     = (Raise (AttributeError "spec"), s0)
  /\ AddAdsorptionTasks_body si_imports module_namespace add_task_with_spec s0
     = (Raise (NameError "generate_decorated_slabs"),
        set_ext 1 (add_log
          "PARSING INITIAL OPTIMIZATION DIRECTORY: /scratch/launcher_opt" s0)).
Proof.
  split; [reflexivity|]. split; [reflexivity|].
  vm_compute. reflexivity.
Qed.

(** ** The validation of the configuration keys (lines 126-129) *)

(** The loop raises at the first key that is not the miller-index string
    of a slab, and changes nothing. *)
Lemma check_keys_rejects (mi_strings ks : list string) (s : State) :
  forallb (fun k => in_list k mi_strings) ks = false ->
  for_each ks (check_key mi_strings) s
  = (Raise (miller_index_error mi_strings), s).
Proof.
  induction ks as [|k ks IH]; cbn [forallb for_each]; intros H.
  - discriminate H.
  - unfold bind, check_key at 1.
    destruct (in_list k mi_strings) eqn:Ek; cbn in H |- *.
    + apply IH. exact H.
    + reflexivity.
Qed.

Lemma check_keys_accepts (mi_strings ks : list string) (s : State) :
  forallb (fun k => in_list k mi_strings) ks = true ->
  for_each ks (check_key mi_strings) s = (Ok tt, s).
Proof.
  induction ks as [|k ks IH]; cbn [forallb for_each]; intros H.
  - reflexivity.
  - apply andb_prop in H as [Hk Hks].
    unfold bind, check_key at 1. rewrite Hk. cbn. apply IH. exact Hks.
Qed.

(** With the generator, [opt_struct] and [adsorbate_config] bound, a key
    of [adsorbate_config] that no generated slab has stops the
    construction with the [ValueError] of line 128, the root firework
    being the only one built. *)
Lemma get_wf_adsorption_rejects_unknown_key
    (G : Namespace) (structure : Structure) (cfg acfg : Config)
    (vis : option VaspInputSet) (min_slab min_vac : Q) (mns : Z)
    (center : bool) (cmd : string) (dbf : option string) (s : State)
    gen os ds m slabs n :
  g_generate_decorated_slabs G = Some gen ->
  g_opt_struct G = Some os ->
  g_adsorbate_config G = Some acfg ->
  map_result int_of_char (list_ascii_of_string (join (keys cfg))) = Ok ds ->
  py_max ds = Ok m ->
  gen os {| arg_max_index := Some m; arg_min_slab_size := Some min_slab;
            arg_min_vacuum_size := Some min_vac;
            arg_max_normal_search := Some mns;
            arg_center_slab := Some center |} (ext s) = (Ok slabs, n) ->
  forallb (fun k => in_list k (map mi_string slabs)) (keys acfg) = false ->
  get_wf_adsorption G structure cfg vis min_slab min_vac mns center cmd dbf s
  = (Raise (miller_index_error (map mi_string slabs)),
     set_ext n
       (set_fws [OptimizeFW structure
                   (match vis with
                    | Some v => v
                    | None => MVLSlabSet structure true None
                    end) cmd dbf []] s)).
Proof.
  intros Hgen Hos Hcfg Hds Hm Hcall Hkey.
  unfold get_wf_adsorption.
  cbv beta iota delta [bind fws_append lift].
  rewrite Hds, Hm, Hgen, Hos, Hcfg. cbn [global ret].
  unfold ext_call. cbn [ext set_fws]. rewrite Hcall.
  rewrite check_keys_rejects by exact Hkey.
  reflexivity.
Qed.

(** C1, the code at a configuration with the key "211", which no slab of
    the run has.  In the namespace of the module the call stops at the
    unbound [generate_decorated_slabs], before any slab exists; with the
    generator and [opt_struct] supplied it stops at the unbound
    [adsorbate_config] of line 126; and where [adsorbate_config] is bound
    to another dictionary, that one is validated and a workflow is
    returned.  The [ValueError] of line 128 is raised in none of them. *)
Theorem C1_unknown_key_not_rejected :
  get_wf_adsorption module_namespace Si [("211", [CO])] None 7 12 1 true
    "vasp" None s0
  = (Raise (NameError "generate_decorated_slabs"), set_fws [root_fw] s0)
  /\ get_wf_adsorption generator_namespace Si [("211", [CO])] None 7 12 1
       true "vasp" None s0
     = (Raise (NameError "adsorbate_config"), set_ext 1 (set_fws [root_fw] s0))
  /\ get_wf_adsorption bound_namespace Si [("211", [CO])] None 7 12 1 true
       "vasp" None s0
     = (Ok bound_wf, bound_final).
Proof.
  split; [vm_compute; reflexivity|].
  split; vm_compute; reflexivity.
Qed.

(** ** The expansion loops (lines 131-168 and 193-206) *)

(** C2, the code where the loops run.  In [bound_namespace] the generator
    yields the slabs (1,1,1) and (1,0,0), every molecule has two
    adsorption structures, and the global [adsorbate_config] is
    {'111': [CO]}.  Called with the configuration
    {'111': [CO], '100': [CO]}, for which the claim counts three tasks
    for either slab, six in all, [get_wf_adsorption] returns the root and
    the three fireworks of the slab (1,1,1) and none for the slab
    (1,0,0); called with {'100': [CO]} alone it returns the same
    workflow, the tasks of a slab that is not configured.  The body of
    [AddAdsorptionTasks.run_task], for a task with the first
    configuration, returns the three additions of the slab (1,1,1).  Both
    loops read the global [adsorbate_config], not the configuration they
    were given. *)
Theorem C2_expansion_follows_the_global_configuration :
  tasks_of both_slabs_config two_placements slab_111 = 3%nat
  /\ tasks_of both_slabs_config two_placements slab_100 = 3%nat
  /\ expansion_size both_slabs_config two_placements [slab_111; slab_100]
     = 6%nat
  /\ get_wf_adsorption bound_namespace Si both_slabs_config None 7 12 1 true
       "vasp" None s0
     = (Ok bound_wf, bound_final)
  /\ wf_fws bound_wf = [root_fw; slab_fw; ads_fw; ads_fw]
  /\ tasks_of [("100", [CO])] two_placements slab_111 = 0%nat
  /\ get_wf_adsorption bound_namespace Si [("100", [CO])] None 7 12 1 true
       "vasp" None s0
     = (Ok bound_wf, bound_final)
  /\ fst (AddAdsorptionTasks_body si_imports bound_namespace
            add_task_both_slabs s0)
     = Ok (Some {| additions := bound_additions |}).
Proof.
  repeat split; vm_compute; reflexivity.
Qed.

(** ** Determinism of the construction *)

Lemma stable_ret {A} (a : A) : stable (ret a).
Proof. intros s1 s2 E. split; [reflexivity | exact E]. Qed.

Lemma stable_raise {A} (e : exn) : stable (@raise A e).
Proof. intros s1 s2 E. split; [reflexivity | exact E]. Qed.

Lemma stable_lift {A} (r : result A) : stable (lift r).
Proof. intros s1 s2 E. split; [reflexivity | exact E]. Qed.

Lemma stable_global {A} name (b : option A) : stable (global name b).
Proof. destruct b; [apply stable_ret | apply stable_raise]. Qed.

Lemma stable_get_fws : stable get_fws.
Proof. intros s1 s2 E. unfold get_fws. cbn. rewrite E. auto. Qed.

Lemma stable_fws_first : stable fws_first.
Proof.
  intros s1 s2 E. unfold fws_first. rewrite E.
  destruct (fws s2) eqn:E2; cbn; split; congruence.
Qed.

Lemma stable_fws_append fw : stable (fws_append fw).
Proof. intros s1 s2 E. unfold fws_append. cbn. rewrite E. auto. Qed.

Lemma stable_ext_call {A} (c : ExtCall A) :
  state_independent c -> stable (ext_call c).
Proof.
  intros Hc s1 s2 E. unfold ext_call.
  specialize (Hc (ext s1) (ext s2)).
  destruct (c (ext s1)) as [r1 n1], (c (ext s2)) as [r2 n2].
  cbn in Hc |- *. auto.
Qed.

Lemma stable_bind {A B} (m : M A) (k : A -> M B) :
  stable m ->
  (forall a s, fst (m s) = Ok a -> stable (k a)) ->
  stable (bind m k).
Proof.
  intros Hm Hk s1 s2 E. unfold bind.
  destruct (Hm s1 s2 E) as [Hr Hf].
  specialize (Hk) with (s := s1).
  destruct (m s1) as [r1 t1], (m s2) as [r2 t2]. cbn in Hr, Hf, Hk.
  subst r2. destruct r1 as [a|e].
  - apply (Hk a eq_refl). exact Hf.
  - cbn. auto.
Qed.

Lemma stable_for_each {A} (l : list A) (body : A -> M unit) :
  (forall x, stable (body x)) -> stable (for_each l body).
Proof.
  intros Hbody. induction l as [|x l IH]; cbn [for_each].
  - apply stable_ret.
  - apply stable_bind; [apply Hbody | intros _ _ _; exact IH].
Qed.

Lemma check_key_stable mi_strings key : stable (check_key mi_strings key).
Proof.
  unfold check_key. destruct (in_list key mi_strings);
    [apply stable_ret | apply stable_raise].
Qed.

Lemma adsorbate_fw_body_stable G structure cmd dbf slab trans struct :
  stable (adsorbate_fw_body G structure cmd dbf slab trans struct).
Proof.
  unfold adsorbate_fw_body.
  apply stable_bind; [apply stable_lift | intros ads_sites _ _].
  apply stable_bind; [apply stable_global | intros ist _ _].
  apply stable_bind; [apply stable_lift | intros t _ _].
  apply stable_bind; [apply stable_fws_first | intros parent _ _].
  apply stable_bind; [apply stable_global | intros params _ _].
  apply stable_fws_append.
Qed.

Lemma slab_body_stable G structure min_slab min_vac cmd dbf slab :
  deterministic_generators G ->
  stable (slab_body G structure min_slab min_vac cmd dbf slab).
Proof.
  intros [_ Hasf]. unfold slab_body.
  apply stable_bind; [apply stable_global | intros cfg _ _].
  destruct (in_list (mi_string slab) (keys cfg)); [|apply stable_ret].
  apply stable_bind; [apply stable_global | intros st _ _].
  apply stable_bind; [apply stable_global | intros sh _ _].
  apply stable_bind; [apply stable_global | intros kw _ _].
  apply stable_bind; [apply stable_lift | intros t _ _].
  apply stable_bind; [apply stable_fws_first | intros parent _ _].
  apply stable_bind; [apply stable_global | intros params _ _].
  apply stable_bind; [apply stable_fws_append | intros _ _ _].
  apply stable_bind; [apply stable_global | intros ASF sA HA].
  assert (HG : g_AdsorbateSiteFinder G = Some ASF).
  { destruct (g_AdsorbateSiteFinder G); cbn in HA; congruence. }
  destruct (Hasf ASF HG slab true) as [Hind Hstructs].
  apply stable_bind; [apply stable_ext_call; exact Hind | intros asf sF HF].
  assert (Hfrom : exists n, fst (ASF slab true n) = Ok asf).
  { exists (ext sF). unfold ext_call in HF.
    destruct (ASF slab true (ext sF)); exact HF. }
  destruct Hfrom as (n & Hn).
  apply stable_bind; [apply stable_global | intros cfg' _ _].
  apply stable_bind; [apply stable_lift | intros molecules _ _].
  apply stable_for_each. intros molecule.
  apply stable_bind;
    [apply stable_ext_call; exact (Hstructs n asf Hn molecule)
    | intros structures _ _].
  apply stable_for_each. intros struct.
  apply adsorbate_fw_body_stable.
Qed.

(** [fws = []] makes what follows independent of the starting state. *)
Lemma stable_after_reset {A} (m : M A) (s1 s2 : State) :
  stable m ->
  fst (bind (fun s => (Ok tt, set_fws [] s)) (fun _ => m) s1)
  = fst (bind (fun s => (Ok tt, set_fws [] s)) (fun _ => m) s2).
Proof.
  intros Hm. unfold bind. apply (Hm (set_fws [] s1) (set_fws [] s2)).
  reflexivity.
Qed.

(** With deterministic generators, two calls of [get_wf_adsorption] on
    the same arguments raise the same exception or return the same
    fireworks in the same order under the same name, whatever state each
    starts from. *)
Lemma get_wf_adsorption_deterministic
    (G : Namespace) (structure : Structure) (cfg : Config)
    (vis : option VaspInputSet) (min_slab min_vac : Q) (mns : Z)
    (center : bool) (cmd : string) (dbf : option string) (s1 s2 : State) :
  deterministic_generators G ->
  fst (get_wf_adsorption G structure cfg vis min_slab min_vac mns center
         cmd dbf s1)
  = fst (get_wf_adsorption G structure cfg vis min_slab min_vac mns center
           cmd dbf s2).
Proof.
  intros HG. unfold get_wf_adsorption. apply stable_after_reset.
  apply stable_bind; [apply stable_fws_append | intros _ _ _].
  apply stable_bind; [apply stable_lift | intros digits _ _].
  apply stable_bind; [apply stable_lift | intros max_index _ _].
  apply stable_bind; [apply stable_global | intros gen sg Hg].
  assert (Hgen : g_generate_decorated_slabs G = Some gen).
  { destruct (g_generate_decorated_slabs G); cbn in Hg; congruence. }
  apply stable_bind; [apply stable_global | intros os _ _].
  apply stable_bind;
    [apply stable_ext_call; apply (proj1 HG gen Hgen) | intros slabs _ _].
  apply stable_bind; [apply stable_global | intros acfg _ _].
  apply stable_bind;
    [apply stable_for_each; intros key; apply check_key_stable
    | intros _ _ _].
  apply stable_bind;
    [apply stable_for_each; intros slab; apply slab_body_stable; exact HG
    | intros _ _ _].
  apply stable_bind; [apply stable_get_fws | intros l _ _].
  apply stable_ret.
Qed.

Lemma bound_namespace_deterministic : deterministic_generators bound_namespace.
Proof.
  split.
  - intros gen Hgen os args n m. cbn in Hgen. inversion Hgen; subst.
    reflexivity.
  - intros ASF HA slab sel. cbn in HA. inversion HA; subst. split.
    + intros n m. reflexivity.
    + intros n asf Hasf mol. cbn in Hasf. inversion Hasf; subst.
      intros k m. reflexivity.
Qed.

Lemma combine_shift {A} (d : Z) (ids : list Z) (l : list A) :
  map (fun p => (fst p + d, snd p)) (combine ids l)
  = combine (map (fun i => i + d) ids) l.
Proof.
  revert l. induction ids as [|i ids IH]; intros [|x l]; cbn; try reflexivity.
  now rewrite IH.
Qed.

Lemma fw_ids_shift (c1 c2 : Z) (n : nat) :
  map (fun i => i + (c2 - c1)) (fw_ids c1 n) = fw_ids c2 n.
Proof.
  unfold fw_ids. rewrite map_map. apply map_ext. intros k. lia.
Qed.

(** C7, counterexample: in [bound_namespace], whose generators are
    deterministic, the call made while the counter stands at 0 numbers
    its four fireworks -1 to -4, and the next call, on the same
    arguments, numbers them -5 to -8. *)
Lemma C7_counterexample_consecutive_calls :
  ~ C7_as_stated bound_namespace [("111", [CO])] 0 s0.
Proof.
  unfold C7_as_stated. intros H.
  specialize (H bound_namespace_deterministic).
  vm_compute in H. discriminate H.
Qed.

(** C7 (amended): with deterministic generators, two calls of
    [get_wf_adsorption] on the same arguments have the same outcome up
    to the identifiers of the fireworks, whatever state each starts from
    and wherever the counter stands: the same exception, or the same
    fireworks in the same order under the same name, the identifiers of
    the second call being those of the first moved by the difference of
    the counters. *)
Theorem C7_construction_is_deterministic_up_to_ids
    (G : Namespace) (structure : Structure) (cfg : Config)
    (vis : option VaspInputSet) (min_slab min_vac : Q) (mns : Z)
    (center : bool) (cmd : string) (dbf : option string)
    (c1 c2 : Z) (s1 s2 : State) :
  deterministic_generators G ->
  fst (call_get_wf_adsorption G structure cfg vis min_slab min_vac mns
         center cmd dbf c2 s2)
  = shift_ids (c2 - c1)
      (fst (call_get_wf_adsorption G structure cfg vis min_slab min_vac mns
              center cmd dbf c1 s1)).
Proof.
  intros HG.
  pose proof (get_wf_adsorption_deterministic G structure cfg vis min_slab
                min_vac mns center cmd dbf s1 s2 HG) as Hdet.
  unfold call_get_wf_adsorption.
  destruct (get_wf_adsorption G structure cfg vis min_slab min_vac mns center
              cmd dbf s1) as [r1 t1].
  destruct (get_wf_adsorption G structure cfg vis min_slab min_vac mns center
              cmd dbf s2) as [r2 t2].
  cbn [fst] in Hdet |- *. subst r2. destruct r1 as [wf|e]; [|reflexivity].
  unfold shift_ids, number. cbn [nwf_fws nwf_name].
  now rewrite combine_shift, fw_ids_shift.
Qed.

Lemma C7_witness_two_runs :
  fst (call_get_wf_adsorption bound_namespace Si [("111", [CO])] None 7 12 1
         true "vasp" None (-4) s_later)
  = shift_ids (-4 - 0)
      (fst (call_get_wf_adsorption bound_namespace Si [("111", [CO])] None
              7 12 1 true "vasp" None 0 s0)).
Proof.
  apply (C7_construction_is_deterministic_up_to_ids bound_namespace Si
           [("111", [CO])] None 7 12 1 true "vasp" None 0 (-4) s0 s_later).
  exact bound_namespace_deterministic.
Defined.

(** ** The size of the expansion, where the loops run *)

Lemma adds_eq {A} n n' (m : M A) : adds n m -> n = n' -> adds n' m.
Proof. intros H <-. exact H. Qed.

Lemma adds_ret {A} (a : A) : adds 0 (ret a).
Proof. intros s x s' H. inversion H; subst. lia. Qed.

Lemma adds_append fw : adds 1 (fws_append fw).
Proof.
  intros s x s' H. unfold fws_append in H. inversion H; subst.
  cbn [fws set_fws]. rewrite length_app. reflexivity.
Qed.

Lemma adds_bind {A B} n k (m : M A) (f : A -> M B) :
  adds n m -> (forall a, adds k (f a)) -> adds (n + k) (bind m f).
Proof.
  intros Hm Hf s b s' H. apply bind_Ok_inv in H as (a & t & E & H).
  apply Hm in E. apply Hf in H. lia.
Qed.

(** A step that leaves [fws] alone and tells [Q] about its value. *)
Lemma adds_bind_silent {A B} (Q : A -> Prop) k (m : M A) (f : A -> M B) :
  (forall s a s', m s = (Ok a, s') -> fws s' = fws s /\ Q a) ->
  (forall a, Q a -> adds k (f a)) ->
  adds k (bind m f).
Proof.
  intros Hm Hf s b s' H. apply bind_Ok_inv in H as (a & t & E & H).
  apply Hm in E as [E HQ]. apply (Hf a HQ) in H. rewrite H, E. reflexivity.
Qed.

Lemma silent_lift {A} (r : result A) s a s' :
  lift r s = (Ok a, s') -> fws s' = fws s /\ r = Ok a.
Proof. intros H. apply lift_Ok_inv in H as [-> ->]. auto. Qed.

Lemma silent_global {A} name (b : option A) s a s' :
  global name b s = (Ok a, s') -> fws s' = fws s /\ b = Some a.
Proof. intros H. apply global_Ok_inv in H as [-> ->]. auto. Qed.

Lemma silent_ext_call {A} (c : ExtCall A) s a s' :
  ext_call c s = (Ok a, s') ->
  fws s' = fws s /\ exists n n', c n = (Ok a, n').
Proof.
  intros H. apply ext_call_Ok_inv in H as (n & E & ->). split; eauto.
Qed.

Lemma silent_fws_first s a s' :
  fws_first s = (Ok a, s') -> fws s' = fws s /\ True.
Proof.
  unfold fws_first. destruct (fws s) eqn:E; intros H; inversion H; subst.
  auto.
Qed.

Lemma adds_for_each {A} (c : A -> nat) (l : list A) (body : A -> M unit) :
  (forall x, adds (c x) (body x)) ->
  adds (list_sum (map c l)) (for_each l body).
Proof.
  intros Hbody. induction l as [|x l IH]; cbn [for_each map list_sum].
  - apply adds_ret.
  - apply adds_bind; [apply Hbody | intros _; exact IH].
Qed.

Lemma list_sum_ones {A} (l : list A) :
  list_sum (map (fun _ => 1%nat) l) = length l.
Proof.
  induction l as [|x l IH]; [reflexivity|].
  change (S (list_sum (map (fun _ => 1%nat) l)) = S (length l)).
  now rewrite IH.
Qed.

Section ExpansionSize.

Variable G : Namespace.
Variable cfg : Config.
Variable structs : Slab -> Molecule -> list Structure.
Hypothesis Hcfg : g_adsorbate_config G = Some cfg.
Hypothesis Hstructs : generates G structs.

Lemma adsorbate_fw_body_adds structure cmd dbf slab trans struct :
  adds 1 (adsorbate_fw_body G structure cmd dbf slab trans struct).
Proof.
  unfold adsorbate_fw_body.
  eapply adds_bind_silent; [apply silent_lift | intros ads_sites _].
  eapply adds_bind_silent; [apply silent_global | intros ist _].
  eapply adds_bind_silent; [apply silent_lift | intros t _].
  eapply adds_bind_silent; [apply silent_fws_first | intros parent _].
  eapply adds_bind_silent; [apply silent_global | intros params _].
  apply adds_append.
Qed.

(** Lines 132-168 add [tasks_of] fireworks for a slab. *)
Lemma slab_body_adds structure min_slab min_vac cmd dbf slab :
  adds (tasks_of cfg structs slab)
    (slab_body G structure min_slab min_vac cmd dbf slab).
Proof.
  unfold slab_body, tasks_of, matching.
  eapply adds_bind_silent; [apply silent_global | intros acfg Hacfg].
  rewrite Hcfg in Hacfg. inversion Hacfg; subst acfg.
  destruct (in_list (mi_string slab) (keys cfg)); [|apply adds_ret].
  eapply adds_bind_silent; [apply silent_global | intros st _].
  eapply adds_bind_silent; [apply silent_global | intros sh _].
  eapply adds_bind_silent; [apply silent_global | intros kw _].
  eapply adds_bind_silent; [apply silent_lift | intros t _].
  eapply adds_bind_silent; [apply silent_fws_first | intros parent _].
  eapply adds_bind_silent; [apply silent_global | intros params _].
  change (S (placements cfg structs slab))
    with (1 + placements cfg structs slab)%nat.
  apply adds_bind; [apply adds_append | intros _].
  eapply adds_bind_silent; [apply silent_global | intros ASF HASF].
  eapply adds_bind_silent; [apply silent_ext_call | intros asf (n & n' & Hasf)].
  eapply adds_bind_silent; [apply silent_global | intros acfg' Hacfg'].
  rewrite Hcfg in Hacfg'. inversion Hacfg'; subst acfg'.
  eapply adds_bind_silent; [apply silent_lift | intros molecules Hmol].
  unfold placements.
  destruct (dict_get cfg (mi_string slab)) as [ms|]; [|discriminate Hmol].
  inversion Hmol; subst ms. cbn [default].
  apply adds_for_each. intros molecule.
  eapply adds_bind_silent;
    [apply silent_ext_call | intros structures (k & k' & Hk)].
  rewrite <- (Hstructs _ _ _ _ _ _ _ _ _ HASF Hasf Hk).
  eapply adds_eq;
    [apply adds_for_each with (c := fun _ => 1%nat) | apply list_sum_ones].
  intros struct. apply adsorbate_fw_body_adds.
Qed.

(** Lines 194-206 add as many. *)
Lemma add_slab_body_adds slab :
  adds (tasks_of cfg structs slab) (add_slab_body G slab).
Proof.
  unfold add_slab_body, tasks_of, matching.
  eapply adds_bind_silent; [apply silent_global | intros acfg Hacfg].
  rewrite Hcfg in Hacfg. inversion Hacfg; subst acfg.
  destruct (in_list (mi_string slab) (keys cfg)); [|apply adds_ret].
  eapply adds_bind_silent; [apply silent_global | intros uis _].
  change (S (placements cfg structs slab))
    with (1 + placements cfg structs slab)%nat.
  apply adds_bind; [apply adds_append | intros _].
  eapply adds_bind_silent; [apply silent_global | intros ASF HASF].
  eapply adds_bind_silent; [apply silent_ext_call | intros asf (n & n' & Hasf)].
  eapply adds_bind_silent; [apply silent_global | intros acfg' Hacfg'].
  rewrite Hcfg in Hacfg'. inversion Hacfg'; subst acfg'.
  eapply adds_bind_silent; [apply silent_lift | intros molecules Hmol].
  unfold placements.
  destruct (dict_get cfg (mi_string slab)) as [ms|]; [|discriminate Hmol].
  inversion Hmol; subst ms. cbn [default].
  apply adds_for_each. intros molecule.
  eapply adds_bind_silent;
    [apply silent_ext_call | intros structures (k & k' & Hk)].
  rewrite <- (Hstructs _ _ _ _ _ _ _ _ _ HASF Hasf Hk).
  eapply adds_eq;
    [apply adds_for_each with (c := fun _ => 1%nat) | apply list_sum_ones].
  intros struct.
  eapply adds_bind_silent; [apply silent_global | intros cmd _].
  eapply adds_bind_silent; [apply silent_global | intros dbf _].
  apply adds_append.
Qed.

(** Where the loops run to their end, they add one firework per matching
    slab and one per adsorption structure of its molecules. *)
Lemma expansion_loops_add structure min_slab min_vac cmd dbf slabs :
  adds (expansion_size cfg structs slabs)
    (for_each slabs (slab_body G structure min_slab min_vac cmd dbf))
  /\ adds (expansion_size cfg structs slabs)
       (for_each slabs (add_slab_body G)).
Proof.
  split; apply adds_for_each; intros slab;
    [apply slab_body_adds | apply add_slab_body_adds].
Qed.

End ExpansionSize.

(** The size of the expansion is the number of matching slabs plus the
    number of placements on them. *)
Lemma expansion_size_split cfg structs slabs :
  expansion_size cfg structs slabs
  = (length (List.filter (matching cfg) slabs)
     + list_sum (map (placements cfg structs)
                   (List.filter (matching cfg) slabs)))%nat.
Proof.
  unfold expansion_size.
  induction slabs as [|slab slabs IH]; [reflexivity|].
  change (tasks_of cfg structs slab
          + list_sum (map (tasks_of cfg structs) slabs)
          = length (List.filter (matching cfg) (slab :: slabs))
            + list_sum (map (placements cfg structs)
                          (List.filter (matching cfg) (slab :: slabs))))%nat.
  rewrite IH. unfold tasks_of. cbn [List.filter].
  destruct (matching cfg slab); [|reflexivity].
  change (S (placements cfg structs slab)
          + (length (List.filter (matching cfg) slabs)
             + list_sum (map (placements cfg structs)
                           (List.filter (matching cfg) slabs)))
          = S (length (List.filter (matching cfg) slabs))
            + (placements cfg structs slab
               + list_sum (map (placements cfg structs)
                             (List.filter (matching cfg) slabs))))%nat.
  lia.
Qed.

(** * Further properties of the module *)

(** ** Line 120: the largest index of the configuration *)

Lemma map_result_app_Ok {A B} (f : A -> result B) l1 l2 r1 :
  map_result f l1 = Ok r1 ->
  map_result f (l1 ++ l2)
  = match map_result f l2 with
    | Ok r2 => Ok (r1 ++ r2)%list
    | Raise e => Raise e
    end.
Proof.
  revert r1. induction l1 as [|x l1 IH]; intros r1 H.
  - cbn in H. inversion H; subst. cbn [app].
    destruct (map_result f l2); reflexivity.
  - change (map_result f (x :: l1))
      with (match f x with
            | Raise e => Raise e
            | Ok y => match map_result f l1 with
                      | Raise e => Raise e
                      | Ok ys => Ok (y :: ys)
                      end
            end) in H.
    change (map_result f ((x :: l1) ++ l2))
      with (match f x with
            | Raise e => Raise e
            | Ok y => match map_result f (l1 ++ l2) with
                      | Raise e => Raise e
                      | Ok ys => Ok (y :: ys)
                      end
            end).
    destruct (f x) as [y|e]; [|discriminate H].
    destruct (map_result f l1) as [ys|e] eqn:E; [|discriminate H].
    inversion H; subst r1. rewrite (IH ys eq_refl).
    destruct (map_result f l2); reflexivity.
Qed.

Lemma int_of_char_bad c : is_digit c = false -> int_of_char c = Raise (int_error c).
Proof.
  unfold is_digit, int_of_char. cbv zeta. intros ->. reflexivity.
Qed.

(** [int] is applied to the characters in order: the first one that is
    not a digit decides. *)
Lemma map_result_int_first_bad pre c post :
  forallb is_digit pre = true -> is_digit c = false ->
  map_result int_of_char (pre ++ c :: post) = Raise (int_error c).
Proof.
  intros Hpre Hc. destruct (map_result_digits pre Hpre) as (ds & Hds & _).
  rewrite (map_result_app_Ok _ _ _ _ Hds).
  change (map_result int_of_char (c :: post))
    with (match int_of_char c with
          | Raise e => Raise e
          | Ok y => match map_result int_of_char post with
                    | Raise e => Raise e
                    | Ok ys => Ok (y :: ys)
                    end
          end).
  rewrite (int_of_char_bad c Hc). reflexivity.
Qed.

(** Where line 120 raises, the call raises the same, in every namespace,
    with the root firework built. *)
Lemma get_wf_adsorption_line_120
    (G : Namespace) (structure : Structure) (cfg : Config)
    (vis : option VaspInputSet) (min_slab min_vac : Q) (mns : Z)
    (center : bool) (cmd : string) (dbf : option string) (s : State) e :
  max_index_of cfg = Raise e ->
  get_wf_adsorption G structure cfg vis min_slab min_vac mns center cmd dbf s
  = (Raise e, set_fws [root_of structure vis cmd dbf] s).
Proof.
  unfold max_index_of. intros H. unfold get_wf_adsorption.
  cbv beta iota delta [bind fws_append lift].
  destruct (map_result int_of_char _) as [ds|e'].
  - rewrite H. reflexivity.
  - inversion H; subst. reflexivity.
Qed.

(** X1: a configuration without keys, or whose keys are all empty,
    makes [max] raise [ValueError] on line 120, in every namespace; the
    root firework is the only one built. *)
Theorem X1_empty_configuration_raises
    (G : Namespace) (structure : Structure) (cfg : Config)
    (vis : option VaspInputSet) (min_slab min_vac : Q) (mns : Z)
    (center : bool) (cmd : string) (dbf : option string) (s : State) :
  join (keys cfg) = "" ->
  get_wf_adsorption G structure cfg vis min_slab min_vac mns center cmd dbf s
  = (Raise max_error, set_fws [root_of structure vis cmd dbf] s).
Proof.
  intros H. apply get_wf_adsorption_line_120.
  unfold max_index_of. rewrite H. reflexivity.
Qed.

Lemma X1_witness_empty_dict :
  get_wf_adsorption module_namespace Si [] None 7 12 1 true "vasp" None s0
  = (Raise max_error, set_fws [root_of Si None "vasp" None] s0).
Proof.
  apply (X1_empty_configuration_raises module_namespace Si [] None 7 12 1
           true "vasp" None s0).
  reflexivity.
Defined.

(** X2: when the first character of the joined keys that is not a
    decimal digit is an ASCII character, [int] raises [ValueError] for
    it on line 120, with the [repr] of the character in the message, in
    every namespace; the root firework is the only one built. *)
Theorem X2_first_non_digit_raises
    (G : Namespace) (structure : Structure) (cfg : Config)
    (vis : option VaspInputSet) (min_slab min_vac : Q) (mns : Z)
    (center : bool) (cmd : string) (dbf : option string) (s : State)
    (pre post : list ascii) (c : ascii) :
  list_ascii_of_string (join (keys cfg)) = (pre ++ c :: post)%list ->
  forallb is_digit pre = true ->
  is_digit c = false ->
  is_ascii c = true ->
  get_wf_adsorption G structure cfg vis min_slab min_vac mns center cmd dbf s
  = (Raise (int_error c), set_fws [root_of structure vis cmd dbf] s).
Proof.
  intros Hsplit Hpre Hc _. apply get_wf_adsorption_line_120.
  unfold max_index_of. rewrite Hsplit.
  rewrite (map_result_int_first_bad pre c post Hpre Hc). reflexivity.
Qed.

Lemma X2_witness_two_keys :
  get_wf_adsorption module_namespace Si [("111", [CO]); ("1x0", [])] None
    7 12 1 true "vasp" None s0
  = (Raise (ValueError "invalid literal for int() with base 10: 'x'"),
     set_fws [root_of Si None "vasp" None] s0).
Proof.
  apply (X2_first_non_digit_raises module_namespace Si
           [("111", [CO]); ("1x0", [])] None 7 12 1 true "vasp" None s0
           ["1"; "1"; "1"; "1"]%char ["0"]%char "x"%char);
    reflexivity.
Defined.

(** A key with a backslash: the message doubles it, as [repr] does. *)
Example backslash_key_message :
  get_wf_adsorption module_namespace Si [("1\1", [CO])] None
    7 12 1 true "vasp" None s0
  = (Raise (ValueError "invalid literal for int() with base 10: '\\'"),
     set_fws [root_of Si None "vasp" None] s0).
Proof. vm_compute. reflexivity. Qed.

(** ** The keys of the slabs (lines 124, 132 and 194) *)

Lemma chars_app (s1 s2 : string) :
  list_ascii_of_string (s1 ++ s2)
  = (list_ascii_of_string s1 ++ list_ascii_of_string s2)%list.
Proof.
  induction s1 as [|c s1 IH]; [reflexivity|].
  simpl. f_equal. exact IH.
Qed.

Lemma chars_join (l : list string) :
  list_ascii_of_string (join l) = flat_map list_ascii_of_string l.
Proof.
  unfold join. induction l as [|x l IH]; [reflexivity|].
  destruct l as [|y l].
  - cbn [String.concat flat_map]. now rewrite app_nil_r.
  - change (String.concat "" (x :: y :: l))
      with (x ++ "" ++ String.concat "" (y :: l)).
    rewrite !chars_app. change (list_ascii_of_string "") with (@nil ascii).
    cbn [app]. rewrite IH. reflexivity.
Qed.

Lemma digit_cases (i : Z) :
  0 <= i <= 9 ->
  i = 0 \/ i = 1 \/ i = 2 \/ i = 3 \/ i = 4 \/ i = 5 \/ i = 6 \/ i = 7
  \/ i = 8 \/ i = 9.
Proof. lia. Qed.

(** [str] of a single digit is one character, and [int] reads it back. *)
Lemma digit_round_trip (i : Z) :
  0 <= i <= 9 ->
  exists c, list_ascii_of_string (pretty i) = [c] /\ int_of_char c = Ok i.
Proof.
  intros H. apply digit_cases in H.
  repeat (destruct H as [->|H]; [eexists; split; reflexivity|]).
  subst. eexists; split; reflexivity.
Qed.

(** Reading the key of single digits character by character gives the
    indices back. *)
Lemma decode_digits (l : list Z) :
  Forall (fun i => 0 <= i <= 9) l ->
  map_result int_of_char (flat_map list_ascii_of_string (map pretty l))
  = Ok l.
Proof.
  induction 1 as [|i l Hi Hl IH]; [reflexivity|].
  cbn [map flat_map]. destruct (digit_round_trip i Hi) as (c & -> & Hc).
  cbn [app].
  change (map_result int_of_char
            (c :: flat_map list_ascii_of_string (map pretty l)))
    with (match int_of_char c with
          | Raise e => Raise e
          | Ok y =>
              match map_result int_of_char
                      (flat_map list_ascii_of_string (map pretty l)) with
              | Raise e => Raise e
              | Ok ys => Ok (y :: ys)
              end
          end).
  rewrite Hc, IH. reflexivity.
Qed.

Lemma decode_mi_string (slab : Slab) :
  single_digits slab ->
  map_result int_of_char (list_ascii_of_string (mi_string slab))
  = Ok (miller_index slab).
Proof.
  intros H. unfold mi_string. rewrite chars_join. apply decode_digits. exact H.
Qed.

Lemma chars_keys_of_slabs (slabs : list Slab) :
  flat_map list_ascii_of_string (map mi_string slabs)
  = flat_map list_ascii_of_string (map pretty (flat_map miller_index slabs)).
Proof.
  induction slabs as [|slab slabs IH]; [reflexivity|].
  cbn [map flat_map]. rewrite map_app, flat_map_app, <- IH.
  f_equal. unfold mi_string. apply chars_join.
Qed.

Lemma fold_left_max_ge (l : list Z) (x : Z) : x <= fold_left Z.max l x.
Proof.
  revert x. induction l as [|y l IH]; intros x; cbn [fold_left]; [lia|].
  specialize (IH (Z.max x y)). lia.
Qed.

Lemma fold_left_max_bound (l : list Z) (x i : Z) :
  In i l -> i <= fold_left Z.max l x.
Proof.
  revert x. induction l as [|y l IH]; intros x Hi; [destruct Hi|].
  cbn [fold_left]. destruct Hi as [->|Hi]; [|apply IH; exact Hi].
  pose proof (fold_left_max_ge l (Z.max x i)). lia.
Qed.

Lemma fold_left_max_in (l : list Z) (x : Z) :
  fold_left Z.max l x = x \/ In (fold_left Z.max l x) l.
Proof.
  revert x. induction l as [|y l IH]; intros x; cbn [fold_left]; [now left|].
  destruct (IH (Z.max x y)) as [H|H].
  - rewrite H. destruct (Z.max_spec x y) as [[_ ->]|[_ ->]];
      [right; now left | now left].
  - right. now right.
Qed.

(** [max] of a non-empty list is one of its elements and bounds them
    all. *)
Lemma py_max_spec (l : list Z) :
  l <> [] ->
  exists m, py_max l = Ok m /\ In m l /\ forall i, In i l -> i <= m.
Proof.
  destruct l as [|x l]; [congruence|]. intros _.
  exists (fold_left Z.max l x). split; [reflexivity|]. split.
  - destruct (fold_left_max_in l x) as [->|H]; [now left | now right].
  - intros i [<-|Hi]; [apply fold_left_max_ge | now apply fold_left_max_bound].
Qed.

(** X3: when the keys of the configuration are the keys of slabs whose
    miller indices are single digits, line 120 computes the largest
    miller index among them. *)
Theorem X3_max_index_is_largest_miller_index
    (cfg : Config) (slabs : list Slab) :
  keys cfg = map mi_string slabs ->
  Forall single_digits slabs ->
  flat_map miller_index slabs <> [] ->
  exists m,
    max_index_of cfg = Ok m
    /\ In m (flat_map miller_index slabs)
    /\ forall i, In i (flat_map miller_index slabs) -> i <= m.
Proof.
  intros Hkeys Hdig Hne. unfold max_index_of.
  rewrite chars_join, Hkeys, chars_keys_of_slabs, decode_digits.
  - apply py_max_spec. exact Hne.
  - clear Hkeys Hne. induction Hdig as [|slab slabs H _ IH]; [constructor|].
    cbn [flat_map]. apply Forall_app. split; assumption.
Qed.

Lemma X3_witness_two_orientations :
  exists m,
    max_index_of [("111", [CO]); ("210", [CO])] = Ok m
    /\ In m (flat_map miller_index [slab_111; slab_of [2; 1; 0]])
    /\ forall i, In i (flat_map miller_index [slab_111; slab_of [2; 1; 0]]) ->
         i <= m.
Proof.
  apply (X3_max_index_is_largest_miller_index
           [("111", [CO]); ("210", [CO])] [slab_111; slab_of [2; 1; 0]]).
  - reflexivity.
  - repeat constructor; cbn; lia.
  - discriminate.
Defined.

(** X4: the key of a slab determines its miller index as long as the
    indices are single digits, and does not in general: (1,11,0) and
    (11,1,0) have the same key. *)
Theorem X4_keys_identify_single_digit_indices :
  (forall a b : Slab,
     single_digits a -> single_digits b ->
     mi_string a = mi_string b -> miller_index a = miller_index b)
  /\ (exists a b : Slab,
        mi_string a = mi_string b /\ miller_index a <> miller_index b).
Proof.
  split.
  - intros a b Ha Hb E.
    pose proof (decode_mi_string a Ha) as Da.
    pose proof (decode_mi_string b Hb) as Db.
    rewrite E in Da. rewrite Da in Db. now inversion Db.
  - exists (slab_of [1; 11; 0]), (slab_of [11; 1; 0]).
    split; [reflexivity | discriminate].
Qed.

Lemma X4_witness_same_key :
  miller_index slab_111 = miller_index (slab_of [1; 1; 1]).
Proof.
  apply (proj1 X4_keys_identify_single_digit_indices
           slab_111 (slab_of [1; 1; 1])).
  - repeat constructor; cbn; lia.
  - repeat constructor; cbn; lia.
  - reflexivity.
Defined.

Lemma first_non_digit (l : list ascii) (c : ascii) :
  In c l -> is_digit c = false ->
  exists pre c' post,
    l = (pre ++ c' :: post)%list /\ forallb is_digit pre = true
    /\ is_digit c' = false.
Proof.
  induction l as [|x l IH]; intros Hin Hc; [destruct Hin|].
  destruct (is_digit x) eqn:Ex.
  - destruct Hin as [->|Hin]; [congruence|].
    destruct (IH Hin Hc) as (pre & c' & post & -> & Hpre & Hc').
    exists (x :: pre), c', post. split; [reflexivity|].
    split; [cbn [forallb]; now rewrite Ex | exact Hc'].
  - exists [], x, l. split; [reflexivity|]. split; [reflexivity | exact Ex].
Qed.

Lemma minus_in_key (slab : Slab) (i : Z) :
  In i (miller_index slab) -> i < 0 ->
  In "-"%char (list_ascii_of_string (mi_string slab)).
Proof.
  intros Hin Hneg. unfold mi_string. rewrite chars_join.
  apply in_flat_map. exists (pretty i). split; [now apply in_map|].
  destruct i as [|p|p]; [lia | lia |].
  change (pretty (Z.neg p)) with ("-" ++ pretty p). now left.
Qed.

(** X5: an orientation with a negative index cannot be configured: a
    configuration that has the key of such a slab makes [int] raise
    [ValueError] on line 120, in every namespace. *)
Theorem X5_negative_index_key_raises
    (G : Namespace) (structure : Structure) (cfg : Config)
    (vis : option VaspInputSet) (min_slab min_vac : Q) (mns : Z)
    (center : bool) (cmd : string) (dbf : option string) (s : State)
    (slab : Slab) (i : Z) :
  In (mi_string slab) (keys cfg) ->
  In i (miller_index slab) ->
  i < 0 ->
  exists c,
    is_digit c = false /\
    get_wf_adsorption G structure cfg vis min_slab min_vac mns center cmd dbf s
    = (Raise (int_error c), set_fws [root_of structure vis cmd dbf] s).
Proof.
  intros Hkey Hin Hneg.
  assert (Hminus : In "-"%char (list_ascii_of_string (join (keys cfg)))).
  { rewrite chars_join. apply in_flat_map. exists (mi_string slab).
    split; [exact Hkey | apply (minus_in_key slab i Hin Hneg)]. }
  destruct (first_non_digit _ _ Hminus eq_refl)
    as (pre & c & post & Hsplit & Hpre & Hc).
  exists c. split; [exact Hc|].
  apply get_wf_adsorption_line_120. unfold max_index_of.
  rewrite Hsplit, (map_result_int_first_bad pre c post Hpre Hc). reflexivity.
Qed.

Lemma X5_witness_1_m1_0 :
  exists c,
    is_digit c = false /\
    get_wf_adsorption module_namespace Si [("1-10", [CO])] None 7 12 1 true
      "vasp" None s0
    = (Raise (int_error c), set_fws [root_of Si None "vasp" None] s0).
Proof.
  apply (X5_negative_index_key_raises module_namespace Si [("1-10", [CO])]
           None 7 12 1 true "vasp" None s0 (slab_of [1; -1; 0]) (-1)).
  - now left.
  - right. now left.
  - lia.
Defined.

(** ** The index asked of the slab generator *)

Lemma int_of_char_range (c : ascii) (d : Z) :
  int_of_char c = Ok d -> 0 <= d <= 9.
Proof.
  unfold int_of_char. cbv zeta.
  destruct ((48 <=? Z.of_nat (nat_of_ascii c))
            && (Z.of_nat (nat_of_ascii c) <=? 57))%bool eqn:E;
    intros H; inversion H; subst.
  apply andb_prop in E as [E1 E2]. lia.
Qed.

Lemma map_result_int_range (l : list ascii) (ds : list Z) :
  map_result int_of_char l = Ok ds -> Forall (fun d => 0 <= d <= 9) ds.
Proof.
  revert ds. induction l as [|c l IH]; intros ds H.
  - inversion H. constructor.
  - change (map_result int_of_char (c :: l))
      with (match int_of_char c with
            | Raise e => Raise e
            | Ok y => match map_result int_of_char l with
                      | Raise e => Raise e
                      | Ok ys => Ok (y :: ys)
                      end
            end) in H.
    destruct (int_of_char c) as [y|e] eqn:Ec; [|discriminate H].
    destruct (map_result int_of_char l) as [ys|e]; [|discriminate H].
    inversion H; subst. constructor.
    + exact (int_of_char_range c y Ec).
    + apply IH. reflexivity.
Qed.

(** X14: the index line 120 computes for the slab generator is a single
    digit, whatever the keys are: the digits of the keys are taken one by
    one, so a key such as "1110" asks for the index 1. *)
Theorem X14_max_index_is_one_digit (cfg : Config) (m : Z) :
  max_index_of cfg = Ok m -> 0 <= m <= 9.
Proof.
  unfold max_index_of. intros H.
  destruct (map_result int_of_char (list_ascii_of_string (join (keys cfg))))
    as [ds|e] eqn:E; [|discriminate H].
  pose proof (map_result_int_range _ _ E) as Hrange.
  destruct ds as [|d ds]; [discriminate H|].
  destruct (py_max_spec (d :: ds)) as (m' & Hm' & Hin & _); [discriminate|].
  rewrite H in Hm'. inversion Hm'; subst m'.
  rewrite List.Forall_forall in Hrange. exact (Hrange m Hin).
Qed.

Lemma X14_witness_two_digit_index :
  max_index_of [("1110", [CO])] = Ok 1 /\ 0 <= 1 <= 9.
Proof.
  split; [reflexivity|].
  apply (X14_max_index_is_one_digit [("1110", [CO])] 1). reflexivity.
Defined.

(** ** The parameter [adsorption_config] *)

(** X6: [get_wf_adsorption] reads its parameter [adsorption_config] on
    line 120 only: two configurations with the same largest digit among
    their keys (or the same error there) give the same result from the
    same state, whatever molecules they list. *)
Theorem X6_configuration_read_for_max_index_only
    (G : Namespace) (structure : Structure) (cfg1 cfg2 : Config)
    (vis : option VaspInputSet) (min_slab min_vac : Q) (mns : Z)
    (center : bool) (cmd : string) (dbf : option string) (s : State) :
  max_index_of cfg1 = max_index_of cfg2 ->
  get_wf_adsorption G structure cfg1 vis min_slab min_vac mns center cmd dbf s
  = get_wf_adsorption G structure cfg2 vis min_slab min_vac mns center cmd dbf s.
Proof.
  unfold max_index_of, get_wf_adsorption. intros H.
  cbv beta iota delta [bind fws_append lift].
  destruct (map_result int_of_char
              (list_ascii_of_string (join (keys cfg1)))) as [d1|e1];
    destruct (map_result int_of_char
                (list_ascii_of_string (join (keys cfg2)))) as [d2|e2].
  - rewrite H. reflexivity.
  - rewrite H. reflexivity.
  - rewrite <- H. reflexivity.
  - inversion H; subst. reflexivity.
Qed.

Lemma X6_witness_other_molecules :
  get_wf_adsorption bound_namespace Si [("111", [CO])] None 7 12 1 true
    "vasp" None s0
  = get_wf_adsorption bound_namespace Si [("10", []); ("01", [CO; CO])] None
      7 12 1 true "vasp" None s0.
Proof.
  apply (X6_configuration_read_for_max_index_only bound_namespace Si
           [("111", [CO])] [("10", []); ("01", [CO; CO])] None 7 12 1 true
           "vasp" None s0).
  reflexivity.
Defined.

(** ** The fireworks of the expansion *)

Section Emits.

Variable H : list Firework -> Prop.
Hypothesis H_app : forall l new, H l -> H (l ++ new)%list.

Lemma emits_ret {A} (Q : list Firework -> Prop) (a : A) :
  Q [] -> emits H Q (ret a).
Proof.
  intros HQ s x s' _ E. inversion E; subst. exists [].
  split; [now rewrite app_nil_r | exact HQ].
Qed.

Lemma emits_append (Q : list Firework -> Prop) fw :
  Q [fw] -> emits H Q (fws_append fw).
Proof.
  intros HQ s x s' _ E. unfold fws_append in E. inversion E; subst.
  exists [fw]. split; [reflexivity | exact HQ].
Qed.

(** A step that leaves [fws] alone and tells [R] about its value. *)
Lemma emits_silent {A B} (R : A -> Prop) Q (m : M A) (f : A -> M B) :
  (forall s a s', H (fws s) -> m s = (Ok a, s') -> fws s' = fws s /\ R a) ->
  (forall a, R a -> emits H Q (f a)) ->
  emits H Q (bind m f).
Proof.
  intros Hm Hf s b s' HH E. apply bind_Ok_inv in E as (a & t & E1 & E2).
  destruct (Hm _ _ _ HH E1) as [Et HR].
  rewrite <- Et in HH. destruct (Hf a HR _ _ _ HH E2) as (new & Enew & HQ).
  exists new. split; [now rewrite Enew, Et | exact HQ].
Qed.

Lemma emits_bind {A B} (Q1 Q2 Q : list Firework -> Prop)
    (m : M A) (f : A -> M B) :
  emits H Q1 m -> (forall a, emits H Q2 (f a)) ->
  (forall l1 l2, Q1 l1 -> Q2 l2 -> Q (l1 ++ l2)%list) ->
  emits H Q (bind m f).
Proof.
  intros Hm Hf HQ s b s' HH E. apply bind_Ok_inv in E as (a & t & E1 & E2).
  destruct (Hm _ _ _ HH E1) as (l1 & Et & H1).
  assert (HH' : H (fws t)) by (rewrite Et; apply H_app; exact HH).
  destruct (Hf a _ _ _ HH' E2) as (l2 & Es & H2).
  exists (l1 ++ l2)%list. split; [|apply HQ; assumption].
  rewrite Es, Et. symmetry. apply List.app_assoc.
Qed.

Lemma emits_weaken {A} (Q Q' : list Firework -> Prop) (m : M A) :
  emits H Q m -> (forall l, Q l -> Q' l) -> emits H Q' m.
Proof.
  intros Hm HQ s a s' HH E. destruct (Hm _ _ _ HH E) as (new & Enew & Hnew).
  exists new. split; [exact Enew | apply HQ; exact Hnew].
Qed.

(** A loop appends the blocks of its iterations, in order. *)
Lemma emits_for_each {A} (Qx : A -> list Firework -> Prop) (l : list A)
    (body : A -> M unit) :
  (forall x, emits H (Qx x) (body x)) ->
  emits H (fun new => exists blocks,
                        new = concat blocks /\ Forall2 Qx l blocks)
    (for_each l body).
Proof.
  intros Hbody. induction l as [|x l IH]; cbn [for_each].
  - apply emits_ret. exists []. split; [reflexivity | constructor].
  - eapply emits_bind; [apply Hbody | intros _; exact IH |].
    intros l1 l2 H1 (blocks & -> & H2). exists (l1 :: blocks).
    split; [reflexivity | constructor; assumption].
Qed.

End Emits.

Lemma starts_with_app root l new :
  starts_with root l -> starts_with root (l ++ new).
Proof. intros (rest & ->). exists (rest ++ new)%list. reflexivity. Qed.

(** [fws[0]] is the root as long as [fws] starts with it. *)
Lemma first_is_root root s a s' :
  starts_with root (fws s) -> fws_first s = (Ok a, s') ->
  fws s' = fws s /\ a = root.
Proof.
  intros (rest & E). unfold fws_first. rewrite E. intros H.
  inversion H; subst. rewrite E. auto.
Qed.

Lemma Forall2_singletons_concat {A B} (P : A -> B -> Prop) l blocks :
  Forall2 (fun x b => exists y, P x y /\ b = [y]) l blocks ->
  Forall2 P l (concat blocks).
Proof.
  induction 1 as [|x b l blocks (y & Hy & ->) _ IH]; [constructor|].
  cbn [concat app]. constructor; assumption.
Qed.

(** A loop over [l] whose iterations each pair a generated list with a
    block. *)
Lemma Forall2_generated {A B C} (Gen : A -> list B -> Prop)
    (P : B -> C -> Prop) (l : list A) (blocks : list (list C)) :
  Forall2 (fun x b => exists g, Gen x g /\ Forall2 P g b) l blocks ->
  exists lists, Forall2 Gen l lists
                /\ Forall2 P (concat lists) (concat blocks).
Proof.
  induction 1 as [|x b l blocks (g & Hg & Hb) _ (lists & Hl & Hc)].
  - exists []. split; constructor.
  - exists (g :: lists). split; [constructor; assumption|].
    cbn [concat]. apply Forall2_app; assumption.
Qed.

Ltac silent lem := eapply emits_silent; [intros ? ? ? _; apply lem|].

Section Blocks.

Variable G : Namespace.
Variable acfg : Config.
Hypothesis Hcfg : g_adsorbate_config G = Some acfg.

Lemma molecules_step (slab : Slab) s (ms : list Molecule) s' :
  lift (match dict_get acfg (mi_string slab) with
        | Some ms => Ok ms
        | None => Raise (KeyError (mi_string slab))
        end) s = (Ok ms, s') ->
  fws s' = fws s /\ ms = molecules_of acfg slab.
Proof.
  intros E. apply lift_Ok_inv in E as [E ->]. split; [reflexivity|].
  unfold molecules_of. destruct (dict_get acfg (mi_string slab));
    [now inversion E | discriminate E].
Qed.

Section GetWf.

Variables (structure : Structure) (min_slab min_vac : Q).
Variables (cmd : string) (dbf : option string).
Variable root : Firework.

Lemma adsorbate_fw_body_emits slab t struct :
  emits (starts_with root)
    (fun new => exists fw,
       adsorbate_firework G structure cmd dbf root t struct fw /\ new = [fw])
    (adsorbate_fw_body G structure cmd dbf slab [t] struct).
Proof.
  unfold adsorbate_fw_body.
  silent @silent_lift. intros ads_sites _.
  silent @silent_global. intros ist _.
  silent @silent_lift. intros ins _.
  eapply emits_silent; [intros ? ? ?; apply first_is_root|].
  intros parent ->.
  silent @silent_global. intros aip Haip.
  apply emits_append. eexists. split; [|reflexivity].
  exists aip. split; [exact Haip | reflexivity].
Qed.

Lemma slab_body_emits slab :
  emits (starts_with root)
    (slab_block_gen G structure min_slab min_vac cmd dbf root acfg slab)
    (slab_body G structure min_slab min_vac cmd dbf slab).
Proof.
  unfold slab_body, slab_block_gen, slab_block_of, matching.
  silent @silent_global. intros acfg0 E. rewrite Hcfg in E.
  inversion E; subst acfg0; clear E.
  destruct (in_list (mi_string slab) (keys acfg));
    [|apply emits_ret; exists []; split; [discriminate | reflexivity]].
  silent @silent_global. intros ST HST.
  silent @silent_global. intros sh Hsh.
  silent @silent_global. intros kw Hkw.
  silent @silent_lift. intros t Ht.
  eapply emits_silent; [intros ? ? ?; apply first_is_root|].
  intros parent ->.
  silent @silent_global. intros sip Hsip.
  eapply emits_bind with
    (Q1 := fun l => l = [transmuter structure cmd dbf root t sip])
    (Q2 := fun l => exists lists,
             Forall2 (may_generate G slab) (molecules_of acfg slab) lists
             /\ Forall2 (adsorbate_firework G structure cmd dbf root t)
                  (concat lists) l);
    [apply starts_with_app | apply emits_append; reflexivity | |].
  - intros _.
    silent @silent_global. intros ASF HASF.
    silent @silent_ext_call. intros asf (n & n' & Hasf).
    silent @silent_global. intros acfg0 E. rewrite Hcfg in E.
    inversion E; subst acfg0; clear E.
    eapply emits_silent; [intros ? ? ? _; apply molecules_step|].
    intros molecules ->.
    eapply emits_weaken;
      [apply emits_for_each with
         (Qx := fun mol b => exists g, may_generate G slab mol g
                  /\ Forall2 (adsorbate_firework G structure cmd dbf root t)
                       g b);
       [apply starts_with_app|]|].
    + intros mol.
      silent @silent_ext_call. intros structures (k & k' & Hk).
      eapply emits_weaken;
        [apply emits_for_each; [apply starts_with_app|];
         intros struct; apply adsorbate_fw_body_emits|].
      intros l (blocks & -> & Hb). exists structures. split.
      * exists ASF, asf, n, n', k, k'. auto.
      * apply Forall2_singletons_concat. exact Hb.
    + intros l (blocks & -> & Hb). apply Forall2_generated. exact Hb.
  - intros l1 l2 -> (lists & Hl & Hads). exists lists.
    split; [intros _; exact Hl|].
    exists t, sip, l2. split; [reflexivity|].
    split; [exists ST, sh, kw; auto|]. split; [exact Hsip | exact Hads].
Qed.

End GetWf.

Lemma add_slab_body_emits slab :
  emits (fun _ => True) (add_block_gen G acfg slab) (add_slab_body G slab).
Proof.
  unfold add_slab_body, add_block_gen, add_block_of, matching.
  silent @silent_global. intros acfg0 E. rewrite Hcfg in E.
  inversion E; subst acfg0; clear E.
  destruct (in_list (mi_string slab) (keys acfg));
    [|apply emits_ret; exists []; split; [discriminate | reflexivity]].
  silent @silent_global. intros uis Huis.
  set (vis := MVLSlabSet (slab_structure slab) false (Some uis)).
  eapply emits_bind with
    (Q1 := fun l => l = [OptimizeFW (slab_structure slab) vis "vasp" None []])
    (Q2 := fun l => exists lists,
             Forall2 (may_generate G slab) (molecules_of acfg slab) lists
             /\ Forall2 (adsorbate_optimization G vis) (concat lists) l);
    [auto | apply emits_append; reflexivity | |].
  - intros _.
    silent @silent_global. intros ASF HASF.
    silent @silent_ext_call. intros asf (n & n' & Hasf).
    silent @silent_global. intros acfg0 E. rewrite Hcfg in E.
    inversion E; subst acfg0; clear E.
    eapply emits_silent; [intros ? ? ? _; apply molecules_step|].
    intros molecules ->.
    eapply emits_weaken;
      [apply emits_for_each with
         (Qx := fun mol b => exists g, may_generate G slab mol g
                  /\ Forall2 (adsorbate_optimization G vis) g b);
       [auto|]|].
    + intros mol.
      silent @silent_ext_call. intros structures (k & k' & Hk).
      eapply emits_weaken;
        [apply emits_for_each with
           (Qx := fun struct b => exists fw,
                    adsorbate_optimization G vis struct fw /\ b = [fw]);
         [auto|]|].
      * intros struct.
        silent @silent_global. intros vcmd Hcmd.
        silent @silent_global. intros vdbf Hdbf.
        apply emits_append. eexists. split; [|reflexivity].
        exists vcmd, vdbf. auto.
      * intros l (blocks & -> & Hb). exists structures. split.
        -- exists ASF, asf, n, n', k, k'. auto.
        -- apply Forall2_singletons_concat. exact Hb.
    + intros l (blocks & -> & Hb). apply Forall2_generated. exact Hb.
  - intros l1 l2 -> (lists & Hl & Hads). exists lists.
    split; [intros _; exact Hl|].
    exists uis, l2. split; [exact Huis|]. split; [reflexivity | exact Hads].
Qed.

End Blocks.

Lemma generated_as_given (G : Namespace)
    (structs : Slab -> Molecule -> list Structure) slab ms lists :
  generates G structs ->
  Forall2 (may_generate G slab) ms lists ->
  concat lists = flat_map (structs slab) ms.
Proof.
  intros HG. induction 1 as [|mol l ms lists Hl _ IH]; [reflexivity|].
  cbn [concat flat_map]. rewrite IH. f_equal.
  destruct Hl as (ASF & asf & n & n' & k & k' & HASF & Hasf & Hk).
  exact (HG _ _ _ _ _ _ _ _ _ HASF Hasf Hk).
Qed.

Lemma slab_block_gen_given G structure min_slab min_vac cmd dbf root acfg
    structs slab new :
  generates G structs ->
  slab_block_gen G structure min_slab min_vac cmd dbf root acfg slab new ->
  slab_block G structure min_slab min_vac cmd dbf root acfg structs slab new.
Proof.
  intros HG (lists & Hl & Hb). unfold slab_block, slab_block_of in *.
  destruct (matching acfg slab); [|exact Hb].
  unfold adsorption_structures.
  rewrite <- (generated_as_given G structs slab _ lists HG (Hl eq_refl)).
  exact Hb.
Qed.

Lemma add_block_gen_given G acfg structs slab new :
  generates G structs ->
  add_block_gen G acfg slab new -> add_block G acfg structs slab new.
Proof.
  intros HG (lists & Hl & Hb). unfold add_block, add_block_of in *.
  destruct (matching acfg slab); [|exact Hb].
  unfold adsorption_structures.
  rewrite <- (generated_as_given G structs slab _ lists HG (Hl eq_refl)).
  exact Hb.
Qed.

Lemma check_keys_Ok_inv mi_strings ks s s' :
  for_each ks (check_key mi_strings) s = (Ok tt, s') ->
  forallb (fun k => in_list k mi_strings) ks = true /\ s' = s.
Proof.
  intros E.
  destruct (forallb (fun k => in_list k mi_strings) ks) eqn:Hall.
  - rewrite (check_keys_accepts _ _ _ Hall) in E. inversion E. auto.
  - rewrite (check_keys_rejects _ _ _ Hall) in E. discriminate E.
Qed.

(** A returned workflow, taken apart: the slabs that were generated, the
    validation they passed and the block each of them appended. *)
Lemma get_wf_adsorption_blocks
    (G : Namespace) (structure : Structure) (cfg acfg : Config)
    (vis : option VaspInputSet) (min_slab min_vac : Q) (mns : Z)
    (center : bool) (cmd : string) (dbf : option string)
    (s s' : State) (wf : Workflow) :
  get_wf_adsorption G structure cfg vis min_slab min_vac mns center cmd dbf s
  = (Ok wf, s') ->
  g_adsorbate_config G = Some acfg ->
  exists slabs blocks,
    generated_slabs G cfg min_slab min_vac mns center s slabs
    /\ forallb (fun k => in_list k (map mi_string slabs)) (keys acfg) = true
    /\ wf_fws wf = root_of structure vis cmd dbf :: concat blocks
    /\ Forall2 (slab_block_gen G structure min_slab min_vac cmd dbf
                  (root_of structure vis cmd dbf) acfg) slabs blocks.
Proof.
  intros H Hcfg. unfold get_wf_adsorption in H.
  fold (root_of structure vis cmd dbf) in H.
  set (root := root_of structure vis cmd dbf) in *.
  apply bind_Ok_inv in H as (u1 & t1 & E1 & H). inversion E1; subst u1 t1.
  apply bind_Ok_inv in H as (u2 & t2 & E2 & H).
  unfold fws_append in E2. inversion E2; subst u2 t2. clear E1 E2.
  cbn [fws set_fws app] in H.
  apply bind_Ok_inv in H as (digits & t3 & E & H).
  apply lift_Ok_inv in E as [Hds ->].
  apply bind_Ok_inv in H as (m & t4 & E & H).
  apply lift_Ok_inv in E as [Hm ->].
  apply bind_Ok_inv in H as (gen & t5 & E & H).
  apply global_Ok_inv in E as [Hgen ->].
  apply bind_Ok_inv in H as (os & t6 & E & H).
  apply global_Ok_inv in E as [Hos ->].
  apply bind_Ok_inv in H as (slabs & t7 & E & H).
  apply ext_call_Ok_inv in E as (n & Hcall & ->).
  cbn [ext] in Hcall.
  apply bind_Ok_inv in H as (acfg0 & t8 & E & H).
  apply global_Ok_inv in E as [E ->]. rewrite Hcfg in E.
  inversion E; subst acfg0; clear E.
  apply bind_Ok_inv in H as ([] & t9 & E & H).
  apply check_keys_Ok_inv in E as [Hkeys ->].
  apply bind_Ok_inv in H as (u10 & t10 & E & H).
  apply (emits_for_each (starts_with root) (starts_with_app root)
           (slab_block_gen G structure min_slab min_vac cmd dbf root acfg))
    in E as (new & Enew & blocks & -> & Hblocks);
    [| intros slab; apply slab_body_emits; exact Hcfg
     | exists []; reflexivity].
  cbn [fws set_ext set_fws app] in Enew.
  apply bind_Ok_inv in H as (l & t11 & E & H).
  unfold get_fws in E. inversion E; subst l t11.
  unfold ret in H. inversion H; subst wf s'. cbn [wf_fws].
  exists slabs, blocks. split; [|split; [exact Hkeys | split; assumption]].
  exists gen, os, m, n. split; [exact Hgen|]. split; [exact Hos|].
  split; [|exact Hcall]. unfold max_index_of. rewrite Hds. exact Hm.
Qed.

Lemma generates_bound :
  generates bound_namespace
    (fun _ _ => [placement "CO-top"; placement "CO-bridge"]).
Proof.
  intros ASF slab asf mol n n' k k' l HASF Hasf Hk.
  cbn in HASF. inversion HASF; subst ASF. cbn in Hasf.
  inversion Hasf; subst asf. cbn in Hk. inversion Hk. reflexivity.
Qed.

(** X7: a workflow [get_wf_adsorption] returns lists, after the root
    optimization, one block per generated slab in the order of the
    slabs: nothing for a slab whose key is not in [adsorbate_config],
    else the firework of the slab followed by one firework per
    adsorption structure of its molecules.  The fireworks of a block all
    carry the transformation of the slab alone, and the fireworks for
    the adsorption structures of a slab do not differ from one
    another. *)
Theorem X7_workflow_is_root_then_slab_blocks
    (G : Namespace) (structure : Structure) (cfg acfg : Config)
    (structs : Slab -> Molecule -> list Structure)
    (vis : option VaspInputSet) (min_slab min_vac : Q) (mns : Z)
    (center : bool) (cmd : string) (dbf : option string)
    (s s' : State) (wf : Workflow) :
  get_wf_adsorption G structure cfg vis min_slab min_vac mns center cmd dbf s
  = (Ok wf, s') ->
  g_adsorbate_config G = Some acfg ->
  generates G structs ->
  exists slabs blocks,
    generated_slabs G cfg min_slab min_vac mns center s slabs
    /\ wf_fws wf = root_of structure vis cmd dbf :: concat blocks
    /\ Forall2 (slab_block G structure min_slab min_vac cmd dbf
                  (root_of structure vis cmd dbf) acfg structs) slabs blocks.
Proof.
  intros H Hcfg HG.
  destruct (get_wf_adsorption_blocks _ _ _ _ _ _ _ _ _ _ _ _ _ _ H Hcfg)
    as (slabs & blocks & Hslabs & _ & Hfws & Hblocks).
  exists slabs, blocks. split; [exact Hslabs|]. split; [exact Hfws|].
  eapply Forall2_impl; [exact Hblocks|].
  intros slab new. apply slab_block_gen_given. exact HG.
Qed.

Lemma X7_witness_bound_namespace :
  exists slabs blocks,
    generated_slabs bound_namespace [("111", [CO])] 7 12 1 true s0 slabs
    /\ wf_fws bound_wf = root_of Si None "vasp" None :: concat blocks
    /\ Forall2 (slab_block bound_namespace Si 7 12 "vasp" None
                  (root_of Si None "vasp" None) [("111", [CO])]
                  (fun _ _ => [placement "CO-top"; placement "CO-bridge"]))
         slabs blocks.
Proof.
  apply (X7_workflow_is_root_then_slab_blocks bound_namespace Si
           [("111", [CO])] [("111", [CO])]
           (fun _ _ => [placement "CO-top"; placement "CO-bridge"])
           None 7 12 1 true "vasp" None s0 bound_final bound_wf).
  - vm_compute. reflexivity.
  - reflexivity.
  - exact generates_bound.
Defined.

Lemma in_list_In (k : string) (l : list string) :
  in_list k l = true <-> In k l.
Proof.
  unfold in_list. rewrite existsb_exists. split.
  - intros (x & Hx & E). apply String.eqb_eq in E. now subst.
  - intros Hk. exists k. split; [exact Hk | apply String.eqb_refl].
Qed.

Lemma Forall2_In_l {A B} (P : A -> B -> Prop) l l' x :
  Forall2 P l l' -> In x l -> exists y, In y l' /\ P x y.
Proof.
  induction 1 as [|a b l l' Hab _ IH]; intros Hx; [destruct Hx|].
  destruct Hx as [->|Hx].
  - exists b. split; [now left | exact Hab].
  - destruct (IH Hx) as (y & Hy & HP). exists y. split; [now right | exact HP].
Qed.

(** X8: the validation of lines 126-129 and the loop of lines 131-168
    fit together: in a workflow that is returned, every key of
    [adsorbate_config] is the key of a generated slab, and the workflow
    holds the firework of that slab. *)
Theorem X8_every_configured_key_has_a_slab_firework
    (G : Namespace) (structure : Structure) (cfg acfg : Config)
    (vis : option VaspInputSet) (min_slab min_vac : Q) (mns : Z)
    (center : bool) (cmd : string) (dbf : option string)
    (s s' : State) (wf : Workflow) (key : string) :
  get_wf_adsorption G structure cfg vis min_slab min_vac mns center cmd dbf s
  = (Ok wf, s') ->
  g_adsorbate_config G = Some acfg ->
  In key (keys acfg) ->
  exists slabs slab t sip,
    generated_slabs G cfg min_slab min_vac mns center s slabs
    /\ In slab slabs /\ mi_string slab = key
    /\ slab_transformation G min_slab min_vac slab t
    /\ g_slab_input_params G = Some sip
    /\ In (transmuter structure cmd dbf (root_of structure vis cmd dbf) t sip)
         (wf_fws wf).
Proof.
  intros H Hcfg Hkey.
  destruct (get_wf_adsorption_blocks _ _ _ _ _ _ _ _ _ _ _ _ _ _ H Hcfg)
    as (slabs & blocks & Hslabs & Hall & Hfws & Hblocks).
  rewrite forallb_forall in Hall. specialize (Hall key Hkey).
  apply in_list_In, in_map_iff in Hall as (slab & Hmi & Hslab).
  destruct (Forall2_In_l _ _ _ _ Hblocks Hslab)
    as (block & Hblock & lists & _ & Hb).
  unfold slab_block_of, matching in Hb.
  assert (Hm : in_list (mi_string slab) (keys acfg) = true)
    by (apply in_list_In; rewrite Hmi; exact Hkey).
  rewrite Hm in Hb. destruct Hb as (t & sip & ads & -> & Ht & Hsip & _).
  exists slabs, slab, t, sip. repeat (split; [assumption|]).
  rewrite Hfws. right. apply in_concat.
  eexists. split; [exact Hblock | now left].
Qed.

Lemma X8_witness_bound_namespace :
  exists slabs slab t sip,
    generated_slabs bound_namespace [("111", [CO])] 7 12 1 true s0 slabs
    /\ In slab slabs /\ mi_string slab = "111"
    /\ slab_transformation bound_namespace 7 12 slab t
    /\ g_slab_input_params bound_namespace = Some sip
    /\ In (transmuter Si "vasp" None (root_of Si None "vasp" None) t sip)
         (wf_fws bound_wf).
Proof.
  apply (X8_every_configured_key_has_a_slab_firework bound_namespace Si
           [("111", [CO])] [("111", [CO])] None 7 12 1 true "vasp" None
           s0 bound_final bound_wf "111").
  - vm_compute. reflexivity.
  - reflexivity.
  - now left.
Defined.

(** ** No adsorbate configured *)

Lemma for_each_skip {A} (l : list A) (body : A -> M unit) (s : State) :
  (forall x, body x s = (Ok tt, s)) -> for_each l body s = (Ok tt, s).
Proof.
  intros Hbody. induction l as [|x l IH]; [reflexivity|].
  cbn [for_each]. unfold bind. rewrite Hbody. exact IH.
Qed.

(** X15: with an empty [adsorbate_config] nothing is validated and no
    slab matches: once the slabs are generated, the call returns the
    workflow of the root optimization alone, however many slabs there
    are. *)
Theorem X15_empty_adsorbate_config_gives_root_only
    (G : Namespace) (structure : Structure) (cfg : Config)
    (vis : option VaspInputSet) (min_slab min_vac : Q) (mns : Z)
    (center : bool) (cmd : string) (dbf : option string) (s : State)
    gen os m slabs n :
  g_generate_decorated_slabs G = Some gen ->
  g_opt_struct G = Some os ->
  g_adsorbate_config G = Some [] ->
  max_index_of cfg = Ok m ->
  gen os {| arg_max_index := Some m; arg_min_slab_size := Some min_slab;
            arg_min_vacuum_size := Some min_vac;
            arg_max_normal_search := Some mns;
            arg_center_slab := Some center |} (ext s) = (Ok slabs, n) ->
  get_wf_adsorption G structure cfg vis min_slab min_vac mns center cmd dbf s
  = (Ok {| wf_fws := [root_of structure vis cmd dbf];
           wf_name := reduced_formula structure ++ ":" ++ "elastic constants" |},
     set_ext n (set_fws [root_of structure vis cmd dbf] s)).
Proof.
  intros Hgen Hos Hcfg Hm Hcall. unfold max_index_of in Hm.
  destruct (map_result int_of_char (list_ascii_of_string (join (keys cfg))))
    as [ds|e] eqn:Hds; [|discriminate Hm].
  unfold get_wf_adsorption.
  cbv beta iota delta [bind fws_append lift].
  rewrite Hds, Hm, Hgen, Hos, Hcfg. cbn [global ret].
  unfold ext_call. cbn [ext set_fws]. rewrite Hcall.
  cbn [keys map for_each ret].
  rewrite for_each_skip.
  - reflexivity.
  - intros slab. unfold slab_body, bind. rewrite Hcfg. reflexivity.
Qed.

Lemma X15_witness_no_adsorbates :
  get_wf_adsorption no_adsorbate_namespace Si [("111", [CO])] None 7 12 1
    true "vasp" None s0
  = (Ok {| wf_fws := [root_of Si None "vasp" None];
           wf_name := "Si" ++ ":" ++ "elastic constants" |},
     set_ext 1 (set_fws [root_of Si None "vasp" None] s0)).
Proof.
  apply (X15_empty_adsorbate_config_gives_root_only no_adsorbate_namespace
           Si [("111", [CO])] None 7 12 1 true "vasp" None s0
           (fun _ _ n => (Ok [slab_111; slab_100], S n)) Si 1
           [slab_111; slab_100] 1%nat);
    reflexivity.
Defined.

(** ** [AddAdsorptionTasks.run_task], its body (lines 184-212) *)

(** A returned action, taken apart. *)
Lemma AddAdsorptionTasks_body_blocks (I : Imports) (G : Namespace)
    (acfg : Config) (self : Task) (s s' : State) (r : option FWAction) :
  AddAdsorptionTasks_body I G self s = (Ok r, s') ->
  g_adsorbate_config G = Some acfg ->
  exists act slabs blocks,
    r = Some act
    /\ default_slabs G slabs
    /\ Forall2 (add_block_gen G acfg) slabs blocks
    /\ returned_additions G (concat blocks) act.
Proof.
  intros H Hcfg. unfold AddAdsorptionTasks_body in H.
  apply bind_Ok_inv in H as (spec & t1 & E & H).
  apply lift_Ok_inv in E as [_ ->].
  apply bind_Ok_inv in H as (locs & t2 & E & H).
  apply lift_Ok_inv in E as [_ ->].
  apply bind_Ok_inv in H as (loc & t3 & E & H).
  apply lift_Ok_inv in E as [_ ->].
  apply bind_Ok_inv in H as (optimize_loc & t4 & E & H).
  apply lift_Ok_inv in E as [_ ->].
  apply bind_Ok_inv in H as (u5 & t5 & E & H).
  unfold logger_info in E. inversion E; subst u5 t5; clear E.
  apply bind_Ok_inv in H as (doc & t6 & E & H).
  apply ext_call_Ok_inv in E as (n6 & _ & ->).
  apply bind_Ok_inv in H as (calcs & t7 & E & H).
  apply lift_Ok_inv in E as [_ ->].
  apply bind_Ok_inv in H as (calc & t8 & E & H).
  apply lift_Ok_inv in E as [_ ->].
  apply bind_Ok_inv in H as (sd & t9 & E & H).
  apply lift_Ok_inv in E as [_ ->].
  apply bind_Ok_inv in H as (os & t10 & E & H).
  apply lift_Ok_inv in E as [_ ->].
  apply bind_Ok_inv in H as (gen & t11 & E & H).
  apply global_Ok_inv in E as [Hgen ->].
  apply bind_Ok_inv in H as (slabs & t12 & E & H).
  apply ext_call_Ok_inv in E as (n12 & Hcall & ->).
  apply bind_Ok_inv in H as (u13 & t13 & E & H).
  inversion E; subst u13 t13; clear E.
  apply bind_Ok_inv in H as (u14 & t14 & E & H).
  apply (emits_for_each (fun _ => True) (fun _ _ _ => Logic.I)
           (add_block_gen G acfg))
    in E as (new & Enew & blocks & -> & Hblocks);
    [| intros slab; apply add_slab_body_emits; exact Hcfg | exact Logic.I].
  cbn [fws set_fws app] in Enew.
  apply bind_Ok_inv in H as (iu & t15 & E & H).
  apply global_Ok_inv in E as [Hiu ->].
  apply bind_Ok_inv in H as (u16 & t16 & E & H).
  apply bind_Ok_inv in H as (l & t17 & E17 & H).
  unfold get_fws in E17. inversion E17; subst l t17; clear E17.
  unfold ret in H. inversion H; subst r s'; clear H.
  eexists. exists slabs, blocks. split; [reflexivity|].
  split; [exists gen, os; eauto|]. split; [exact Hblocks|].
  exists iu. split; [exact Hiu|]. cbn [additions].
  destruct (truthy iu).
  - apply bind_Ok_inv in E as (ami & t18 & E18 & E).
    apply global_Ok_inv in E18 as [Hami ->].
    apply bind_Ok_inv in E as (l & t19 & E19 & E).
    unfold get_fws in E19. inversion E19; subst l t19; clear E19.
    apply bind_Ok_inv in E as (l' & t20 & E20 & E).
    apply lift_Ok_inv in E20 as [Hl' ->].
    inversion E; subst. cbn [fws set_fws].
    exists ami. split; [exact Hami|]. rewrite <- Enew. exact Hl'.
  - inversion E; subst. exact Enew.
Qed.

(** X9: where the body of [AddAdsorptionTasks.run_task] returns, it
    returns an action whose additions are built from one block per
    generated slab, in the order of the slabs: nothing for a slab whose
    key is not in [adsorbate_config], else the optimization of the slab
    followed by one optimization per adsorption structure of its
    molecules, all without parents and with the input set of the slab.
    The additions are that list when [incar_update] is empty, and what
    [add_modify_incar] makes of it otherwise. *)
Theorem X9_additions_are_slab_blocks
    (I : Imports) (G : Namespace) (acfg : Config)
    (structs : Slab -> Molecule -> list Structure)
    (self : Task) (s s' : State) (r : option FWAction) :
  AddAdsorptionTasks_body I G self s = (Ok r, s') ->
  g_adsorbate_config G = Some acfg ->
  generates G structs ->
  exists act slabs blocks,
    r = Some act
    /\ default_slabs G slabs
    /\ Forall2 (add_block G acfg structs) slabs blocks
    /\ returned_additions G (concat blocks) act.
Proof.
  intros H Hcfg HG.
  destruct (AddAdsorptionTasks_body_blocks _ _ _ _ _ _ _ H Hcfg)
    as (act & slabs & blocks & Hr & Hslabs & Hblocks & Hret).
  exists act, slabs, blocks. split; [exact Hr|]. split; [exact Hslabs|].
  split; [|exact Hret].
  eapply Forall2_impl; [exact Hblocks|].
  intros slab new. apply add_block_gen_given. exact HG.
Qed.

Lemma X9_witness_bound_namespace :
  exists act slabs blocks,
    Some {| additions := bound_additions |} = Some act
    /\ default_slabs bound_namespace slabs
    /\ Forall2 (add_block bound_namespace [("111", [CO])]
                  (fun _ _ => [placement "CO-top"; placement "CO-bridge"]))
         slabs blocks
    /\ returned_additions bound_namespace (concat blocks) act.
Proof.
  apply (X9_additions_are_slab_blocks si_imports bound_namespace
           [("111", [CO])]
           (fun _ _ => [placement "CO-top"; placement "CO-bridge"])
           add_task_with_spec s0
           (snd (AddAdsorptionTasks_body si_imports bound_namespace
                   add_task_with_spec s0))
           (Some {| additions := bound_additions |})).
  - vm_compute. reflexivity.
  - reflexivity.
  - exact generates_bound.
Defined.

Lemma last_opt_app {A} (l : list A) (x : A) : last_opt (l ++ [x]) = Some x.
Proof.
  unfold last_opt. rewrite map_app. cbn [map]. apply last_last.
Qed.

Lemma last_opt_Some {A} (l : list A) (x : A) :
  last_opt l = Some x -> exists l', l = (l' ++ [x])%list.
Proof.
  induction l as [|y l _] using rev_ind; intros E; [discriminate E|].
  rewrite last_opt_app in E. inversion E; subst. now exists l.
Qed.

Lemma bind_lift_Ok {A B} (a : A) (k : A -> M B) s :
  bind (lift (Ok a)) k s = k a s.
Proof. reflexivity. Qed.

(** The body, for a task whose spec has a last location with a path. *)
Lemma AddAdsorptionTasks_body_at_path (I : Imports) (G : Namespace)
    (self : Task) (sp : Spec) (locs : list (pydict string))
    (loc : pydict string) (p : string) (s : State) :
  getattr_spec self = Ok sp ->
  calc_locs sp = Some (locs ++ [loc])%list ->
  dict_get loc "path" = Some p ->
  AddAdsorptionTasks_body I G self s
  = AddAdsorptionTasks_body I G
      (task_with_spec {| calc_locs := Some [[("path", p)]]; fw_env := [] |}) s.
Proof.
  intros Hsp Hlocs Hp. unfold AddAdsorptionTasks_body.
  rewrite Hsp. rewrite bind_lift_Ok. rewrite Hlocs. rewrite bind_lift_Ok.
  rewrite last_opt_app. rewrite bind_lift_Ok. rewrite Hp.
  reflexivity.
Qed.

(** X10: of the task and its spec, the body of
    [AddAdsorptionTasks.run_task] reads the path of the last calc
    location and nothing else: two tasks whose last locations have the
    same path give the same result from the same state, whatever their
    parameters, among them the required [adsorption_config], and their
    earlier locations are. *)
Theorem X10_only_the_last_path_is_read
    (I : Imports) (G : Namespace) (self1 self2 : Task) (sp1 sp2 : Spec)
    (locs1 locs2 : list (pydict string)) (loc1 loc2 : pydict string)
    (p : string) (s : State) :
  getattr_spec self1 = Ok sp1 ->
  getattr_spec self2 = Ok sp2 ->
  calc_locs sp1 = Some (locs1 ++ [loc1])%list ->
  calc_locs sp2 = Some (locs2 ++ [loc2])%list ->
  dict_get loc1 "path" = Some p ->
  dict_get loc2 "path" = Some p ->
  AddAdsorptionTasks_body I G self1 s = AddAdsorptionTasks_body I G self2 s.
Proof.
  intros H1 H2 L1 L2 P1 P2.
  rewrite (AddAdsorptionTasks_body_at_path I G self1 sp1 locs1 loc1 p s H1 L1 P1).
  rewrite (AddAdsorptionTasks_body_at_path I G self2 sp2 locs2 loc2 p s H2 L2 P2).
  reflexivity.
Qed.

Lemma X10_witness_two_tasks :
  AddAdsorptionTasks_body si_imports bound_namespace add_task_with_spec s0
  = AddAdsorptionTasks_body si_imports bound_namespace
      (task_with_spec
         {| calc_locs := Some [[("path", "/scratch/launcher_bulk")];
                               [("path", "/scratch/launcher_opt")]];
            fw_env := [("vasp_cmd", "vasp_std")] |}) s0.
Proof.
  apply (X10_only_the_last_path_is_read si_imports bound_namespace
           add_task_with_spec
           (task_with_spec
              {| calc_locs := Some [[("path", "/scratch/launcher_bulk")];
                                    [("path", "/scratch/launcher_opt")]];
                 fw_env := [("vasp_cmd", "vasp_std")] |})
           root_spec
           {| calc_locs := Some [[("path", "/scratch/launcher_bulk")];
                                 [("path", "/scratch/launcher_opt")]];
              fw_env := [("vasp_cmd", "vasp_std")] |}
           []
           [[("path", "/scratch/launcher_bulk")]]
           [("name", "structure optimization");
            ("path", "/scratch/launcher_opt")]
           [("path", "/scratch/launcher_opt")]
           "/scratch/launcher_opt" s0);
    reflexivity.
Defined.

(** X11: a spec without a path to parse stops the body before anything
    is logged or parsed: without [calc_locs] it raises [KeyError], with an
    empty list [IndexError], with a last location that has no path
    [KeyError], and the state is as before. *)
Theorem X11_missing_location_raises
    (I : Imports) (G : Namespace) (self : Task) (sp : Spec) (s : State) :
  getattr_spec self = Ok sp ->
  (forall locs loc, calc_locs sp = Some (locs ++ [loc])%list ->
                    dict_get loc "path" = None) ->
  AddAdsorptionTasks_body I G self s
  = (Raise (match calc_locs sp with
            | None => KeyError "calc_locs"
            | Some [] => IndexError
            | Some _ => KeyError "path"
            end), s).
Proof.
  intros Hsp Hno. unfold AddAdsorptionTasks_body.
  rewrite Hsp. rewrite bind_lift_Ok.
  destruct (calc_locs sp) as [locs|]; [|reflexivity].
  rewrite bind_lift_Ok.
  destruct (last_opt locs) as [loc|] eqn:Elast.
  - destruct (last_opt_Some _ _ Elast) as (l' & ->).
    rewrite bind_lift_Ok. rewrite (Hno l' loc eq_refl).
    destruct l'; reflexivity.
  - destruct locs as [|x locs] using rev_ind; [reflexivity|].
    rewrite last_opt_app in Elast. discriminate Elast.
Qed.

Lemma X11_witness_no_location :
  AddAdsorptionTasks_body si_imports bound_namespace
    (task_with_spec {| calc_locs := Some []; fw_env := [] |}) s0
  = (Raise IndexError, s0).
Proof.
  apply (X11_missing_location_raises si_imports bound_namespace
           (task_with_spec {| calc_locs := Some []; fw_env := [] |})
           {| calc_locs := Some []; fw_env := [] |} s0).
  - reflexivity.
  - intros [|x locs] loc E; discriminate E.
Defined.

(** ** What the body logs *)

Lemma quiet_ret {A} (a : A) : quiet (ret a).
Proof. intros s. reflexivity. Qed.

Lemma quiet_raise {A} (e : exn) : quiet (@raise A e).
Proof. intros s. reflexivity. Qed.

Lemma quiet_lift {A} (r : result A) : quiet (lift r).
Proof. intros s. reflexivity. Qed.

Lemma quiet_global {A} name (b : option A) : quiet (global name b).
Proof. intros s. destruct b; reflexivity. Qed.

Lemma quiet_ext_call {A} (c : ExtCall A) : quiet (ext_call c).
Proof. intros s. unfold ext_call. destruct (c (ext s)). reflexivity. Qed.

Lemma quiet_append fw : quiet (fws_append fw).
Proof. intros s. reflexivity. Qed.

Lemma quiet_get_fws : quiet get_fws.
Proof. intros s. reflexivity. Qed.

Lemma quiet_set_fws l : quiet (fun s => (Ok tt, set_fws l s)).
Proof. intros s. reflexivity. Qed.

Lemma quiet_bind {A B} (m : M A) (f : A -> M B) :
  quiet m -> (forall a, quiet (f a)) -> quiet (bind m f).
Proof.
  intros Hm Hf s. unfold bind. specialize (Hm s).
  destruct (m s) as [[a|e] t]; cbn [snd] in Hm.
  - rewrite Hf. exact Hm.
  - exact Hm.
Qed.

Lemma quiet_for_each {A} (l : list A) (body : A -> M unit) :
  (forall x, quiet (body x)) -> quiet (for_each l body).
Proof.
  intros Hbody. induction l as [|x l IH]; cbn [for_each].
  - apply quiet_ret.
  - apply quiet_bind; [apply Hbody | intros _; exact IH].
Qed.

Ltac quiet_steps :=
  repeat first
    [ apply quiet_ret | apply quiet_raise | apply quiet_lift
    | apply quiet_global | apply quiet_ext_call | apply quiet_append
    | apply quiet_get_fws | apply quiet_set_fws
    | apply quiet_for_each; intros ?
    | apply quiet_bind; [|intros ?]
    | match goal with
      | |- quiet (if ?b then _ else _) => destruct b
      end ].

Lemma bind_logger_info {B} (m : string) (k : unit -> M B) s :
  bind (logger_info m) k s = k tt (add_log m s).
Proof. reflexivity. Qed.

(** X12: once the path of the last calc location is found, the body
    gives the directory it parses to its logger, and that is the only
    message it gives to it, whether it returns or raises afterwards. *)
Theorem X12_parsed_directory_is_logged_once
    (I : Imports) (G : Namespace) (self : Task) (sp : Spec)
    (locs : list (pydict string)) (loc : pydict string) (p : string)
    (s : State) :
  getattr_spec self = Ok sp ->
  calc_locs sp = Some (locs ++ [loc])%list ->
  dict_get loc "path" = Some p ->
  log (snd (AddAdsorptionTasks_body I G self s))
  = (log s ++ [parsing_message p])%list.
Proof.
  intros Hsp Hlocs Hp. unfold AddAdsorptionTasks_body.
  rewrite Hsp, bind_lift_Ok, Hlocs, bind_lift_Ok, last_opt_app,
    bind_lift_Ok, Hp, bind_lift_Ok, bind_logger_info.
  match goal with
  | |- log (snd (?m ?st)) = _ => assert (Hq : quiet m)
  end.
  { quiet_steps. }
  rewrite Hq. reflexivity.
Qed.

Lemma X12_witness_root_spec :
  log (snd (AddAdsorptionTasks_body si_imports bound_namespace
              add_task_with_spec s0))
  = (log s0 ++ [parsing_message "/scratch/launcher_opt"])%list.
Proof.
  apply (X12_parsed_directory_is_logged_once si_imports bound_namespace
           add_task_with_spec root_spec []
           [("name", "structure optimization");
            ("path", "/scratch/launcher_opt")]
           "/scratch/launcher_opt" s0);
    reflexivity.
Defined.

(** ** The sites of a slab (lines 152-153) *)

Lemma filter_result_undecorated (l : list Site) :
  (exists site, In site l
                /\ dict_get (site_properties site) "surface_properties" = None) ->
  filter_result is_adsorbate l = Raise (KeyError "surface_properties").
Proof.
  induction l as [|x l IH]; intros (site & Hin & Hnone); [destruct Hin|].
  change (filter_result is_adsorbate (x :: l))
    with (match is_adsorbate x with
          | Raise e => Raise e
          | Ok b => match filter_result is_adsorbate l with
                    | Raise e => Raise e
                    | Ok ys => Ok (if b then x :: ys else ys)
                    end
          end).
  unfold is_adsorbate at 1.
  destruct (dict_get (site_properties x) "surface_properties") as [v|] eqn:Ex;
    [|reflexivity].
  destruct Hin as [->|Hin]; [congruence|].
  rewrite IH by (exists site; auto). reflexivity.
Qed.

(** X13: every site of a matching slab must carry [surface_properties]:
    if one does not, the body of the inner loop raises [KeyError] for it
    at the first adsorption structure, in every namespace, and appends
    nothing. *)
Theorem X13_undecorated_site_raises_KeyError
    (G : Namespace) (structure : Structure) (cmd : string)
    (dbf : option string) (slab : Slab) (trans : list Transformation)
    (struct : Structure) (s : State) :
  undecorated slab ->
  adsorbate_fw_body G structure cmd dbf slab trans struct s
  = (Raise (KeyError "surface_properties"), s).
Proof.
  intros Hbare. unfold adsorbate_fw_body, bind, lift.
  rewrite (filter_result_undecorated _ Hbare). reflexivity.
Qed.

Lemma X13_witness_bare_slab :
  adsorbate_fw_body bound_namespace Si "vasp" None bare_slab
    [SlabTrans [1; 1; 1] 7 12 0 []] (placement "CO-top") s0
  = (Raise (KeyError "surface_properties"), s0).
Proof.
  apply (X13_undecorated_site_raises_KeyError bound_namespace Si "vasp" None
           bare_slab [SlabTrans [1; 1; 1] 7 12 0 []] (placement "CO-top") s0).
  eexists. split; [right; left; reflexivity | reflexivity].
Defined.

(** * The aggregation task under the scheduler of the specification *)

Module SchedulerFacts.
Import Scheduler.

(** ** Graphs that differ in the states only *)

Lemma with_state_same n : with_state (state n) n = n.
Proof. destruct n; reflexivity. Qed.

Lemma restated_refl g : restated g g.
Proof.
  intros x. destruct (g !! x) as [n|] eqn:E; [|reflexivity].
  exists (state n). now rewrite with_state_same.
Qed.

Lemma restated_trans g1 g2 g3 : restated g1 g2 -> restated g2 g3 -> restated g1 g3.
Proof.
  intros H12 H23 x. specialize (H12 x). specialize (H23 x).
  destruct (g1 !! x) as [n|].
  - destruct H12 as (st & E). rewrite E in H23. destruct H23 as (st' & E').
    exists st'. now rewrite E'.
  - now rewrite H12 in H23.
Qed.

Lemma restated_dom g g' : restated g g' -> dom g' = dom g.
Proof.
  intros H. apply set_eq. intros x. rewrite !elem_of_dom.
  specialize (H x). destruct (g !! x) as [n|].
  - destruct H as (st & ->). split; intros _; eauto.
  - rewrite H. reflexivity.
Qed.

Lemma restated_size g g' : restated g g' -> size g' = size g.
Proof.
  intros H. rewrite <- !size_dom. now rewrite (restated_dom g g' H).
Qed.

Section Facts.
Variable allow_partial : bool.
Variables root agg : nat.
Hypothesis Hne : root <> agg.

Local Abbreviation chained := (Scheduler.chained root agg).
Local Abbreviation shaped := (Scheduler.shaped root agg).
Local Abbreviation wf := (Scheduler.wf allow_partial root agg).
Local Abbreviation frozen := (Scheduler.frozen allow_partial agg).
Local Abbreviation summary := (Scheduler.summary allow_partial root agg).
Local Abbreviation agg_step := (Scheduler.agg_step allow_partial root agg).
Local Abbreviation settled := (Scheduler.settled allow_partial).
Local Abbreviation finished := (Scheduler.finished allow_partial root agg).
Local Abbreviation frontier_closed :=
  (Scheduler.frontier_closed allow_partial root agg).
Local Abbreviation agg_check := (Scheduler.agg_check allow_partial root agg).
Local Abbreviation all_others_settled :=
  (Scheduler.all_others_settled allow_partial agg).
Local Abbreviation step := (Scheduler.step allow_partial root agg).
Local Abbreviation run := (Scheduler.run allow_partial root agg).
Local Abbreviation ready_transitions :=
  (Scheduler.ready_transitions allow_partial root agg).

Lemma restated_spawned_under g g' k x :
  restated g g' -> spawned_under root k g' x = spawned_under root k g x.
Proof.
  intros H. revert x. induction k as [|k IH]; intros x; cbn [spawned_under].
  - reflexivity.
  - f_equal. specialize (H x). destruct (g !! x) as [n|].
    + destruct H as (st & ->). cbn. destruct (spawned_by n); [apply IH|reflexivity].
    + now rewrite H.
Qed.

Lemma promote_lookup sel g x :
  promote agg sel g !! x
  = (fun n => if sel x n && negb (Nat.eqb x agg)
                 && status_eqb (state n) Pending && deps_completed g n
              then with_state Ready n else n) <$> g !! x.
Proof.
  unfold promote. rewrite map_lookup_imap.
  destruct (g !! x); reflexivity.
Qed.

Lemma promote_restated sel g : restated g (promote agg sel g).
Proof.
  intros x. rewrite promote_lookup. destruct (g !! x) as [n|]; cbn; [|reflexivity].
  match goal with |- context [if ?b then _ else _] => destruct b end.
  - eauto.
  - exists (state n). now rewrite with_state_same.
Qed.

Lemma fail_round_lookup g x :
  fail_round g !! x
  = (fun n => if (status_eqb (state n) Pending || status_eqb (state n) Ready)
                 && existsb (has_state Failed g) (dependencies n)
              then with_state Failed n else n) <$> g !! x.
Proof.
  unfold fail_round. rewrite map_lookup_imap. destruct (g !! x); reflexivity.
Qed.

Lemma fail_round_restated g : restated g (fail_round g).
Proof.
  intros x. rewrite fail_round_lookup. destruct (g !! x) as [n|]; cbn; [|reflexivity].
  match goal with |- context [if ?b then _ else _] => destruct b end.
  - eauto.
  - exists (state n). now rewrite with_state_same.
Qed.

Lemma set_state_restated g x n st :
  g !! x = Some n -> restated g (<[x := with_state st n]> g).
Proof.
  intros E y. destruct (decide (x = y)) as [->|Hxy].
  - rewrite E, lookup_insert_eq. eauto.
  - rewrite lookup_insert_ne by exact Hxy.
    destruct (g !! y) as [m|]; [|reflexivity].
    exists (state m). now rewrite with_state_same.
Qed.


Lemma propagate_restated g : restated g (propagate_failure g).
Proof.
  unfold propagate_failure. generalize (size g). intros k.
  induction k as [|k IH]; cbn [Nat.iter].
  - apply restated_refl.
  - eapply restated_trans; [exact IH | apply fail_round_restated].
Qed.

Lemma agg_check_restated g : restated g (agg_check g).
Proof.
  unfold agg_check. destruct (g !! agg) as [n|] eqn:E; [|apply restated_refl].
  destruct (status_eqb (state n) Pending && frontier_closed g);
    [apply set_state_restated; exact E | apply restated_refl].
Qed.

(** ** Spawn chains *)

Lemma spawned_under_S k g x :
  spawned_under root k g x = true -> spawned_under root (S k) g x = true.
Proof.
  revert x. induction k as [|k IH]; intros x H.
  - cbn in H |- *. rewrite orb_false_r in H. rewrite H. reflexivity.
  - cbn [spawned_under] in H |- *.
    apply orb_true_iff in H as [H|H]; [rewrite H; reflexivity|].
    apply orb_true_iff. right.
    destruct (g !! x) as [n|]; [|discriminate H].
    destruct (spawned_by n) as [p|]; [|discriminate H].
    apply IH. exact H.
Qed.

Lemma spawned_under_le k k' g x :
  (k <= k')%nat -> spawned_under root k g x = true ->
  spawned_under root k' g x = true.
Proof.
  induction 1 as [|k' Hle IH]; intros H; [exact H|].
  apply spawned_under_S. apply IH. exact H.
Qed.

Lemma spawned_under_weaken k g g' x :
  g ⊆ g' -> spawned_under root k g x = true ->
  spawned_under root k g' x = true.
Proof.
  intros Hsub. revert x. induction k as [|k IH]; intros x H; [exact H|].
  cbn [spawned_under] in H |- *.
  apply orb_true_iff in H as [H|H]; [rewrite H; reflexivity|].
  apply orb_true_iff. right.
  destruct (g !! x) as [n|] eqn:E; [|discriminate H].
  rewrite (lookup_weaken g g' x n E Hsub).
  destruct (spawned_by n) as [p|]; [|discriminate H].
  apply IH. exact H.
Qed.

Lemma spawned_is_descendant k g x :
  spawned_under root k g x = true -> is_descendant root k g x = true.
Proof.
  revert x. induction k as [|k IH]; intros x H; [exact H|].
  cbn [spawned_under is_descendant] in H |- *.
  apply orb_true_iff in H as [H|H]; [rewrite H; reflexivity|].
  apply orb_true_iff. right.
  destruct (g !! x) as [n|]; [|discriminate H].
  destruct (spawned_by n) as [p|]; [|discriminate H].
  apply orb_true_iff. left. apply IH. exact H.
Qed.

Lemma chained_restated g g' : restated g g' -> chained g -> chained g'.
Proof.
  intros Hr Hc x n' E Hx. pose proof (Hr x) as Hrx.
  destruct (g !! x) as [n|] eqn:En; [|congruence].
  destruct (Hc x n En Hx) as (k & Hk & Hs). exists k. split.
  - now rewrite (restated_size g g' Hr).
  - now rewrite (restated_spawned_under g g' k x Hr).
Qed.

(** ** Insertion of a delta *)

Lemma mem_In x l : mem x l = true <-> In x l.
Proof.
  unfold mem. rewrite existsb_exists. split.
  - intros (y & Hy & E). apply Nat.eqb_eq in E. now subst.
  - intros H. exists x. split; [exact H | apply Nat.eqb_refl].
Qed.

Lemma distinct_NoDup l : distinct l = true -> List.NoDup l.
Proof.
  induction l as [|x l IH]; cbn [distinct]; intros H; [constructor|].
  apply andb_prop in H as [Hx Hl]. constructor; [|apply IH; exact Hl].
  intros Hin. apply mem_In in Hin. rewrite Hin in Hx. discriminate Hx.
Qed.

Lemma add_nodes_lookup_old origin delta g x :
  ~ In x (map new_id delta) ->
  foldr (add_node origin) g delta !! x = g !! x.
Proof.
  induction delta as [|b delta IH]; cbn [foldr map]; intros H; [reflexivity|].
  unfold add_node at 1. rewrite lookup_insert_ne.
  - apply IH. intros Hin. apply H. now right.
  - intros E. apply H. now left.
Qed.

Lemma add_nodes_lookup_new origin delta g x :
  In x (map new_id delta) ->
  exists b, In b delta /\ new_id b = x /\
    foldr (add_node origin) g delta !! x
    = Some {| action := new_action b; dependencies := new_deps b;
              state := Pending; spawned_by := Some origin |}.
Proof.
  induction delta as [|b delta IH]; cbn [foldr map]; intros H; [destruct H|].
  unfold add_node at 1. destruct (decide (new_id b = x)) as [E|E].
  - exists b. split; [now left|]. split; [exact E|].
    rewrite E. now rewrite lookup_insert_eq.
  - destruct H as [H|H]; [contradiction|].
    destruct (IH H) as (b' & Hb' & Hid & Hl).
    exists b'. split; [now right|]. split; [exact Hid|].
    now rewrite lookup_insert_ne.
Qed.

Lemma add_nodes_subseteq origin delta g :
  fresh g (map new_id delta) -> g ⊆ foldr (add_node origin) g delta.
Proof.
  intros Hf. apply map_subseteq_spec. intros x n E.
  rewrite add_nodes_lookup_old; [exact E|].
  intros Hin. rewrite (Hf x Hin) in E. discriminate E.
Qed.

Lemma add_nodes_size origin delta g :
  fresh g (map new_id delta) -> List.NoDup (map new_id delta) ->
  size (foldr (add_node origin) g delta) = (size g + length delta)%nat.
Proof.
  induction delta as [|b delta IH]; cbn [foldr map length]; intros Hf Hnd.
  - lia.
  - inversion Hnd as [|? ? Hnotin Hnd']; subst.
    unfold add_node at 1. rewrite map_size_insert_None.
    + rewrite IH; [lia | | exact Hnd'].
      intros i Hi. apply Hf. now right.
    + rewrite add_nodes_lookup_old by exact Hnotin.
      apply Hf. now left.
Qed.

Lemma chained_add_nodes origin delta g no :
  fresh g (map new_id delta) -> List.NoDup (map new_id delta) ->
  g !! origin = Some no -> origin <> agg ->
  chained g -> chained (foldr (add_node origin) g delta).
Proof.
  intros Hf Hnd Ho Hoa Hc x n E Hx.
  pose proof (add_nodes_subseteq origin delta g Hf) as Hsub.
  pose proof (add_nodes_size origin delta g Hf Hnd) as Hsize.
  destruct (in_dec Nat.eq_dec x (map new_id delta)) as [Hin|Hnotin].
  - destruct (add_nodes_lookup_new origin delta g x Hin) as (b & Hb & Hid & Hl).
    rewrite Hl in E. inversion E; subst n. clear E.
    destruct (Hc origin no Ho Hoa) as (k & Hk & Hs).
    exists (S k). split.
    + rewrite Hsize. destruct delta; [destruct Hb | cbn [length]; lia].
    + cbn [spawned_under]. apply orb_true_iff. right.
      rewrite Hl. cbn [spawned_by].
      eapply spawned_under_weaken; [exact Hsub | exact Hs].
  - rewrite add_nodes_lookup_old in E by exact Hnotin.
    destruct (Hc x n E Hx) as (k & Hk & Hs). exists k. split.
    + rewrite Hsize. lia.
    + eapply spawned_under_weaken; [exact Hsub | exact Hs].
Qed.


(** ** What the transformations do to a node *)

Lemma status_eqb_eq a b : status_eqb a b = true <-> a = b.
Proof. destruct a, b; cbn; split; intros H; congruence. Qed.

Lemma has_state_true g x st :
  has_state st g x = true <-> exists n, g !! x = Some n /\ state n = st.
Proof.
  unfold has_state. destruct (g !! x) as [n|].
  - rewrite status_eqb_eq. split; [eauto|]. intros (m & E & H). congruence.
  - split; [discriminate|]. intros (m & E & _). discriminate E.
Qed.

Lemma promote_state sel g x n' :
  promote agg sel g !! x = Some n' ->
  exists n, g !! x = Some n /\
    (n' = n \/ (state n = Pending /\ n' = with_state Ready n /\ x <> agg)).
Proof.
  rewrite promote_lookup. destruct (g !! x) as [n|]; cbn; [|discriminate].
  intros H. inversion H; subst n'; clear H. exists n. split; [reflexivity|].
  match goal with |- context [if ?b then _ else _] => destruct b eqn:Eb end;
    [|now left].
  right. apply andb_prop in Eb as [Eb _]. apply andb_prop in Eb as [Eb Hp].
  apply andb_prop in Eb as [_ Hx].
  apply status_eqb_eq in Hp. apply negb_true_iff, Nat.eqb_neq in Hx. auto.
Qed.

Lemma fail_round_state g x n' :
  fail_round g !! x = Some n' ->
  exists n, g !! x = Some n /\
    (n' = n \/ ((state n = Pending \/ state n = Ready)
                /\ n' = with_state Failed n)).
Proof.
  rewrite fail_round_lookup. destruct (g !! x) as [n|]; cbn; [|discriminate].
  intros H. inversion H; subst n'; clear H. exists n. split; [reflexivity|].
  match goal with |- context [if ?b then _ else _] => destruct b eqn:Eb end;
    [|now left].
  right. apply andb_prop in Eb as [Eb _]. apply orb_true_iff in Eb.
  rewrite !status_eqb_eq in Eb. auto.
Qed.

Lemma propagate_state g x n' :
  propagate_failure g !! x = Some n' ->
  exists n, g !! x = Some n /\
    (n' = n \/ ((state n = Pending \/ state n = Ready)
                /\ n' = with_state Failed n)).
Proof.
  unfold propagate_failure. generalize (size g). intros k. revert n'.
  induction k as [|k IH]; cbn [Nat.iter]; intros n' H.
  - eauto.
  - apply fail_round_state in H as (m & Hm & Hcase).
    destruct (IH m Hm) as (n & Hn & Hcase'). exists n. split; [exact Hn|].
    destruct Hcase as [->|[Hst ->]]; [exact Hcase'|].
    destruct Hcase' as [->|[Hst' ->]]; [now right|].
    cbn in Hst. destruct Hst; discriminate.
Qed.

Lemma agg_check_state g x n' :
  agg_check g !! x = Some n' ->
  exists n, g !! x = Some n /\
    (n' = n \/ (x = agg /\ state n = Pending /\ n' = with_state Ready n
                /\ frontier_closed g = true)).
Proof.
  unfold agg_check. destruct (g !! agg) as [na|] eqn:Ea; [|eauto].
  destruct (status_eqb (state na) Pending && frontier_closed g) eqn:Eb;
    [|eauto].
  apply andb_prop in Eb as [Hp Hf]. apply status_eqb_eq in Hp.
  destruct (decide (agg = x)) as [<-|Hx].
  - rewrite lookup_insert_eq. intros H. inversion H; subst n'.
    exists na. split; [exact Ea|]. right. auto.
  - rewrite lookup_insert_ne by exact Hx. eauto.
Qed.

Lemma restated_lookup g g' x n :
  restated g g' -> g !! x = Some n ->
  exists st, g' !! x = Some (with_state st n).
Proof. intros H E. specialize (H x). rewrite E in H. exact H. Qed.

(** ** Settled nodes *)

Lemma settled_inv st :
  settled st = true ->
  st = Completed \/ (allow_partial = true /\ st = Failed).
Proof.
  unfold Scheduler.settled. intros H. apply orb_true_iff in H as [H|H].
  - left. now apply status_eqb_eq.
  - right. apply andb_prop in H as [Hp H]. split; [exact Hp|].
    now apply status_eqb_eq.
Qed.

Lemma settled_lasting st :
  settled st = true -> st = Completed \/ st = Failed.
Proof. intros H. destruct (settled_inv st H) as [H1|[_ H1]]; auto. Qed.

Lemma settled_not st :
  st = Pending \/ st = Ready \/ st = Running -> settled st = false.
Proof.
  unfold Scheduler.settled.
  intros [-> | [-> | ->]]; destruct allow_partial; reflexivity.
Qed.

Lemma in_map_to_list (g : gmap nat TaskNode) x n :
  In (x, n) (map_to_list g) <-> g !! x = Some n.
Proof. rewrite <- list_elem_of_In. apply elem_of_map_to_list. Qed.

Lemma finished_spec g :
  finished g = true
  <-> has_state Completed g root = true /\ all_others_settled g.
Proof.
  unfold Scheduler.finished. rewrite andb_true_iff, forallb_forall.
  split; intros [Hr Hall]; (split; [exact Hr|]).
  - intros x n E Hx. apply in_map_to_list in E. specialize (Hall _ E).
    cbn [fst snd] in Hall. apply orb_true_iff in Hall as [Hall|Hall];
      [|exact Hall].
    apply Nat.eqb_eq in Hall. contradiction.
  - intros [x n] E. apply in_map_to_list in E. cbn [fst snd].
    destruct (decide (x = agg)) as [->|Hx].
    + now rewrite Nat.eqb_refl.
    + rewrite (Hall x n E Hx). apply orb_true_r.
Qed.

Lemma none_failed_spec g :
  none_failed g = true <-> forall x n, g !! x = Some n -> state n <> Failed.
Proof.
  unfold none_failed. rewrite forallb_forall. split.
  - intros H x n E Hst. apply in_map_to_list in E. specialize (H _ E).
    cbn [snd] in H. rewrite Hst in H. discriminate H.
  - intros H [x n] E. apply in_map_to_list in E. cbn [snd].
    apply negb_true_iff. destruct (status_eqb (state n) Failed) eqn:Est;
      [|reflexivity].
    apply status_eqb_eq in Est. destruct (H x n E Est).
Qed.

(** Where no node has failed, or a failed branch blocks the
    aggregation, settled is [Completed]. *)
Lemma finished_all_completed g :
  finished g = true ->
  allow_partial = false \/ none_failed g = true ->
  all_others_completed agg g.
Proof.
  intros Hf Hno x n E Hx. apply finished_spec in Hf as [_ Hall].
  destruct (settled_inv _ (Hall x n E Hx)) as [H|[Hp H]]; [exact H|].
  destruct Hno as [Hno|Hno]; [congruence|].
  destruct (proj1 (none_failed_spec g) Hno x n E H).
Qed.

(** ** The frontier *)

(** A closed frontier over a chained graph: the run is finished. *)
Lemma frontier_closed_finished g :
  chained g -> frontier_closed g = true -> finished g = true.
Proof.
  intros Hc Hf. unfold Scheduler.frontier_closed in Hf.
  apply andb_prop in Hf as [Hf _]. apply andb_prop in Hf as [Hr Ha].
  rewrite forallb_forall in Ha. apply finished_spec. split; [exact Hr|].
  intros x n E Hx.
  destruct (Hc x n E Hx) as (k & Hk & Hs).
  assert (Hd : In x (descendants_of root g)).
  { unfold descendants_of. apply filter_In. split.
    - apply in_map_iff. exists (x, n). split; [reflexivity|].
      apply in_map_to_list. exact E.
    - apply spawned_is_descendant.
      apply (spawned_under_le k); [lia | exact Hs]. }
  specialize (Ha x Hd).
  apply orb_true_iff in Ha as [Ha|Ha].
  - apply Nat.eqb_eq in Ha. contradiction.
  - unfold settled_at in Ha. rewrite E in Ha. exact Ha.
Qed.

Lemma spawned_under_agg k g na :
  g !! agg = Some na -> spawned_by na = None ->
  spawned_under root k g agg = false.
Proof.
  intros E Hs. destruct k as [|k]; cbn [spawned_under].
  - rewrite orb_false_r. apply Nat.eqb_neq. auto.
  - rewrite E, Hs. rewrite orb_false_r. apply Nat.eqb_neq. auto.
Qed.

(** Conversely, when the run is finished the frontier is closed. *)
Lemma finished_frontier_closed g na :
  g !! agg = Some na -> spawned_by na = None ->
  finished g = true -> frontier_closed g = true.
Proof.
  intros Ea Hs Hf. apply finished_spec in Hf as [Hr Hall].
  unfold Scheduler.frontier_closed. rewrite Hr. cbn [andb].
  apply andb_true_intro. split.
  - apply forallb_forall. intros x Hx. apply orb_true_iff.
    destruct (decide (x = agg)) as [->|Hxa]; [left; apply Nat.eqb_refl|].
    right. unfold descendants_of in Hx. apply filter_In in Hx as [Hx _].
    apply in_map_iff in Hx as ([y n] & <- & Hy).
    apply in_map_to_list in Hy. cbn [fst] in Hxa |- *.
    unfold settled_at. rewrite Hy. apply (Hall y n Hy Hxa).
  - apply forallb_forall. intros [x n] Hx. apply in_map_to_list in Hx.
    cbn [fst snd]. apply negb_true_iff.
    destruct (decide (x = agg)) as [->|Hxa].
    + rewrite (spawned_under_agg _ g na Ea Hs). apply andb_false_r.
    + destruct (settled_lasting _ (Hall x n Hx Hxa)) as [-> | ->];
        reflexivity.
Qed.

(** ** Nodes that have completed or failed *)

Lemma lasting_refl g : lasting g g.
Proof. intros x n E _. exact E. Qed.

Lemma lasting_trans g1 g2 g3 : lasting g1 g2 -> lasting g2 g3 -> lasting g1 g3.
Proof. intros H12 H23 x n E Hst. apply H23; [apply H12|]; assumption. Qed.

Lemma lasting_set_state g x n st :
  g !! x = Some n -> state n <> Completed -> state n <> Failed ->
  lasting g (<[x := with_state st n]> g).
Proof.
  intros E Hc Hf y m Ey Hst. destruct (decide (x = y)) as [->|Hxy].
  - assert (m = n) by congruence. subst m. destruct Hst; contradiction.
  - now rewrite lookup_insert_ne.
Qed.

Lemma lasting_promote sel g : lasting g (promote agg sel g).
Proof.
  intros x n E Hst. rewrite promote_lookup, E. cbn.
  destruct Hst as [Hst|Hst]; rewrite Hst; cbn;
    now rewrite andb_false_r.
Qed.

Lemma lasting_fail_round g : lasting g (fail_round g).
Proof.
  intros x n E Hst. rewrite fail_round_lookup, E. cbn.
  destruct Hst as [Hst|Hst]; rewrite Hst; reflexivity.
Qed.

Lemma lasting_propagate g : lasting g (propagate_failure g).
Proof.
  unfold propagate_failure. generalize (size g). intros k.
  induction k as [|k IH]; cbn [Nat.iter].
  - apply lasting_refl.
  - eapply lasting_trans; [exact IH | apply lasting_fail_round].
Qed.

Lemma agg_check_lookup_ne g y :
  y <> agg -> agg_check g !! y = g !! y.
Proof.
  intros Hy. unfold Scheduler.agg_check.
  destruct (g !! agg) as [n|]; [|reflexivity].
  destruct (status_eqb (state n) Pending && frontier_closed g);
    [|reflexivity].
  apply lookup_insert_ne. auto.
Qed.

Lemma lasting_agg_check g : lasting g (agg_check g).
Proof.
  intros x n E Hst. destruct (decide (x = agg)) as [->|Hx].
  - unfold Scheduler.agg_check. rewrite E.
    destruct Hst as [Hst|Hst]; rewrite Hst; exact E.
  - now rewrite agg_check_lookup_ne.
Qed.

Lemma lasting_add_nodes origin delta g :
  fresh g (map new_id delta) -> lasting g (foldr (add_node origin) g delta).
Proof.
  intros Hf x n E _. rewrite add_nodes_lookup_old; [exact E|].
  intros Hin. rewrite (Hf x Hin) in E. discriminate E.
Qed.

Lemma lasting_has_state g g' st x :
  lasting g g' -> st = Completed \/ st = Failed ->
  has_state st g x = true -> has_state st g' x = true.
Proof.
  intros Hl Hst H. apply has_state_true in H as (n & E & Hn).
  apply has_state_true. exists n. split; [|exact Hn].
  apply Hl; [exact E|]. rewrite Hn. exact Hst.
Qed.

(** A node that failed with its dependents did so under a failed
    dependency. *)
Lemma propagate_failed_dep g x n n' :
  g !! x = Some n -> state n <> Failed ->
  propagate_failure g !! x = Some n' -> state n' = Failed ->
  exists d, In d (dependencies n)
            /\ has_state Failed (propagate_failure g) d = true.
Proof.
  unfold propagate_failure. generalize (size g). intros k E Hn. revert n'.
  induction k as [|k IH]; intros n' E' Hn'.
  - change (g !! x = Some n') in E'. rewrite E in E'.
    inversion E'; subst n'. contradiction.
  - change (fail_round (Nat.iter k fail_round g) !! x = Some n') in E'.
    change (Nat.iter (S k) fail_round g)
      with (fail_round (Nat.iter k fail_round g)).
    rewrite fail_round_lookup in E'.
    destruct (Nat.iter k fail_round g !! x) as [m|] eqn:Em; [|discriminate E'].
    cbn in E'. inversion E' as [Heq]; clear E'.
    assert (Hdeps : dependencies m = dependencies n).
    { assert (Hr : restated g (Nat.iter k fail_round g)).
      { clear. induction k as [|k IHk]; cbn [Nat.iter];
          [apply restated_refl|].
        eapply restated_trans; [exact IHk | apply fail_round_restated]. }
      destruct (restated_lookup g _ x n Hr E) as (st & Est).
      rewrite Em in Est. inversion Est. reflexivity. }
    destruct ((status_eqb (state m) Pending || status_eqb (state m) Ready)
              && existsb (has_state Failed (Nat.iter k fail_round g))
                   (dependencies m)) eqn:Eb.
    + apply andb_prop in Eb as [_ Hex]. apply existsb_exists in Hex
        as (d & Hd & Hfd). exists d. split; [now rewrite <- Hdeps|].
      apply (lasting_has_state _ _ Failed d (lasting_fail_round _));
        [now right | exact Hfd].
    + subst n'. destruct (IH m eq_refl Hn') as (d & Hd & Hfd).
      exists d. split; [exact Hd|].
      apply (lasting_has_state _ _ Failed d (lasting_fail_round _));
        [now right | exact Hfd].
Qed.

(** ** Well-formed graphs *)

Lemma shaped_restated g g' : restated g g' -> shaped g -> shaped g'.
Proof.
  intros Hr ([nr Er] & (na & Ea & Hact & Hsp & Hdeps) & Hc). split; [|split].
  - destruct (restated_lookup g g' root nr Hr Er) as (st & ->). eauto.
  - destruct (restated_lookup g g' agg na Hr Ea) as (st & ->).
    eexists. split; [reflexivity|]. repeat split; assumption.
  - apply (chained_restated g g' Hr Hc).
Qed.

Lemma insert_lookup_inv (g : gmap nat TaskNode) x v y n' :
  <[x := v]> g !! y = Some n' ->
  (y = x /\ n' = v) \/ (y <> x /\ g !! y = Some n').
Proof.
  destruct (decide (x = y)) as [->|Hxy].
  - rewrite lookup_insert_eq. intros H. inversion H. now left.
  - rewrite lookup_insert_ne by exact Hxy. intros H. right. split; auto.
Qed.

Lemma has_state_agg g na st :
  g !! agg = Some na -> (has_state st g agg = true <-> state na = st).
Proof.
  intros E. unfold has_state. rewrite E. apply status_eqb_eq.
Qed.

Lemma has_state_agg_false g na st :
  g !! agg = Some na -> (has_state st g agg = false <-> state na <> st).
Proof.
  intros E. rewrite <- (has_state_agg g na st E).
  destruct (has_state st g agg); split; congruence.
Qed.

Lemma released_agg g na :
  g !! agg = Some na ->
  (agg_released agg g = true <->
   state na = Ready \/ state na = Running \/ state na = Completed).
Proof.
  intros E. unfold agg_released.
  rewrite !orb_true_iff, !(has_state_agg g na _ E). tauto.
Qed.

(** In a frozen graph only the aggregation task can be dispatched,
    completed or failed. *)
Lemma frozen_only_agg g x n :
  frozen g -> g !! x = Some n -> state n = Ready \/ state n = Running ->
  x = agg.
Proof.
  intros [Hall _] E Hst. destruct (decide (x = agg)) as [->|Hx]; [reflexivity|].
  pose proof (Hall x n E Hx) as Hs.
  rewrite settled_not in Hs by tauto. discriminate Hs.
Qed.

Lemma agg_moves_not_pending a a' :
  agg_moves a a' -> a <> Pending -> a' <> Pending.
Proof.
  intros [Hmv|[[Ha Ha']|[[Ha Ha']|[[Ha Ha']|[_ Ha']]]]] Hp; congruence.
Qed.

(** A step that keeps the nodes and leaves the settled ones alone keeps
    a frozen graph frozen. *)
Lemma frozen_preserved g g' na na' :
  restated g g' -> lasting g g' ->
  g !! agg = Some na -> g' !! agg = Some na' ->
  agg_moves (state na) (state na') ->
  frozen g -> frozen g'.
Proof.
  intros Hr Hl Ea Ea' Hmv [Hall Hp]. split.
  - intros y m' Ey Hy. pose proof (Hr y) as Hry.
    destruct (g !! y) as [m|] eqn:Em; [|congruence].
    pose proof (Hall y m Em Hy) as Hs.
    rewrite (Hl y m Em (settled_lasting _ Hs)) in Ey.
    inversion Ey; subst m'. exact Hs.
  - apply (has_state_agg_false g' na' _ Ea').
    apply (agg_moves_not_pending _ _ Hmv).
    now apply (has_state_agg_false g na _ Ea).
Qed.

Lemma finished_agg_check g :
  finished (agg_check g) = true <-> finished g = true.
Proof.
  rewrite !finished_spec. unfold has_state at 1 2.
  rewrite (agg_check_lookup_ne g root Hne).
  split; intros [Hr Hall]; (split; [exact Hr|]); intros y m Ey Hy.
  - apply (Hall y m); [|exact Hy]. now rewrite agg_check_lookup_ne.
  - rewrite agg_check_lookup_ne in Ey by exact Hy. apply (Hall y m Ey Hy).
Qed.

(** *** Dispatch *)

Lemma dispatch_spec g x n :
  shaped g -> g !! x = Some n -> state n = Ready ->
  let g' := <[x := with_state Running n]> g in
  restated g g' /\ agg_step g g' /\ lasting g g'.
Proof.
  intros (_ & (na & Ea & _) & _) E Hst g'.
  assert (Hr : restated g g') by (apply set_state_restated; exact E).
  split; [exact Hr|]. split.
  - destruct (decide (x = agg)) as [->|Hx].
    + exists na, (with_state Running n). subst g'. rewrite lookup_insert_eq.
      split; [exact Ea|]. split; [reflexivity|].
      assert (na = n) by congruence. subst n. cbn [state with_state].
      split; [right; right; left; auto|].
      split; intros Hp; congruence.
    + exists na, na. subst g'. rewrite lookup_insert_ne by exact Hx.
      split; [exact Ea|]. split; [exact Ea|].
      split; [now left|]. split; intros Hp Hrd; cbn in Hrd; congruence.
  - apply lasting_set_state; [exact E | congruence | congruence].
Qed.

(** *** Failure *)

Lemma fail_spec g x n :
  shaped g -> g !! x = Some n -> state n = Running ->
  let g' := agg_check (propagate_failure (<[x := with_state Failed n]> g)) in
  restated g g' /\ agg_step g g' /\ lasting g g'.
Proof.
  intros Hsh E Hst g'.
  set (g1 := <[x := with_state Failed n]> g) in *.
  set (g2 := propagate_failure g1) in *.
  assert (Hr1 : restated g g1) by (apply set_state_restated; exact E).
  assert (Hr2 : restated g g2).
  { eapply restated_trans; [exact Hr1 | apply propagate_restated]. }
  assert (Hr : restated g g').
  { eapply restated_trans; [exact Hr2 | apply agg_check_restated]. }
  assert (Hl : lasting g g').
  { eapply lasting_trans;
      [apply lasting_set_state; [exact E | congruence | congruence]|].
    eapply lasting_trans; [apply lasting_propagate | apply lasting_agg_check]. }
  pose proof (shaped_restated g g2 Hr2 Hsh) as (_ & _ & Hc2).
  destruct Hsh as (_ & (na & Ea & _ & _ & Hdeps) & _).
  split; [exact Hr|]. split; [|exact Hl].
  destruct (restated_lookup g g' agg na Hr Ea) as (st & Ea').
  exists na, (with_state st na). split; [exact Ea|]. split; [exact Ea'|].
  pose proof Ea' as Hback. subst g'.
  apply agg_check_state in Hback as (n2 & E2 & H2).
  pose proof E2 as E2'. subst g2.
  apply propagate_state in E2' as (n1 & E1 & H1).
  pose proof E1 as E1'. subst g1.
  apply insert_lookup_inv in E1' as [[Hx ->]|[Hx E0]].
  - (* the aggregation task itself fails *)
    subst x. assert (na = n) by (rewrite Ea in E; now inversion E). subst n.
    destruct H1 as [->|[[H1|H1] _]]; [|discriminate H1|discriminate H1].
    destruct H2 as [H2|(_ & H2 & _)]; [|discriminate H2].
    apply (f_equal state) in H2. cbn in H2. rewrite H2, Hst.
    split; [right; right; right; right; auto|].
    split; intros Hp; discriminate Hp.
  - assert (n1 = na) by congruence. subst n1. clear E0.
    destruct H1 as [->|[Hpr ->]].
    + destruct H2 as [H2|(_ & Hp & H2 & Hf)].
      * apply (f_equal state) in H2. cbn in H2. rewrite H2.
        split; [now left|]. split; intros Hp Hrd; cbn in Hrd; congruence.
      * apply (f_equal state) in H2. cbn in H2. rewrite H2.
        cbn [state with_state].
        split; [right; left; auto|]. split; [|discriminate].
        intros _ _. apply finished_agg_check.
        apply (frontier_closed_finished _ Hc2 Hf).
    + destruct H2 as [H2|(_ & H2 & _)]; [|discriminate H2].
      apply (f_equal state) in H2. cbn in H2. rewrite H2.
      split; [right; right; right; right; tauto|]. split; [discriminate|].
      intros Hp _.
      destruct (propagate_failed_dep _ agg na _ E1 ltac:(congruence) E2 eq_refl)
        as (d & Hd & Hfd).
      rewrite Hdeps in Hd. destruct Hd as [<-|[]].
      apply (lasting_has_state _ _ Failed root (lasting_agg_check _));
        [now right | exact Hfd].
Qed.

(** *** Completion *)

Lemma complete_spec g x n sel :
  shaped g -> g !! x = Some n -> state n = Running ->
  let g' := agg_check (promote agg sel (<[x := with_state Completed n]> g)) in
  restated g g' /\ agg_step g g' /\ lasting g g'.
Proof.
  intros Hsh E Hst g'.
  set (g1 := <[x := with_state Completed n]> g) in *.
  set (g2 := promote agg sel g1) in *.
  assert (Hr1 : restated g g1) by (apply set_state_restated; exact E).
  assert (Hr2 : restated g g2).
  { eapply restated_trans; [exact Hr1 | apply promote_restated]. }
  assert (Hr : restated g g').
  { eapply restated_trans; [exact Hr2 | apply agg_check_restated]. }
  assert (Hl : lasting g g').
  { eapply lasting_trans;
      [apply lasting_set_state; [exact E | congruence | congruence]|].
    eapply lasting_trans; [apply lasting_promote | apply lasting_agg_check]. }
  pose proof (shaped_restated g g2 Hr2 Hsh) as (_ & _ & Hc2).
  destruct Hsh as (_ & (na & Ea & _) & _).
  split; [exact Hr|]. split; [|exact Hl].
  destruct (restated_lookup g g' agg na Hr Ea) as (st & Ea').
  exists na, (with_state st na). split; [exact Ea|]. split; [exact Ea'|].
  pose proof Ea' as Hback. subst g'.
  apply agg_check_state in Hback as (n2 & E2 & H2). subst g2.
  pose proof E2 as E2'.
  apply promote_state in E2' as (n1 & E1 & H1). subst g1.
  assert (Hn2 : n2 = n1).
  { destruct H1 as [H1|(_ & _ & H1)]; [exact H1 | now destruct H1]. }
  subst n2. clear H1.
  apply insert_lookup_inv in E1 as [[Hx ->]|[Hx E1]].
  - subst x. assert (na = n) by (rewrite Ea in E; now inversion E). subst n.
    destruct H2 as [H2|(_ & H2 & _)]; [|discriminate H2].
    apply (f_equal state) in H2. cbn in H2. rewrite H2. cbn [state with_state].
    rewrite Hst. split; [right; right; right; left; auto|].
    split; intros Hp; discriminate Hp.
  - assert (n1 = na) by (rewrite Ea in E1; now inversion E1). subst n1.
    destruct H2 as [H2|(_ & Hp & H2 & Hf)].
    + apply (f_equal state) in H2. cbn in H2. rewrite H2.
      split; [now left|]. split; intros Hp Hrd; cbn in Hrd; congruence.
    + apply (f_equal state) in H2. cbn in H2. rewrite H2.
      cbn [state with_state].
      split; [right; left; auto|]. split; [|discriminate].
      intros _ _. apply finished_agg_check.
      apply (frontier_closed_finished _ Hc2 Hf).
Qed.

Lemma mark_completed_inv x payload r r' :
  mark_completed agg x payload r = Done r' ->
  exists n, graph r !! x = Some n /\ state n = Running /\
    graph r' = promote agg (fun _ m => mem x (dependencies m))
                 (<[x := with_state Completed n]> (graph r)).
Proof.
  unfold mark_completed. destruct (store r !! x); [discriminate|].
  destruct (graph r !! x) as [n|]; [|discriminate].
  destruct (status_eqb (state n) Running) eqn:Est; [|discriminate].
  intros H. inversion H; subst r'. exists n.
  split; [reflexivity|]. split; [now apply status_eqb_eq | reflexivity].
Qed.

Lemma existsb_false_forall {A} (p : A -> bool) l :
  existsb p l = false -> forall x, In x l -> p x = false.
Proof.
  intros H x Hx. destruct (p x) eqn:E; [|reflexivity].
  assert (existsb p l = true) by (apply existsb_exists; eauto). congruence.
Qed.

Lemma insert_delta_inv origin delta g g1 :
  insert_delta agg origin delta g = Done g1 ->
  fresh g (map new_id delta) /\ List.NoDup (map new_id delta) /\
  g1 = promote agg (fun y _ => mem y (map new_id delta))
         (foldr (add_node origin) g delta).
Proof.
  unfold insert_delta.
  destruct (existsb _ (map new_id delta) || negb (distinct (map new_id delta)))
    eqn:E1; [discriminate|].
  apply orb_false_iff in E1 as [Hfresh Hdist].
  apply negb_false_iff in Hdist.
  destruct (existsb _ delta); [discriminate|].
  destruct (negb (acyclic (length delta) delta)); [discriminate|].
  intros H. inversion H; subst g1. split; [|split].
  - intros i Hi. pose proof (existsb_false_forall _ _ Hfresh i Hi) as Hb.
    cbn beta in Hb. apply bool_decide_eq_false in Hb.
    destruct (g !! i) eqn:Ei; [|reflexivity]. destruct Hb. eauto.
  - apply distinct_NoDup. exact Hdist.
  - reflexivity.
Qed.

(** *** The aggregation task does not stay behind *)

Lemma agg_check_prompt g :
  shaped g -> finished (agg_check g) = true ->
  has_state Pending (agg_check g) agg = false.
Proof.
  intros (_ & (na & Ea & _ & Hsp & _) & _) Hfin.
  apply (proj1 (finished_agg_check g)) in Hfin.
  pose proof (finished_frontier_closed g na Ea Hsp Hfin) as Hf.
  unfold Scheduler.agg_check. rewrite Ea, Hf, andb_true_r.
  destruct (status_eqb (state na) Pending) eqn:Ep.
  - unfold has_state. rewrite lookup_insert_eq. reflexivity.
  - unfold has_state. rewrite Ea. exact Ep.
Qed.

Lemma dispatch_prompt g x n :
  g !! x = Some n ->
  let g' := <[x := with_state Running n]> g in
  finished g' = true -> has_state Pending g' agg = false.
Proof.
  intros E g' Hfin. destruct (decide (x = agg)) as [->|Hx].
  - subst g'. unfold has_state. rewrite lookup_insert_eq. reflexivity.
  - apply finished_spec in Hfin as [_ Hall].
    assert (Hs : settled (state (with_state Running n)) = true).
    { apply (Hall x); [subst g'; apply lookup_insert_eq | exact Hx]. }
    cbn [state with_state] in Hs. rewrite settled_not in Hs by tauto.
    discriminate Hs.
Qed.

(** ** One step *)

Lemma shaped_add_nodes origin delta g no :
  fresh g (map new_id delta) -> List.NoDup (map new_id delta) ->
  g !! origin = Some no -> origin <> agg ->
  shaped g -> shaped (foldr (add_node origin) g delta).
Proof.
  intros Hf Hnd Ho Hoa ([nr Er] & (na & Ea & Hact & Hsp) & Hc).
  assert (Hold : forall y m, g !! y = Some m ->
                   foldr (add_node origin) g delta !! y = Some m).
  { intros y m Ey. rewrite add_nodes_lookup_old; [exact Ey|].
    intros Hin. rewrite (Hf y Hin) in Ey. discriminate Ey. }
  split; [|split].
  - rewrite (Hold root nr Er). eauto.
  - exists na. split; [apply Hold; exact Ea|]. split; assumption.
  - apply (chained_add_nodes origin delta g no Hf Hnd Ho Hoa Hc).
Qed.

Lemma step_summary r e r' :
  shaped (graph r) -> step r e = Done r' ->
  summary (graph r) (graph r').
Proof.
  intros Hsh Hstep.
  destruct e as [x|x payload|x payload delta|x]; cbn [Scheduler.step] in Hstep.
  - (* Dispatch *)
    destruct (graph r !! x) as [n|] eqn:E; [|discriminate Hstep].
    destruct (status_eqb (state n) Ready) eqn:Est; [|discriminate Hstep].
    apply status_eqb_eq in Est. inversion Hstep; subst r'. cbn [graph with_graph].
    destruct (dispatch_spec (graph r) x n Hsh E Est) as (Hr & Hagg & Hl).
    split; [apply (shaped_restated _ _ Hr Hsh)|]. split; [exact Hagg|].
    split; [|split; [apply dispatch_prompt; exact E | exact Hl]].
    intros Hf. split; [|apply restated_dom; exact Hr].
    destruct Hagg as (na & na' & Ea & Ea' & Hmv & _).
    apply (frozen_preserved _ _ na na' Hr Hl Ea Ea' Hmv Hf).
  - (* CompleteTerminal *)
    destruct (graph r !! x) as [n|] eqn:E; [|discriminate Hstep].
    destruct (action n); [|discriminate Hstep].
    destruct (mark_completed agg x payload r) as [r1|] eqn:Em;
      [|discriminate Hstep].
    inversion Hstep; subst r'. cbn [graph with_graph].
    apply mark_completed_inv in Em as (n0 & E0 & Hst & ->).
    assert (n0 = n) by (rewrite E in E0; now inversion E0). subst n0.
    destruct (complete_spec (graph r) x n (fun _ m => mem x (dependencies m))
                Hsh E Hst) as (Hr & Hagg & Hl).
    split; [apply (shaped_restated _ _ Hr Hsh)|]. split; [exact Hagg|].
    split; [|split; [|exact Hl]].
    + intros Hf. split; [|apply restated_dom; exact Hr].
      destruct Hagg as (na & na' & Ea & Ea' & Hmv & _).
      apply (frozen_preserved _ _ na na' Hr Hl Ea Ea' Hmv Hf).
    + apply agg_check_prompt.
      eapply shaped_restated; [|exact Hsh].
      eapply restated_trans; [apply set_state_restated; exact E|].
      apply promote_restated.
  - (* CompleteExpanding *)
    destruct (graph r !! x) as [n|] eqn:E; [|discriminate Hstep].
    destruct (action n) eqn:Eact; [discriminate Hstep|].
    destruct (state n) eqn:Est; try discriminate Hstep.
    destruct (insert_delta agg x delta (graph r)) as [g1|] eqn:Ei;
      [|discriminate Hstep].
    destruct (mark_completed agg x payload (with_graph g1 r)) as [r1|] eqn:Em;
      [|discriminate Hstep].
    inversion Hstep; subst r'. cbn [graph with_graph].
    apply insert_delta_inv in Ei as (Hfresh & Hnd & ->).
    apply mark_completed_inv in Em as (n1 & E1 & Hst1 & ->).
    cbn [graph with_graph] in E1 |- *.
    pose proof Hsh as (_ & (na & Ea & Hact & _) & _).
    assert (Hxa : x <> agg).
    { intros ->. rewrite Ea in E. inversion E; subst n. congruence. }
    set (g0 := foldr (add_node x) (graph r) delta) in *.
    assert (Hsh0 : shaped g0)
      by (apply (shaped_add_nodes x delta (graph r) n); assumption).
    set (g1 := promote agg _ g0) in *.
    assert (Hsh1 : shaped g1)
      by (eapply shaped_restated; [apply promote_restated | exact Hsh0]).
    assert (Hl01 : lasting (graph r) g1).
    { eapply lasting_trans; [apply lasting_add_nodes; exact Hfresh|].
      apply lasting_promote. }
    destruct (complete_spec g1 x n1 (fun _ m => mem x (dependencies m))
                Hsh1 E1 Hst1) as (Hr & Hagg & Hl).
    split; [apply (shaped_restated _ _ Hr Hsh1)|]. split; [|split; [|split]].
    + destruct Hagg as (na1 & na' & Ea1 & Ea' & Hmv).
      exists na, na'. split; [exact Ea|]. split; [exact Ea'|].
      assert (na1 = na); [|subst na1; exact Hmv].
      subst g1. apply promote_state in Ea1 as (m & Em & Hm). subst g0.
      rewrite add_nodes_lookup_old in Em.
      * rewrite Ea in Em. inversion Em; subst m.
        destruct Hm as [Hm|(_ & _ & Hm)]; [exact Hm | now destruct Hm].
      * intros Hin. rewrite (Hfresh agg Hin) in Ea. discriminate Ea.
    + intros Hf. exfalso. apply Hxa.
      apply (frozen_only_agg (graph r) x n Hf E). auto.
    + apply agg_check_prompt.
      eapply shaped_restated; [|exact Hsh1].
      eapply restated_trans; [apply set_state_restated; exact E1|].
      apply promote_restated.
    + eapply lasting_trans; [exact Hl01 | exact Hl].
  - (* Fail *)
    destruct (graph r !! x) as [n|] eqn:E; [|discriminate Hstep].
    destruct (status_eqb (state n) Running) eqn:Est; [|discriminate Hstep].
    apply status_eqb_eq in Est. inversion Hstep; subst r'. cbn [graph with_graph].
    destruct (fail_spec (graph r) x n Hsh E Est) as (Hr & Hagg & Hl).
    split; [apply (shaped_restated _ _ Hr Hsh)|]. split; [exact Hagg|].
    split; [|split; [|exact Hl]].
    + intros Hf. split; [|apply restated_dom; exact Hr].
      destruct Hagg as (na & na' & Ea & Ea' & Hmv & _).
      apply (frozen_preserved _ _ na na' Hr Hl Ea Ea' Hmv Hf).
    + apply agg_check_prompt.
      eapply shaped_restated; [|exact Hsh].
      eapply restated_trans; [apply set_state_restated; exact E|].
      apply propagate_restated.
Qed.

Lemma finished_step g g' :
  wf g -> summary g g' -> finished g = true -> finished g' = true.
Proof.
  intros (_ & _ & Hpr) (_ & _ & Hfr & _ & Hl) Hfin.
  pose proof (Hpr Hfin) as Hp. apply finished_spec in Hfin as [Hr Hall].
  destruct (Hfr (conj Hall Hp)) as [[Hall' _] _].
  apply finished_spec. split; [|exact Hall'].
  apply (lasting_has_state _ _ Completed root Hl); [now left | exact Hr].
Qed.

Lemma wf_step g g' : wf g -> summary g g' -> wf g'.
Proof.
  intros Hwf Hsum. pose proof (finished_step g g' Hwf Hsum) as Hkeep.
  destruct Hwf as (Hsh & Hrel & Hpr).
  destruct Hsum as (Hsh' & (na & na' & Ea & Ea' & Hmv & Hest & _) & Hfr & Hpr' & _).
  split; [exact Hsh'|]. split; [|exact Hpr'].
  intros Hrel'. apply (released_agg g' na' Ea') in Hrel'.
  assert (Hfrozen : agg_released agg g = true -> finished g' = true)
    by (intros HR; apply Hkeep, Hrel, HR).
  destruct Hmv as [Hmv|[[Ha Ha']|[[Ha Ha']|[[Ha Ha']|[_ Ha']]]]].
  - apply Hfrozen. apply (released_agg g na Ea). now rewrite <- Hmv.
  - apply Hest; assumption.
  - apply Hfrozen. apply (released_agg g na Ea). auto.
  - apply Hfrozen. apply (released_agg g na Ea). auto.
  - destruct Hrel' as [H|[H|H]]; congruence.
Qed.

Lemma init_lookup_root k :
  graph (init root agg k) !! root
  = Some {| action := k; dependencies := []; state := Ready;
            spawned_by := None |}.
Proof.
  cbn [graph init]. rewrite lookup_insert_ne by auto. apply lookup_insert_eq.
Qed.

Lemma init_lookup_agg k :
  graph (init root agg k) !! agg
  = Some {| action := Terminal; dependencies := [root]; state := Pending;
            spawned_by := None |}.
Proof. cbn [graph init]. apply lookup_insert_eq. Qed.

Lemma init_wf k : wf (graph (init root agg k)).
Proof.
  split; [split; [|split]|split].
  - rewrite init_lookup_root. eauto.
  - eexists. split; [apply init_lookup_agg|]. repeat split; reflexivity.
  - intros x n E Hx. exists 0%nat. split.
    + cbn [graph init]. rewrite map_size_insert_None.
      * rewrite map_size_insert_None; [|apply lookup_empty].
        rewrite map_size_empty. lia.
      * rewrite lookup_insert_ne by auto. apply lookup_empty.
    + cbn [spawned_under]. rewrite orb_false_r. apply Nat.eqb_eq.
      cbn [graph init] in E. rewrite lookup_insert_ne in E by auto.
      destruct (decide (root = x)) as [Hr|Hr]; [auto|].
      rewrite lookup_insert_ne in E by exact Hr. rewrite lookup_empty in E.
      discriminate E.
  - intros HR. apply (released_agg _ _ (init_lookup_agg k)) in HR.
    cbn in HR. destruct HR as [H|[H|H]]; discriminate H.
  - intros Hfin. apply finished_spec in Hfin as [Hr _].
    unfold has_state in Hr. rewrite init_lookup_root in Hr. discriminate Hr.
Qed.

(** ** Runs *)

Lemma step_wf r e r' :
  wf (graph r) -> step r e = Done r' ->
  wf (graph r') /\ summary (graph r) (graph r').
Proof.
  intros Hwf Hstep.
  pose proof (step_summary r e r' (proj1 Hwf) Hstep) as Hs.
  split; [apply (wf_step _ _ Hwf Hs) | exact Hs].
Qed.

Lemma run_wf es r r' :
  wf (graph r) -> run r es = Done r' -> wf (graph r').
Proof.
  revert r. induction es as [|e es IH]; cbn [Scheduler.run]; intros r Hwf H.
  - inversion H; subst. exact Hwf.
  - destruct (step r e) as [r1|] eqn:Es; [|discriminate H].
    apply (IH r1); [|exact H]. apply (step_wf r e r1 Hwf Es).
Qed.

Lemma run_app es1 es2 r r' :
  run r (es1 ++ es2) = Done r' ->
  exists r1, run r es1 = Done r1 /\ run r1 es2 = Done r'.
Proof.
  revert r. induction es1 as [|e es1 IH]; cbn [Scheduler.run app]; intros r H.
  - eauto.
  - destruct (step r e) as [r1|]; [apply IH; exact H | discriminate H].
Qed.

(** Once the run is finished no node is added and none changes but the
    aggregation task. *)
Lemma run_finished es r r' :
  wf (graph r) -> finished (graph r) = true -> run r es = Done r' ->
  finished (graph r') = true /\ dom (graph r') = dom (graph r).
Proof.
  revert r. induction es as [|e es IH]; cbn [Scheduler.run]; intros r Hwf Hf H.
  - inversion H; subst. auto.
  - destruct (step r e) as [r1|] eqn:Es; [|discriminate H].
    destruct (step_wf r e r1 Hwf Es) as (Hwf1 & Hsum).
    pose proof (finished_step _ _ Hwf Hsum Hf) as Hf1.
    destruct (IH r1 Hwf1 Hf1 H) as [Hf' Hd']. split; [exact Hf'|].
    rewrite Hd'. destruct Hsum as (_ & _ & Hfr & _).
    pose proof (proj2 (proj2 Hwf) Hf) as Hp.
    pose proof (proj2 (proj1 (finished_spec _) Hf)) as Hall.
    apply Hfr. split; assumption.
Qed.

Lemma run_root_failed es r r' :
  wf (graph r) -> has_state Failed (graph r) root = true ->
  run r es = Done r' -> has_state Failed (graph r') root = true.
Proof.
  revert r. induction es as [|e es IH]; cbn [Scheduler.run]; intros r Hwf Hf H.
  - inversion H; subst. exact Hf.
  - destruct (step r e) as [r1|] eqn:Es; [|discriminate H].
    destruct (step_wf r e r1 Hwf Es) as (Hwf1 & _ & _ & _ & _ & Hl).
    apply (IH r1 Hwf1); [|exact H].
    apply (lasting_has_state _ _ Failed root Hl); [now right | exact Hf].
Qed.

(** Once the aggregation task has left [Pending] it does not become
    [Ready] again. *)
Lemma ready_transitions_after es r :
  wf (graph r) -> has_state Pending (graph r) agg = false ->
  ready_transitions r es = 0%nat.
Proof.
  revert r. induction es as [|e es IH]; cbn [Scheduler.ready_transitions];
    intros r Hwf Hp; [reflexivity|].
  destruct (step r e) as [r1|] eqn:Es; [|reflexivity].
  destruct (step_wf r e r1 Hwf Es)
    as (Hwf1 & _ & (na & na' & Ea & Ea' & Hmv & _) & _).
  apply (has_state_agg_false _ na _ Ea) in Hp.
  pose proof (agg_moves_not_pending _ _ Hmv Hp) as Hp1.
  rewrite (IH r1 Hwf1); [|apply (has_state_agg_false _ na' _ Ea'); exact Hp1].
  destruct (has_state Ready (graph r) agg) eqn:Er; [reflexivity|].
  destruct (has_state Ready (graph r1) agg) eqn:Er1; [|reflexivity].
  apply (has_state_agg_false _ na _ Ea) in Er.
  apply (has_state_agg _ na' _ Ea') in Er1.
  destruct Hmv as [Hmv|[[Ha Ha']|[[Ha Ha']|[[Ha Ha']|[_ Ha']]]]]; congruence.
Qed.

Lemma ready_transitions_le_1 es r :
  wf (graph r) -> (ready_transitions r es <= 1)%nat.
Proof.
  revert r. induction es as [|e es IH]; cbn [Scheduler.ready_transitions];
    intros r Hwf; [lia|].
  destruct (step r e) as [r1|] eqn:Es; [|lia].
  destruct (step_wf r e r1 Hwf Es)
    as (Hwf1 & _ & (na & na' & Ea & Ea' & Hmv & _) & _).
  destruct (negb (has_state Ready (graph r) agg)
            && has_state Ready (graph r1) agg) eqn:Eb.
  - apply andb_prop in Eb as [_ Er1].
    apply (has_state_agg _ na' _ Ea') in Er1.
    rewrite (ready_transitions_after es r1 Hwf1); [lia|].
    apply (has_state_agg_false _ na' _ Ea'). congruence.
  - specialize (IH r1 Hwf1). lia.
Qed.

(** A run in which the aggregation task became [Ready] is finished. *)
Lemma ready_once_finished es r r' :
  wf (graph r) -> run r es = Done r' ->
  ready_transitions r es = 1%nat -> finished (graph r') = true.
Proof.
  revert r. induction es as [|e es IH];
    cbn [Scheduler.run Scheduler.ready_transitions]; intros r Hwf H Hone;
    [discriminate Hone|].
  destruct (step r e) as [r1|] eqn:Es; [|discriminate H].
  destruct (step_wf r e r1 Hwf Es) as (Hwf1 & _).
  destruct (negb (has_state Ready (graph r) agg)
            && has_state Ready (graph r1) agg) eqn:Eb.
  - apply andb_prop in Eb as [_ Er1].
    assert (HR : agg_released agg (graph r1) = true)
      by (unfold agg_released; now rewrite Er1).
    pose proof (proj1 (proj2 Hwf1) HR) as Hf1.
    apply (run_finished es r1 r' Hwf1 Hf1 H).
  - apply (IH r1 Hwf1 H). exact Hone.
Qed.

(** A finished run made the aggregation task [Ready] once. *)
Lemma finished_ready_once es r r' :
  wf (graph r) -> has_state Pending (graph r) agg = true ->
  run r es = Done r' -> finished (graph r') = true ->
  ready_transitions r es = 1%nat.
Proof.
  revert r. induction es as [|e es IH];
    cbn [Scheduler.run Scheduler.ready_transitions]; intros r Hwf Hp H Hfin.
  - inversion H; subst r'. rewrite (proj2 (proj2 Hwf) Hfin) in Hp.
    discriminate Hp.
  - destruct (step r e) as [r1|] eqn:Es; [|discriminate H].
    destruct (step_wf r e r1 Hwf Es)
      as (Hwf1 & _ & (na & na' & Ea & Ea' & Hmv & _ & Hfl) & _).
    apply (has_state_agg _ na _ Ea) in Hp.
    assert (Hnr : has_state Ready (graph r) agg = false)
      by (apply (has_state_agg_false _ na _ Ea); congruence).
    rewrite Hnr. cbn [negb andb].
    destruct Hmv as [Hmv|[[Ha Ha']|[[Ha Ha']|[[Ha Ha']|[_ Ha']]]]];
      try congruence.
    + assert (Hnr1 : has_state Ready (graph r1) agg = false)
        by (apply (has_state_agg_false _ na' _ Ea'); congruence).
      rewrite Hnr1. cbn. apply (IH r1 Hwf1); [|exact H|exact Hfin].
      apply (has_state_agg _ na' _ Ea'). congruence.
    + assert (Hr1 : has_state Ready (graph r1) agg = true)
        by (apply (has_state_agg _ na' _ Ea'); exact Ha').
      rewrite Hr1. rewrite (ready_transitions_after es r1 Hwf1); [reflexivity|].
      apply (has_state_agg_false _ na' _ Ea'). congruence.
    + exfalso.
      pose proof (run_root_failed es r1 r' Hwf1 (Hfl Hp Ha') H) as Hrf.
      apply finished_spec in Hfin as [Hrc _].
      apply has_state_true in Hrf as (m & Em & Hm).
      apply has_state_true in Hrc as (m' & Em' & Hm'). congruence.
Qed.

End Facts.

(** C4: in every run of the scheduler from the graph at submission,
    whether a failed branch blocks the aggregation or not, the
    aggregation task becomes [Ready] at most once, and exactly once in
    the runs that finish, that is, at whose end the root is [Completed]
    and every other node is settled.  At any point of the run at which it
    is [Ready], or has been, the frontier is closed: the root is
    [Completed], every other node is settled, and all of them are
    [Completed] where a failed branch blocks the aggregation or no node
    has failed; and the graph has all the nodes the run will ever have,
    so that the task is not [Ready] before the last node spawned under
    the root has completed. *)
Theorem C4_aggregation_ready_once_after_last_descendant
    (allow_partial : bool) (root agg : nat) (k : kind)
    (events : list event) (r : Run) :
  root <> agg ->
  run allow_partial root agg (init root agg k) events = Done r ->
  (ready_transitions allow_partial root agg (init root agg k) events <= 1)%nat
  /\ (ready_transitions allow_partial root agg (init root agg k) events
      = 1%nat
      <-> finished allow_partial root agg (graph r) = true)
  /\ (forall es1 es2 r1,
        events = (es1 ++ es2)%list ->
        run allow_partial root agg (init root agg k) es1 = Done r1 ->
        agg_released agg (graph r1) = true ->
        frontier_closed allow_partial root agg (graph r1) = true
        /\ finished allow_partial root agg (graph r1) = true
        /\ (allow_partial = false \/ none_failed (graph r1) = true ->
            all_others_completed agg (graph r1))
        /\ dom (graph r) = dom (graph r1)).
Proof.
  intros Hne Hrun.
  pose proof (init_wf allow_partial root agg Hne k) as Hwf0.
  assert (Hp0 : has_state Pending (graph (init root agg k)) agg = true).
  { apply (has_state_agg agg _ _ _ (init_lookup_agg root agg k)). reflexivity. }
  split; [apply (ready_transitions_le_1 allow_partial root agg Hne); exact Hwf0|].
  split.
  - split.
    + apply (ready_once_finished allow_partial root agg Hne events _ r Hwf0 Hrun).
    + apply (finished_ready_once allow_partial root agg Hne events _ r
               Hwf0 Hp0 Hrun).
  - intros es1 es2 r1 Hsplit Hrun1 HR.
    pose proof (run_wf allow_partial root agg Hne es1 _ r1 Hwf0 Hrun1) as Hwf1.
    pose proof (proj1 (proj2 Hwf1) HR) as Hfin.
    destruct Hwf1 as (Hsh1 & Hwf1').
    pose proof Hsh1 as (_ & (na & Ea & _ & Hsp & _) & _).
    split; [apply (finished_frontier_closed allow_partial root agg Hne _ na);
            assumption|].
    split; [exact Hfin|].
    split; [apply (finished_all_completed allow_partial root agg); exact Hfin|].
    subst events. apply run_app in Hrun as (r1' & Hrun1' & Hrun2).
    rewrite Hrun1 in Hrun1'. inversion Hrun1'; subst r1'.
    apply (run_finished allow_partial root agg Hne es2 r1 r
             (conj Hsh1 Hwf1') Hfin Hrun2).
Qed.

(** The end-to-end scenario: the run is legal, the aggregation task is
    still [Pending] when one adsorbate node is left to complete, and
    [Ready] as soon as that one completes. *)
Example scenario_runs :
  run false 0 1 (init 0 1 Expanding) scenario = Done scenario_final
  /\ size (graph scenario_final) = 11%nat
  /\ forallb (has_state Completed (graph scenario_final)) (seq 0 11) = true.
Proof. repeat split; vm_compute; reflexivity. Qed.

Example scenario_waits_for_last_descendant :
  match run false 0 1 (init 0 1 Expanding) (firstn 19 scenario) with
  | Done r => has_state Pending (graph r) 1 && has_state Running (graph r) 9
  | Err _ => false
  end = true
  /\ has_state Ready (graph scenario_released) 1 = true.
Proof. split; vm_compute; reflexivity. Qed.

(** A run with a failed branch.  Where a partially failed aggregate is
    allowed, the aggregation task becomes [Ready], once, when the last
    node has completed or failed; where a failed branch blocks the
    aggregation, it stays [Pending]. *)
Example failed_branch_under_either_policy :
  ready_transitions true 0 1 (init 0 1 Expanding) failing_scenario = 1%nat
  /\ match run true 0 1 (init 0 1 Expanding) failing_scenario with
     | Done r => has_state Ready (graph r) 1 && has_state Failed (graph r) 2
                 && has_state Completed (graph r) 3
     | Err _ => false
     end = true
  /\ ready_transitions false 0 1 (init 0 1 Expanding) failing_scenario = 0%nat
  /\ match run false 0 1 (init 0 1 Expanding) failing_scenario with
     | Done r => has_state Pending (graph r) 1 && has_state Failed (graph r) 2
     | Err _ => false
     end = true.
Proof. repeat split; vm_compute; reflexivity. Qed.

Lemma C4_witness_scenario :
  ready_transitions false 0 1 (init 0 1 Expanding) scenario = 1%nat
  /\ frontier_closed false 0 1 (graph scenario_released) = true
  /\ finished false 0 1 (graph scenario_released) = true
  /\ all_others_completed 1 (graph scenario_released)
  /\ dom (graph scenario_final) = dom (graph scenario_released).
Proof.
  destruct (C4_aggregation_ready_once_after_last_descendant false 0 1
              Expanding scenario scenario_final)
    as (_ & Hiff & Hpre).
  - discriminate.
  - vm_compute. reflexivity.
  - split; [apply Hiff; vm_compute; reflexivity|].
    destruct (Hpre (firstn 20 scenario) (skipn 20 scenario) scenario_released)
      as (Hfc & Hfin & Hall & Hdom).
    + reflexivity.
    + vm_compute. reflexivity.
    + vm_compute. reflexivity.
    + split; [exact Hfc|]. split; [exact Hfin|].
      split; [apply Hall; left; reflexivity | exact Hdom].
Defined.

End SchedulerFacts.
